(** * qCVS: sentence splitting, quote verification and the quote CSV files

    A shallow embedding of [main.go] (the extraction tool) and of
    [rand/random_quote.go] (the sampler), with the properties of their
    sentence splitter, quote verifier and CSV persistence.

    A Go [string] is an immutable sequence of bytes, so it is modelled as
    [list byte]; indices and the Go [int] are [Z].  A run-time panic
    (index or slice bounds out of range) is the [None] of an [option],
    or the [Panic] of an [outcome] where a call can also return an
    error.  The packages of the Go standard library that the two
    programs call ([unicode/utf8], [unicode], [strings],
    [encoding/csv]) are modelled as far as they are used. *)

From Stdlib Require Import List ZArith Lia Bool.
From Stdlib Require Import Strings.Byte.
From Stdlib Require Strings.String.
Import String.StringSyntax.
Delimit Scope string_scope with string.
Import ListNotations.
Local Open Scope Z_scope.

(* ================================================================== *)
(** * Part I: definitions *)
(* ================================================================== *)

(** ** Go strings *)

Definition gostring := list byte.

(** A string literal of this (UTF-8) file as the bytes it is made of. *)
Definition str (s : String.string) : gostring :=
  String.list_byte_of_string s.
Arguments str s%_string.

(** [byte] as the unsigned 8-bit number Go compares and masks. *)
Definition b2z (b : byte) : Z := Z.of_N (Byte.to_N b).

(** The conversion [byte(x)] of an integer: the low 8 bits. *)
Definition z2b (x : Z) : byte :=
  match Byte.of_N (Z.to_N (x mod 256)) with
  | Some b => b
  | None => x00
  end.

Definition len {A} (s : list A) : Z := Z.of_nat (length s).

(** [s[lo:hi]] on a slice or a string whose capacity is its length:
    Go panics unless [0 <= lo <= hi <= len(s)]. *)
Definition slice {A} (s : list A) (lo hi : Z) : option (list A) :=
  if (0 <=? lo) && (lo <=? hi) && (hi <=? len s)
  then Some (firstn (Z.to_nat (hi - lo)) (skipn (Z.to_nat lo) s))
  else None.

(** [s[i]]: [None] is the index-out-of-range panic. *)
Definition index {A} (s : list A) (i : Z) : option A :=
  if (0 <=? i) && (i <? len s) then nth_error s (Z.to_nat i) else None.

(** [a == b] on strings. *)
Definition bytes_eqb (a b : gostring) : bool :=
  if list_eq_dec Byte.byte_eq_dec a b then true else false.

(** ** Package [unicode/utf8] and the [range] over a string *)

Module Utf8.

Definition RuneError : Z := 0xFFFD.
Definition RuneSelf : Z := 0x80.
Definition MaxRune : Z := 0x10FFFF.
Definition UTFMax : Z := 4.
Definition surrogateMin : Z := 0xD800.
Definition surrogateMax : Z := 0xDFFF.

Definition tx : Z := 0x80.
Definition t2 : Z := 0xC0.
Definition t3 : Z := 0xE0.
Definition t4 : Z := 0xF0.
Definition t5 : Z := 0xF8.
Definition maskx : Z := 0x3F.
Definition mask2 : Z := 0x1F.
Definition mask3 : Z := 0x0F.
Definition mask4 : Z := 0x07.
Definition rune1Max : Z := 0x7F.
Definition rune2Max : Z := 0x7FF.
Definition rune3Max : Z := 0xFFFF.
Definition locb : Z := 0x80.
Definition hicb : Z := 0xBF.

(** A continuation byte, [locb <= b && b <= hicb]. *)
Definition isCont (b : byte) : bool := (locb <=? b2z b) && (b2z b <=? hicb).

(** [utf8.RuneStart]. *)
Definition RuneStart (b : byte) : bool :=
  negb (Z.land (b2z b) 0xC0 =? 0x80).

(** The rune at the head of [s] and its width in bytes, as the [range]
    loop and [utf8.DecodeRuneInString] find them: a byte below
    [RuneSelf] is itself; a well-formed sequence of two to four bytes
    is its code point; anything else (an ill-formed or cut sequence,
    an overlong form, a surrogate, a value above [MaxRune]) is
    [RuneError] of width 1.  The empty string gives [(RuneError, 0)]. *)
Definition DecodeRune (s : gostring) : Z * Z :=
  match s with
  | [] => (RuneError, 0)
  | b0 :: s1 =>
      let c0 := b2z b0 in
      if c0 <? RuneSelf then (c0, 1)
      else if (t2 <=? c0) && (c0 <? t3) then
        match s1 with
        | b1 :: _ =>
            if isCont b1 then
              let r := Z.lor (Z.shiftl (Z.land c0 mask2) 6)
                             (Z.land (b2z b1) maskx) in
              if rune1Max <? r then (r, 2) else (RuneError, 1)
            else (RuneError, 1)
        | _ => (RuneError, 1)
        end
      else if (t3 <=? c0) && (c0 <? t4) then
        match s1 with
        | b1 :: b2 :: _ =>
            if isCont b1 && isCont b2 then
              let r := Z.lor (Z.lor (Z.shiftl (Z.land c0 mask3) 12)
                                    (Z.shiftl (Z.land (b2z b1) maskx) 6))
                             (Z.land (b2z b2) maskx) in
              if (rune2Max <? r)
                 && negb ((surrogateMin <=? r) && (r <=? surrogateMax))
              then (r, 3) else (RuneError, 1)
            else (RuneError, 1)
        | _ => (RuneError, 1)
        end
      else if (t4 <=? c0) && (c0 <? t5) then
        match s1 with
        | b1 :: b2 :: b3 :: _ =>
            if isCont b1 && isCont b2 && isCont b3 then
              let r := Z.lor (Z.lor (Z.lor
                         (Z.shiftl (Z.land c0 mask4) 18)
                         (Z.shiftl (Z.land (b2z b1) maskx) 12))
                         (Z.shiftl (Z.land (b2z b2) maskx) 6))
                         (Z.land (b2z b3) maskx) in
              if (rune3Max <? r) && (r <=? MaxRune)
              then (r, 4) else (RuneError, 1)
            else (RuneError, 1)
        | _ => (RuneError, 1)
        end
      else (RuneError, 1)
  end.

(** [utf8.AppendRune] to an empty buffer: the bytes [WriteRune] adds. *)
Definition EncodeRune (r : Z) : gostring :=
  let i := r mod 2 ^ 32 in
  if i <=? rune1Max then [z2b r]
  else if i <=? rune2Max then
    [z2b (Z.lor t2 (b2z (z2b (Z.shiftr r 6))));
     z2b (Z.lor tx (Z.land (b2z (z2b r)) maskx))]
  else
    let enc3 (r : Z) :=
      [z2b (Z.lor t3 (b2z (z2b (Z.shiftr r 12))));
       z2b (Z.lor tx (Z.land (b2z (z2b (Z.shiftr r 6))) maskx));
       z2b (Z.lor tx (Z.land (b2z (z2b r)) maskx))] in
    if (MaxRune <? i) || ((surrogateMin <=? i) && (i <=? surrogateMax))
    then enc3 RuneError
    else if i <=? rune3Max then enc3 r
    else
      [z2b (Z.lor t4 (b2z (z2b (Z.shiftr r 18))));
       z2b (Z.lor tx (Z.land (b2z (z2b (Z.shiftr r 12))) maskx));
       z2b (Z.lor tx (Z.land (b2z (z2b (Z.shiftr r 6))) maskx));
       z2b (Z.lor tx (Z.land (b2z (z2b r)) maskx))].

(** [for i, r := range s]: the pairs of a byte offset and the rune that
    starts there, in order.  [i] is the offset of [s] in the string that
    is ranged over. *)
Fixpoint rangeFrom (fuel : nat) (i : Z) (s : gostring) : list (Z * Z) :=
  match fuel, s with
  | S fuel', _ :: _ =>
      let '(r, w) := DecodeRune s in
      (i, r) :: rangeFrom fuel' (i + w) (skipn (Z.to_nat w) s)
  | _, _ => []
  end.

Definition range (s : gostring) : list (Z * Z) := rangeFrom (length s) 0 s.

(** [utf8.DecodeLastRuneInString]: the last rune of [s] and its width.
    [backToStart] is its loop
    [for start--; start >= lim; start-- { if RuneStart(s[start]) { break } }]
    which runs at most [UTFMax] times. *)
Fixpoint backToStart (s : gostring) (lim : Z) (fuel : nat) (start : Z) : Z :=
  match fuel with
  | O => start
  | S fuel' =>
      if start >=? lim then
        match index s start with
        | Some b => if RuneStart b then start
                    else backToStart s lim fuel' (start - 1)
        | None => start
        end
      else start
  end.

Definition DecodeLastRune (s : gostring) : Z * Z :=
  let end_ := len s in
  if end_ =? 0 then (RuneError, 0)
  else
    let start := end_ - 1 in
    match index s start with
    | None => (RuneError, 0)
    | Some b =>
        let r := b2z b in
        if r <? RuneSelf then (r, 1)
        else
          let lim := end_ - UTFMax in
          let lim := if lim <? 0 then 0 else lim in
          let start := backToStart s lim 4 (start - 1) in
          let start := if start <? 0 then 0 else start in
          let '(r, size) := DecodeRune (skipn (Z.to_nat start) s) in
          if negb (start + size =? end_) then (RuneError, 1)
          else (r, size)
    end.

End Utf8.

(** ** Package [unicode] *)

Module Unicode.

Definition MaxLatin1 : Z := 0xFF.

(** [unicode.IsSpace]: the Latin-1 cases, then the ranges of the
    [White_Space] table above Latin-1. *)
Definition IsSpace (r : Z) : bool :=
  if r mod 2 ^ 32 <=? MaxLatin1 then
    (r =? 0x09) || (r =? 0x0A) || (r =? 0x0B) || (r =? 0x0C) || (r =? 0x0D)
    || (r =? 0x20) || (r =? 0x85) || (r =? 0xA0)
  else
    (r =? 0x1680) || ((0x2000 <=? r) && (r <=? 0x200A))
    || ((0x2028 <=? r) && (r <=? 0x2029)) || (r =? 0x202F)
    || (r =? 0x205F) || (r =? 0x3000).

End Unicode.

(** ** Package [strings] (the functions the two programs call) *)

Module Strings.

Fixpoint HasPrefix (s prefix : gostring) : bool :=
  match prefix, s with
  | [], _ => true
  | _ :: _, [] => false
  | p :: prefix', c :: s' => Byte.eqb c p && HasPrefix s' prefix'
  end.

Definition HasSuffix (s suffix : gostring) : bool :=
  HasPrefix (rev s) (rev suffix).

(** [strings.Index]: the byte offset of the first occurrence of [substr]
    in [s], or [-1]. *)
Fixpoint Index (s substr : gostring) : Z :=
  if HasPrefix s substr then 0
  else match s with
       | [] => -1
       | _ :: s' => let r := Index s' substr in
                    if r <? 0 then -1 else r + 1
       end.

Definition Contains (s substr : gostring) : bool := 0 <=? Index s substr.

(** [strings.Join]. *)
Fixpoint Join (elems : list gostring) (sep : gostring) : gostring :=
  match elems with
  | [] => []
  | [e] => e
  | e :: rest => e ++ sep ++ Join rest sep
  end.

(** [strings.ReplaceAll s old new] for a non-empty [old]: the
    non-overlapping occurrences of [old], found left to right, are
    replaced by [new].  [skip] counts the bytes of an occurrence that
    are still to be passed over. *)
Fixpoint replaceFrom (old new : gostring) (skip : nat) (s : gostring)
  : gostring :=
  match s with
  | [] => []
  | c :: s' =>
      match skip with
      | S k => replaceFrom old new k s'
      | O => if HasPrefix s old
             then new ++ replaceFrom old new (length old - 1) s'
             else c :: replaceFrom old new 0 s'
      end
  end.

Definition ReplaceAll (s old new : gostring) : gostring :=
  replaceFrom old new 0 s.

(** [strings.TrimSuffix]. *)
Definition TrimSuffix (s suffix : gostring) : gostring :=
  if HasSuffix s suffix
  then firstn (length s - length suffix) s
  else s.

(** The table [asciiSpace]: tab, newline, vertical tab, form feed,
    carriage return, space. *)
Definition asciiSpace (c : byte) : bool :=
  let z := b2z c in
  (z =? 0x09) || (z =? 0x0A) || (z =? 0x0B) || (z =? 0x0C) || (z =? 0x0D)
  || (z =? 0x20).

(** [indexFunc(s, f, false)] on the pairs [rs] of the [range] over [s]:
    the offset of the first rune that [f] rejects, or [-1]. *)
Fixpoint indexNotFunc (f : Z -> bool) (rs : list (Z * Z)) : Z :=
  match rs with
  | [] => -1
  | (i, r) :: rs' => if negb (f r) then i else indexNotFunc f rs'
  end.

(** [strings.TrimLeftFunc]. *)
Definition TrimLeftFunc (s : gostring) (f : Z -> bool) : gostring :=
  let i := indexNotFunc f (Utf8.range s) in
  if i =? -1 then [] else skipn (Z.to_nat i) s.

(** [lastIndexFunc(s, f, false)]: the loop
    [for i := len(s); i > 0; ] that steps back one rune at a time. *)
Fixpoint lastIndexNotFrom (f : Z -> bool) (s : gostring) (fuel : nat)
  (i : Z) : Z :=
  match fuel with
  | O => -1
  | S fuel' =>
      if i >? 0 then
        let '(r, size) := Utf8.DecodeLastRune (firstn (Z.to_nat i) s) in
        let i := i - size in
        if negb (f r) then i else lastIndexNotFrom f s fuel' i
      else -1
  end.

Definition lastIndexNotFunc (f : Z -> bool) (s : gostring) : Z :=
  lastIndexNotFrom f s (S (length s)) (len s).

(** [strings.TrimRightFunc]. *)
Definition TrimRightFunc (s : gostring) (f : Z -> bool) : gostring :=
  let i := lastIndexNotFunc f s in
  let i :=
    match index s i with
    | Some b =>
        if (0 <=? i) && (Utf8.RuneSelf <=? b2z b)
        then i + snd (Utf8.DecodeRune (skipn (Z.to_nat i) s))
        else i + 1
    | None => i + 1
    end in
  firstn (Z.to_nat i) s.

Definition TrimFunc (s : gostring) (f : Z -> bool) : gostring :=
  TrimRightFunc (TrimLeftFunc s f) f.

(** The second loop of [strings.TrimSpace] on [t = s[start:]]:
    [n] is [stop - start]. *)
Fixpoint trimSpaceStop (t : gostring) (n : nat) : gostring :=
  match n with
  | O => []
  | S k =>
      match nth_error t k with
      | Some c =>
          if Utf8.RuneSelf <=? b2z c
          then TrimRightFunc (firstn n t) Unicode.IsSpace
          else if asciiSpace c then trimSpaceStop t k
          else firstn n t
      | None => []
      end
  end.

(** [strings.TrimSpace]: the first loop over the leading bytes, with the
    fall back to the rune-wise [TrimFunc] at the first byte that is not
    ASCII. *)
Fixpoint TrimSpace (s : gostring) : gostring :=
  match s with
  | [] => []
  | c :: s' =>
      if Utf8.RuneSelf <=? b2z c then TrimFunc s Unicode.IsSpace
      else if asciiSpace c then TrimSpace s'
      else trimSpaceStop s (length s)
  end.

End Strings.

(** ** [main.go]: the sentence splitter *)

(** A rune literal such as ['.']. *)
Definition rune (c : byte) : Z := b2z c.
Arguments rune c%_byte.

(** Go's [int] is 64 bits wide here; [parenLevel++] and [parenLevel--]
    wrap around. *)
Definition wrap64 (z : Z) : Z := (z + 2 ^ 63) mod 2 ^ 64 - 2 ^ 63.

(** The variables of [splitSentences]: the result so far, the contents
    of the [strings.Builder] and the bracket counter. *)
Record splitState := mkSplit {
  sentences : list gostring;
  sb : gostring;
  parenLevel : Z
}.

Definition isOpener (r : Z) : bool :=
  (r =? rune "(") || (r =? rune "[") || (r =? rune "{").
Definition isCloser (r : Z) : bool :=
  (r =? rune ")") || (r =? rune "]") || (r =? rune "}").
Definition isTerminator (r : Z) : bool :=
  (r =? rune ".") || (r =? rune "!") || (r =? rune "?").

(** [text[i+1] != ' ' && text[i+1] != '\n'], evaluated only when
    [i+1 < len(text)]. *)
Definition nextIsNotBlank (text : gostring) (i : Z) : bool :=
  match index text (i + 1) with
  | Some c => negb (b2z c =? rune " ") && negb (b2z c =? rune x0a)
  | None => false
  end.

(** [append(sentences, s)], which is under the test that [s] is not
    the empty string. *)
Definition emit (sentences : list gostring) (s : gostring)
  : list gostring :=
  match s with
  | [] => sentences
  | _ => sentences ++ [s]
  end.

(** One turn of the loop body for the pair [(i, r)]. *)
Definition splitStep (text : gostring) (st : splitState) (ir : Z * Z)
  : splitState :=
  let '(i, r) := ir in
  let sb' := sb st ++ Utf8.EncodeRune r in
  let level :=
    if isOpener r then wrap64 (parenLevel st + 1)
    else if isCloser r then wrap64 (parenLevel st - 1)
    else parenLevel st in
  if isTerminator r && (level =? 0) then
    if (r =? rune ".") && (i + 1 <? len text) && nextIsNotBlank text i
    then mkSplit (sentences st) sb' level
    else mkSplit (emit (sentences st) (Strings.TrimSpace sb')) [] level
  else mkSplit (sentences st) sb' level.

Definition splitInit : splitState := mkSplit [] [] 0.

(** The state when the loop [for i, r := range text] is left. *)
Definition splitScan (text : gostring) : splitState :=
  fold_left (splitStep text) (Utf8.range text) splitInit.

(** The code after the loop: the rest of the buffer, trimmed. *)
Definition splitFlush (st : splitState) : list gostring :=
  if len (sb st) >? 0
  then emit (sentences st) (Strings.TrimSpace (sb st))
  else sentences st.

Definition splitSentences (text : gostring) : list gostring :=
  splitFlush (splitScan text).

(** The states after each turn of the loop over [rs], from [st]. *)
Fixpoint splitTrace (text : gostring) (st : splitState) (rs : list (Z * Z))
  : list splitState :=
  match rs with
  | [] => []
  | ir :: rs' =>
      let st' := splitStep text st ir in
      st' :: splitTrace text st' rs'
  end.

Definition nonEmpty (s : gostring) : bool :=
  match s with
  | [] => false
  | _ => true
  end.

(** ** [main.go]: the quote record and the verifier *)

Record Quote := mkQuote {
  Text : gostring;
  Author : gostring;
  ContextBefore : gostring;
  ContextAfter : gostring
}.

(** The zero value [Quote{}]. *)
Definition zeroQuote : Quote := mkQuote [] [] [] [].

(** The body of [for i, s := range sentences] in
    [verifyAndExtractContext], iterated over the elements [rest] that
    start at index [i]. *)
Fixpoint verifyLoop (sentences : list gostring) (quote author : gostring)
  (i : Z) (rest : list gostring) : option (Quote * bool) :=
  match rest with
  | [] => Some (zeroQuote, false)
  | s :: rest' =>
      if Strings.Contains s quote then
        let start := i - 2 in
        let start := if start <? 0 then 0 else start in
        let end_ := i + 3 in
        let end_ := if end_ >? len sentences then len sentences else end_ in
        match slice sentences start i, slice sentences (i + 1) end_ with
        | Some before, Some after =>
            Some (mkQuote quote author
                    (Strings.Join before (str " "))
                    (Strings.Join after (str " ")), true)
        | _, _ => None
        end
      else verifyLoop sentences quote author (i + 1) rest'
  end.

Definition verifyAndExtractContext (sentences : list gostring)
  (quote author : gostring) : option (Quote * bool) :=
  verifyLoop sentences quote author 0 sentences.

(** ** Outcomes of the file-level operations *)

(** The errors of [encoding/csv] that a parse can return. *)
Inductive csvError := ErrBareQuote | ErrQuote | ErrFieldCount.

(** What a call comes to: a value with a [nil] error, a non-[nil] error,
    a run-time panic, or a model loop that was given too little fuel. *)
Inductive outcome (A : Type) :=
| Ok (a : A)
| Failed (e : csvError)
| Panic
| OutOfFuel.
Arguments Ok {A} a.
Arguments Failed {A} e.
Arguments Panic {A}.
Arguments OutOfFuel {A}.

(** ** Package [encoding/csv], as the two programs configure it:
    [Comma = ';'], no comment character, [UseCRLF], [LazyQuotes] and
    [FieldsPerRecord] left at zero, and [TrimLeadingSpace] set on the
    reader. *)

Module Csv.

Definition Comma : byte := ";"%byte.
Definition quote : byte := x22.
Definition cr : byte := x0d.
Definition nl : byte := x0a.

(** [bytes.IndexByte]. *)
Fixpoint IndexByte (s : gostring) (c : byte) : Z :=
  match s with
  | [] => -1
  | b :: s' => if Byte.eqb b c then 0
               else let r := IndexByte s' c in
                    if r <? 0 then -1 else r + 1
  end.

(** [Writer.fieldNeedsQuotes]. *)
Definition fieldNeedsQuotes (field : gostring) : bool :=
  match field with
  | [] => false
  | _ =>
      if bytes_eqb field (str "\.") then true
      else if existsb (fun c => Byte.eqb c nl || Byte.eqb c cr
                                || Byte.eqb c quote || Byte.eqb c Comma)
                field
      then true
      else Unicode.IsSpace (fst (Utf8.DecodeRune field))
  end.

(** The inside of a quoted field: a quote is doubled, every other byte
    is copied ([UseCRLF] is not set). *)
Fixpoint escapeField (field : gostring) : gostring :=
  match field with
  | [] => []
  | c :: field' =>
      if Byte.eqb c quote then quote :: quote :: escapeField field'
      else c :: escapeField field'
  end.

Definition writeField (field : gostring) : gostring :=
  if fieldNeedsQuotes field
  then quote :: escapeField field ++ [quote]
  else field.

(** The fields of a record, with [Comma] before every field but the
    first. *)
Fixpoint writeFields (n : nat) (record : list gostring) : gostring :=
  match record with
  | [] => []
  | field :: record' =>
      (match n with O => [] | S _ => [Comma] end)
      ++ writeField field ++ writeFields (S n) record'
  end.

(** [Writer.Write]: the bytes one record adds to the output. *)
Definition Write (record : list gostring) : gostring :=
  writeFields 0 record ++ [nl].

(** [ReadSlice('\n')]: the bytes up to and with the first newline, the
    bytes after it, and whether the end of the input was hit first. *)
Fixpoint readSlice (input : gostring) : gostring * gostring * bool :=
  match input with
  | [] => ([], [], true)
  | b :: input' =>
      if Byte.eqb b nl then ([b], input', false)
      else let '(line, rest, eof) := readSlice input' in
           (b :: line, rest, eof)
  end.

(** [Reader.readLine]: a last line without a newline is no error and
    loses a trailing carriage return; a line end [\r\n] becomes [\n]. *)
Definition readLine (input : gostring) : gostring * gostring * bool :=
  let '(line, rest, eof) := readSlice input in
  let readSize := len line in
  let '(line, eof) :=
    if (readSize >? 0) && eof then
      (match rev line with
       | b :: front => if Byte.eqb b cr then rev front else line
       | [] => line
       end, false)
    else (line, eof) in
  let line :=
    match rev line with
    | b1 :: b2 :: front =>
        if Byte.eqb b2 cr && Byte.eqb b1 nl then rev front ++ [nl]
        else line
    | _ => line
    end in
  (line, rest, eof).

Definition lengthNL (b : gostring) : Z :=
  match rev b with
  | c :: _ => if Byte.eqb c nl then 1 else 0
  | [] => 0
  end.

Definition nextRune (b : gostring) : Z := fst (Utf8.DecodeRune b).

(** [line = line[i:]] for the first [i] whose rune is not a space, or
    for [i = len(line)]. *)
Definition trimLeadingSpace (line : gostring) : gostring :=
  let i := Strings.indexNotFunc Unicode.IsSpace (Utf8.range line) in
  let i := if i <? 0 then len line else i in
  skipn (Z.to_nat i) line.

(** The loop [parseField] of [Reader.readRecord].  [line] is what is
    left of the current line, [rest] the input after it, [fields] the
    fields read so far; [parseQuoted] is the inner loop of a quoted
    field, whose bytes so far are [buf].  Each further turn has used up
    at least one byte of [line ++ rest], which bounds the fuel. *)
Fixpoint parseField (fuel : nat) (line rest : gostring)
  (fields : list gostring) {struct fuel}
  : outcome (list gostring * gostring) :=
  match fuel with
  | O => OutOfFuel
  | S fuel' =>
      let line := trimLeadingSpace line in
      let bare :=
        let i := IndexByte line Comma in
        let field :=
          if i >=? 0 then firstn (Z.to_nat i) line
          else firstn (Z.to_nat (len line - lengthNL line)) line in
        if IndexByte field quote >=? 0 then Failed ErrBareQuote
        else if i >=? 0
        then parseField fuel' (skipn (Z.to_nat (i + 1)) line) rest
               (fields ++ [field])
        else Ok (fields ++ [field], rest) in
      match line with
      | b :: line' =>
          if Byte.eqb b quote
          then parseQuoted fuel' line' rest fields []
          else bare
      | [] => bare
      end
  end
with parseQuoted (fuel : nat) (line rest : gostring)
  (fields : list gostring) (buf : gostring) {struct fuel}
  : outcome (list gostring * gostring) :=
  match fuel with
  | O => OutOfFuel
  | S fuel' =>
      let i := IndexByte line quote in
      if i >=? 0 then
        let buf := buf ++ firstn (Z.to_nat i) line in
        let line := skipn (Z.to_nat (i + 1)) line in
        let rn := nextRune line in
        if rn =? b2z quote
        then parseQuoted fuel' (skipn 1 line) rest fields (buf ++ [quote])
        else if rn =? b2z Comma
        then parseField fuel' (skipn 1 line) rest (fields ++ [buf])
        else if lengthNL line =? len line
        then Ok (fields ++ [buf], rest)
        else Failed ErrQuote
      else if len line >? 0 then
        let '(line', rest', _) := readLine rest in
        parseQuoted fuel' line' rest' fields (buf ++ line)
      else Failed ErrQuote
  end.

(** The start of [Reader.readRecord]: lines that hold nothing but their
    newline are passed over; [None] is [io.EOF]. *)
Fixpoint nextLine (fuel : nat) (input : gostring)
  : outcome (option (gostring * gostring)) :=
  match fuel with
  | O => OutOfFuel
  | S fuel' =>
      let '(line, rest, eof) := readLine input in
      if eof then Ok None
      else if len line =? lengthNL line then nextLine fuel' rest
      else Ok (Some (line, rest))
  end.

(** [Reader.readRecord] with the reader's [FieldsPerRecord] passed in
    and out: the record, the input after it and the field count that
    later records must have. *)
Definition readRecord (fuel : nat) (input : gostring) (fieldsPerRecord : Z)
  : outcome (option (list gostring * gostring * Z)) :=
  match nextLine fuel input with
  | Ok None => Ok None
  | Ok (Some (line, rest)) =>
      match parseField fuel line rest [] with
      | Ok (dst, rest') =>
          if fieldsPerRecord >? 0 then
            if negb (len dst =? fieldsPerRecord) then Failed ErrFieldCount
            else Ok (Some (dst, rest', fieldsPerRecord))
          else if fieldsPerRecord =? 0
          then Ok (Some (dst, rest', len dst))
          else Ok (Some (dst, rest', fieldsPerRecord))
      | Failed e => Failed e
      | Panic => Panic
      | OutOfFuel => OutOfFuel
      end
  | Failed e => Failed e
  | Panic => Panic
  | OutOfFuel => OutOfFuel
  end.

Fixpoint readAllFrom (fuel : nat) (input : gostring) (fieldsPerRecord : Z)
  (records : list (list gostring)) : outcome (list (list gostring)) :=
  match fuel with
  | O => OutOfFuel
  | S fuel' =>
      match readRecord (S (length input)) input fieldsPerRecord with
      | Ok None => Ok records
      | Ok (Some (record, rest, fpr)) =>
          readAllFrom fuel' rest fpr (records ++ [record])
      | Failed e => Failed e
      | Panic => Panic
      | OutOfFuel => OutOfFuel
      end
  end.

(** [Reader.ReadAll] on a reader over the bytes [input]. *)
Definition ReadAll (input : gostring) : outcome (list (list gostring)) :=
  readAllFrom (S (length input)) input 0 [].

End Csv.

(** ** [main.go]: the CSV file of an extraction run

    A file is the sequence of its bytes; the operating-system errors of
    opening and writing are left out. *)

(** The byte-order mark and the header row that [initCSV] writes to the
    new file. *)
Definition csvHeader : list gostring :=
  [str "Цитата"; str "Автор"; str "Контекст (До)"; str "Контекст (После)"].

Definition initCSV : gostring :=
  [xef; xbb; xbf] ++ Csv.Write csvHeader.

(** The two [strings.ReplaceAll] calls on each field. *)
Definition sanitize (field : gostring) : gostring :=
  Strings.ReplaceAll (Strings.ReplaceAll field (str ";") (str ","))
    [x0a] (str " ").

(** The record [appendToCSV] hands to [writer.Write] for a quote. *)
Definition quoteRecord (q : Quote) : list gostring :=
  [sanitize (Text q); sanitize (Author q);
   sanitize (ContextBefore q); sanitize (ContextAfter q)].

(** [appendToCSV]: the file after the call. *)
Fixpoint appendToCSV (file : gostring) (quotes : list Quote) : gostring :=
  match quotes with
  | [] => file
  | q :: quotes' => appendToCSV (file ++ Csv.Write (quoteRecord q)) quotes'
  end.

(** [processFile]: the name of the output file. *)
Definition outputFile (filePath : gostring) : gostring :=
  Strings.TrimSuffix filePath (str ".txt") ++ str ".csv".

(** ** [rand/random_quote.go]: reading the quotes back *)

(** [records[1:]]: the slice expression panics on an empty [records]. *)
Definition dropHeader (records : list (list gostring))
  : outcome (list (list gostring)) :=
  match slice records 1 (len records) with
  | Some rows => Ok rows
  | None => Panic
  end.

(** The body of the loop over [records[1:]]: a record of fewer than four
    fields is passed over with a warning. *)
Fixpoint quotesOfRows (rows : list (list gostring)) (quotes : list Quote)
  : list Quote :=
  match rows with
  | [] => quotes
  | record :: rows' =>
      if len record <? 4 then quotesOfRows rows' quotes
      else
        match record with
        | f0 :: f1 :: f2 :: f3 :: _ =>
            quotesOfRows rows' (quotes ++ [mkQuote f0 f1 f2 f3])
        | _ => quotesOfRows rows' quotes
        end
  end.

(** [readQuotesFromCSV] on a file that opens and holds [file]. *)
Definition readQuotesFromCSV (file : gostring) : outcome (list Quote) :=
  match Csv.ReadAll file with
  | Ok records =>
      match dropHeader records with
      | Ok rows => Ok (quotesOfRows rows [])
      | Failed e => Failed e
      | Panic => Panic
      | OutOfFuel => OutOfFuel
      end
  | Failed e => Failed e
  | Panic => Panic
  | OutOfFuel => OutOfFuel
  end.

(** ** [utf8.ValidString] *)

(** The table [first] with [acceptRanges]: for a leading byte, the
    length of its sequence and the range its second byte must lie in;
    [None] stands for the entries [xx] of the bytes that cannot lead. *)
Definition firstInfo (c0 : Z) : option (Z * Z * Z) :=
  if (0xC2 <=? c0) && (c0 <=? 0xDF) then Some (2, 0x80, 0xBF)
  else if c0 =? 0xE0 then Some (3, 0xA0, 0xBF)
  else if (0xE1 <=? c0) && (c0 <=? 0xEC) then Some (3, 0x80, 0xBF)
  else if c0 =? 0xED then Some (3, 0x80, 0x9F)
  else if (0xEE <=? c0) && (c0 <=? 0xEF) then Some (3, 0x80, 0xBF)
  else if c0 =? 0xF0 then Some (4, 0x90, 0xBF)
  else if (0xF1 <=? c0) && (c0 <=? 0xF3) then Some (4, 0x80, 0xBF)
  else if c0 =? 0xF4 then Some (4, 0x80, 0x8F)
  else None.

Fixpoint ValidString (s : gostring) : bool :=
  match s with
  | [] => true
  | b0 :: s1 =>
      if b2z b0 <? Utf8.RuneSelf then ValidString s1
      else
        match firstInfo (b2z b0), s1 with
        | Some (size, lo, hi), b1 :: s2 =>
            if (b2z b1 <? lo) || (hi <? b2z b1) then false
            else if size =? 2 then ValidString s2
            else
              match s2 with
              | b2 :: s3 =>
                  if negb (Utf8.isCont b2) then false
                  else if size =? 3 then ValidString s3
                  else
                    match s3 with
                    | b3 :: s4 =>
                        if negb (Utf8.isCont b3) then false
                        else ValidString s4
                    | [] => false
                    end
              | [] => false
              end
        | _, _ => false
        end
  end.

(** The string that the runes of [s] encode: [s] with every byte that
    does not belong to a well-formed sequence turned into the three
    bytes of [RuneError]. *)
Definition recode (s : gostring) : gostring :=
  concat (map (fun ir => Utf8.EncodeRune (snd ir)) (Utf8.range s)).

(** ** Relations used to state the properties *)

(** The outcomes of decoding the head of a string: an ASCII byte, a
    well-formed sequence of two, three or four bytes with its code
    point, or a byte that is not ASCII and decodes as [RuneError]. *)
Inductive decodes : gostring -> Z -> Z -> Prop :=
| dec_ascii b s :
    b2z b < 128 -> decodes (b :: s) (b2z b) 1
| dec_error b s :
    128 <= b2z b -> decodes (b :: s) Utf8.RuneError 1
| dec_two b0 b1 s r :
    192 <= b2z b0 < 224 -> 128 <= b2z b1 <= 191 ->
    r = (b2z b0 mod 32) * 64 + b2z b1 mod 64 -> 127 < r ->
    decodes (b0 :: b1 :: s) r 2
| dec_three b0 b1 b2 s r :
    224 <= b2z b0 < 240 -> 128 <= b2z b1 <= 191 -> 128 <= b2z b2 <= 191 ->
    r = (b2z b0 mod 16) * 4096 + (b2z b1 mod 64) * 64 + b2z b2 mod 64 ->
    2047 < r -> ~ (55296 <= r <= 57343) ->
    decodes (b0 :: b1 :: b2 :: s) r 3
| dec_four b0 b1 b2 b3 s r :
    240 <= b2z b0 < 248 -> 128 <= b2z b1 <= 191 -> 128 <= b2z b2 <= 191 ->
    128 <= b2z b3 <= 191 ->
    r = (b2z b0 mod 8) * 262144 + (b2z b1 mod 64) * 4096
        + (b2z b2 mod 64) * 64 + b2z b3 mod 64 ->
    65535 < r -> r <= 1114111 ->
    decodes (b0 :: b1 :: b2 :: b3 :: s) r 4.

(** The words of the specification: the extension of a path, which is
    what follows (and includes) the last period of its last element, as
    [path/filepath.Ext] finds it; [extFrom] walks the path backwards. *)
Fixpoint extFrom (reversed : gostring) (ext : gostring) : gostring :=
  match reversed with
  | [] => []
  | c :: reversed' =>
      if Byte.eqb c "/" then []
      else if Byte.eqb c "." then c :: ext
      else extFrom reversed' (c :: ext)
  end.

Definition Ext (path : gostring) : gostring := extFrom (rev path) [].

(** The words of the specification: the path with its extension
    replaced by [ext]. *)
Definition replaceExt (path ext : gostring) : gostring :=
  firstn (length path - length (Ext path)) path ++ ext.

(** The words of the specification: a semicolon becomes a comma and a
    newline becomes a space. *)
Definition cleanByte (b : byte) : byte :=
  if Byte.eqb b ";" then ","%byte
  else if Byte.eqb b x0a then " "%byte
  else b.

(** The quote a record of four or more fields stands for. *)
Definition quoteOfRecord (record : list gostring) : Quote :=
  mkQuote (nth 0 record []) (nth 1 record []) (nth 2 record [])
    (nth 3 record []).

(** A field that the sanitisation leaves as it is. *)
Definition cleanField (f : gostring) : Prop :=
  ~ In ";"%byte f /\ ~ In x0a f.

Definition cleanQuote (q : Quote) : Prop :=
  cleanField (Text q) /\ cleanField (Author q) /\
  cleanField (ContextBefore q) /\ cleanField (ContextAfter q).

(** The last byte of the body of a line is not a carriage return. *)
Definition endsClean (l : gostring) : Prop :=
  forall front, l <> front ++ [Csv.cr].

(** What [Writer.Write] puts after the first field of a record. *)
Definition writeTail (record : list gostring) : gostring :=
  concat (map (fun g => Csv.Comma :: Csv.writeField g) record).

(** A record of [n] fields, none of which holds a newline. *)
Definition plainRecord (n : nat) (record : list gostring) : Prop :=
  length record = n /\ Forall (fun f => ~ In Csv.nl f) record.

(** A quote as the file holds it: each field sanitised. *)
Definition sanitizeQuote (q : Quote) : Quote :=
  mkQuote (sanitize (Text q)) (sanitize (Author q))
    (sanitize (ContextBefore q)) (sanitize (ContextAfter q)).

(** The first record of the file [initCSV] makes, as a reader sees it:
    the byte-order mark is part of its first field. *)
Definition headerRecord : list gostring :=
  ([xef; xbb; xbf] ++ str "Цитата") :: tl csvHeader.

(** The words of the specification: [sub] is contained in [s]. *)
Definition Substring (sub s : gostring) : Prop :=
  exists pre post, s = pre ++ sub ++ post.

(** The words of the specification: [l[a:b]] with mathematical bounds. *)
Definition window {A} (l : list A) (a b : nat) : list A :=
  firstn (b - a) (skipn a l).

(** The words of the specification: the window bounds [max(0, i-2)]
    and [min(len, i+3)] around the sentence at index [i]. *)
Definition ctxStart (i : nat) : nat := Z.to_nat (Z.max 0 (Z.of_nat i - 2)).

Definition ctxEnd {A} (l : list A) (i : nat) : nat :=
  Z.to_nat (Z.min (len l) (Z.of_nat i + 3)).

(** ** More of package [strings] *)

Module StringsMore.

(** [strings.TrimPrefix]. *)
Definition TrimPrefix (s prefix : gostring) : gostring :=
  if Strings.HasPrefix s prefix then skipn (length prefix) s else s.

Definition isUpper (c : byte) : bool :=
  (b2z "A"%byte <=? b2z c) && (b2z c <=? b2z "Z"%byte).

(** [c += 'a' - 'A'] on an upper-case letter. *)
Definition lowerByte (c : byte) : byte :=
  if isUpper c then z2b (b2z c + (b2z "a"%byte - b2z "A"%byte)) else c.

(** [strings.ToLower]: a string of ASCII bytes is returned as it is
    when it has no upper-case letter and with its upper-case letters
    lowered otherwise; any other string goes through
    [Map(unicode.ToLower, s)], which is [unicodeLower] here (the case
    tables of package [unicode] are not part of this development). *)
Definition ToLower (unicodeLower : gostring -> gostring) (s : gostring)
  : gostring :=
  if forallb (fun c => b2z c <? Utf8.RuneSelf) s then
    if existsb isUpper s then map lowerByte s else s
  else unicodeLower s.

End StringsMore.

(** ** [main.go]: one extraction run

    The generative model and [json.Unmarshal] are outside the program:
    [generateContent n request] is the text of the answer to the
    [n]-th request made ([None] when the call returns an error), and
    [jsonUnmarshal] decodes a JSON array of strings ([None] when it
    returns an error). *)

Definition prompt : gostring :=
  str "Извлеки из текста 3-10 ярких, выразительных цитат. " ++ [x0a] ++
  str "Ответ верни строго в формате JSON массива строк. Пример: [" ++
  [x22] ++ str "цитата1" ++ [x22] ++ str ", " ++
  [x22] ++ str "цитата2" ++ [x22] ++ str "]. " ++ [x0a] ++
  str "Не добавляй лишних символов, обратных кавычек или пояснений.".

(** What [extractQuotesFromAI] returns: [(nil, err)] or [(quotes, nil)]. *)
Inductive aiResult :=
| AIError
| AIQuotes (quotes : list gostring).

(** The clean-up of the answer before it is decoded. *)
Definition cleanResponse (text : gostring) : gostring :=
  let response := Strings.TrimSpace text in
  let response := StringsMore.TrimPrefix response (str "```json") in
  let response := Strings.TrimSuffix response (str "```") in
  Strings.TrimSpace response.

(** The variables an extraction run changes: the bytes of the CSV
    file, the slice [allQuotes] of [processFile], and the block texts
    of the calls of the model made so far, in order.  The output file
    is taken to be created and written without an error. *)
Record run := mkRun {
  csv : gostring;
  allQuotes : list Quote;
  requests : list gostring
}.

(** What a call of [processBlock] comes to: [nil], the wrapped error of
    the model, or a run-time panic. *)
Inductive blockResult :=
| BlockDone (st : run)
| BlockAIError (st : run)
| BlockPanic.

(** The variables of the loop of [processFile]. *)
Record fileLoop := mkLoop {
  block : gostring;
  allSentences : list gostring;
  loopRun : run
}.

Definition maxBlockSize : Z := 3000.

Section Extraction.

Variable generateContent : nat -> gostring -> option gostring.
Variable jsonUnmarshal : gostring -> option (list gostring).

Definition extractQuotesFromAI (call : nat) (text : gostring) : aiResult :=
  match generateContent call
          (prompt ++ [x0a; x0a] ++ str "Текст:" ++ [x0a] ++ text) with
  | None => AIError
  | Some resp =>
      match jsonUnmarshal (cleanResponse resp) with
      | None => AIQuotes []
      | Some quotes => AIQuotes quotes
      end
  end.

(** The loop of [processBlock] over the candidates; [None] is a panic
    of the verifier. *)
Fixpoint verifyAll (sentences : list gostring) (author : gostring)
  (aiQuotes : list gostring) (validQuotes : list Quote)
  : option (list Quote) :=
  match aiQuotes with
  | [] => Some validQuotes
  | q :: aiQuotes' =>
      match verifyAndExtractContext sentences q author with
      | Some (quote, ok) =>
          verifyAll sentences author aiQuotes'
            (if ok then validQuotes ++ [quote] else validQuotes)
      | None => None
      end
  end.

Definition processBlock (text : gostring) (sentences : list gostring)
  (author : gostring) (st : run) : blockResult :=
  let sent := mkRun (csv st) (allQuotes st) (requests st ++ [text]) in
  match extractQuotesFromAI (length (requests st)) text with
  | AIError => BlockAIError sent
  | AIQuotes aiQuotes =>
      if len aiQuotes =? 0 then BlockDone sent
      else
        match verifyAll sentences author aiQuotes [] with
        | None => BlockPanic
        | Some validQuotes =>
            if len validQuotes >? 0
            then BlockDone (mkRun (appendToCSV (csv st) validQuotes)
                              (allQuotes st ++ validQuotes)
                              (requests st ++ [text]))
            else BlockDone sent
        end
  end.

(** The body of [for scanner.Scan()] for one line; an error of
    [processBlock] is logged and the loop goes on. *)
Definition processLine (author : gostring) (st : fileLoop)
  (line : gostring) : option fileLoop :=
  let allSentences' := allSentences st ++ splitSentences line in
  let block' := block st ++ line ++ [x0a] in
  if len block' >? maxBlockSize then
    match processBlock block' allSentences' author (loopRun st) with
    | BlockDone r | BlockAIError r => Some (mkLoop [] allSentences' r)
    | BlockPanic => None
    end
  else Some (mkLoop block' allSentences' (loopRun st)).

Fixpoint processLines (author : gostring) (st : fileLoop)
  (lines : list gostring) : option fileLoop :=
  match lines with
  | [] => Some st
  | line :: lines' =>
      match processLine author st line with
      | Some st' => processLines author st' lines'
      | None => None
      end
  end.

(** [processFile] on an input file that opens, whose lines, as the
    [bufio.Scanner] hands them out, are [lines]: the run when it
    returns [nil]; [None] is a panic. *)
Definition processFile (lines : list gostring) (author : gostring)
  : option run :=
  match processLines author (mkLoop [] [] (mkRun initCSV [] [])) lines with
  | None => None
  | Some st =>
      if len (block st) >? 0 then
        match processBlock (block st) (allSentences st) author (loopRun st)
        with
        | BlockDone r | BlockAIError r => Some r
        | BlockPanic => None
        end
      else Some (loopRun st)
  end.

End Extraction.

(** ** [rand/random_quote.go]: the sampler

    A call of the function that [filepath.WalkDir] is given: the path
    and the name of the entry, whether it is a directory, and whether
    the walk hands it an error. *)
Record walkEntry := mkEntry {
  entryPath : gostring;
  entryName : gostring;
  entryIsDir : bool;
  entryErr : bool
}.

(** What [getRandomQuote] comes to. *)
Inductive sampleResult :=
| Sampled (q : Quote)
| ErrWalk
| ErrNoCSVFiles
| ErrNoQuotes
| SamplePanic
| SampleOutOfFuel.

Section Sampler.

Variable unicodeLower : gostring -> gostring.
(** [os.Open] and the contents of the file; [None] when it fails. *)
Variable openFile : gostring -> option gostring.
(** [rand.Intn] after the seeding with the clock. *)
Variable intn : Z -> Z.

(** The function literal of [findCSVFiles], over the calls [entries]
    that the walk makes as long as it is returned [nil]; [None] is the
    error that ends the walk. *)
Fixpoint walkCSV (entries : list walkEntry) (csvFiles : list gostring)
  : option (list gostring) :=
  match entries with
  | [] => Some csvFiles
  | e :: entries' =>
      if entryErr e then None
      else if negb (entryIsDir e)
              && Strings.HasSuffix
                   (StringsMore.ToLower unicodeLower (entryName e))
                   (str ".csv")
      then walkCSV entries' (csvFiles ++ [entryPath e])
      else walkCSV entries' csvFiles
  end.

Definition findCSVFiles (entries : list walkEntry)
  : option (list gostring) :=
  walkCSV entries [].

(** The loop of [getRandomQuote] over the files: a file that does not
    open or does not parse is logged and passed over. *)
Fixpoint poolQuotes (csvFiles : list gostring) (all : list Quote)
  : outcome (list Quote) :=
  match csvFiles with
  | [] => Ok all
  | filePath :: csvFiles' =>
      match openFile filePath with
      | None => poolQuotes csvFiles' all
      | Some file =>
          match readQuotesFromCSV file with
          | Ok quotes => poolQuotes csvFiles' (all ++ quotes)
          | Failed _ => poolQuotes csvFiles' all
          | Panic => Panic
          | OutOfFuel => OutOfFuel
          end
      end
  end.

Definition getRandomQuote (entries : list walkEntry) : sampleResult :=
  match findCSVFiles entries with
  | None => ErrWalk
  | Some csvFiles =>
      if len csvFiles =? 0 then ErrNoCSVFiles
      else
        match poolQuotes csvFiles [] with
        | Ok all =>
            if len all =? 0 then ErrNoQuotes
            else
              match index all (intn (len all)) with
              | Some q => Sampled q
              | None => SamplePanic
              end
        | Failed _ => ErrNoQuotes
        | Panic => SamplePanic
        | OutOfFuel => SampleOutOfFuel
        end
  end.

End Sampler.

(** ** More relations used to state the properties *)

(** The candidate [q] occurs in one of the sentences. *)
Definition occurs (sentences : list gostring) (q : gostring) : bool :=
  existsb (fun s => Strings.Contains s q) sentences.

(** A line with the newline that [processFile] adds to it. *)
Definition withNewline (line : gostring) : gostring := line ++ [x0a].

(** The text of a group of lines. *)
Definition textOf (lines : list gostring) : gostring :=
  concat (map withNewline lines).

(** The groups of lines that [processFile] sends off before the end
    of the file: the text of such a group is longer than
    [maxBlockSize], and was not before its last line came. *)
Definition fullGroup (g : list gostring) : Prop :=
  g <> [] /\ maxBlockSize < len (textOf g) /\
  len (textOf (removelast g)) <= maxBlockSize.

(** A quote that stands in the input: it has the author, and its text
    is part of a sentence of a line, which is part of that line as the
    [range] loop read it. *)
Definition fromInput (lines : list gostring) (author : gostring)
  (q : Quote) : Prop :=
  Author q = author /\
  exists line s,
    In line lines /\ In s (splitSentences line) /\
    Substring (Text q) s /\ Substring s (recode line).

(** What holds of the variables of the loop of [processFile] after the
    lines [seen]. *)
Definition loopInv (author : gostring) (seen : list gostring)
  (st : fileLoop) : Prop :=
  allSentences st = concat (map splitSentences seen) /\
  csv (loopRun st) = appendToCSV initCSV (allQuotes (loopRun st)) /\
  Forall (fromInput seen author) (allQuotes (loopRun st)) /\
  exists done cur,
    seen = concat done ++ cur /\ block st = textOf cur /\
    requests (loopRun st) = map textOf done /\
    len (textOf cur) <= maxBlockSize /\ Forall fullGroup done.

(** The quotes that the sampler gets from the file at [path]: none
    when the file does not open or does not parse. *)
Definition quotesIn (openFile : gostring -> option gostring)
  (path : gostring) : list Quote :=
  match openFile path with
  | Some file =>
      match readQuotesFromCSV file with
      | Ok quotes => quotes
      | _ => []
      end
  | None => []
  end.

(** A name that ends in [.csv], in upper or lower case letters. *)
Definition csvName (name : gostring) : Prop :=
  exists stem e1 e2 e3,
    name = stem ++ ["."%byte; e1; e2; e3] /\
    StringsMore.lowerByte e1 = "c"%byte /\
    StringsMore.lowerByte e2 = "s"%byte /\
    StringsMore.lowerByte e3 = "v"%byte.

Definition asciiName (name : gostring) : bool :=
  forallb (fun c => b2z c <? Utf8.RuneSelf) name.

(** A string whose last byte is one of [.], [!] and [?]. *)
Definition endsSentence (s : gostring) : Prop :=
  exists front c, s = front ++ [c] /\ isTerminator (b2z c) = true.

(* ================================================================== *)
(** * Part II: properties *)
(* ================================================================== *)

Lemma byte_eqb_eq (a b : byte) : Byte.eqb a b = true <-> a = b.
Proof.
  split; [apply Byte.byte_dec_bl | apply Byte.byte_dec_lb].
Qed.

Lemma HasPrefix_spec s p :
  Strings.HasPrefix s p = true <-> exists post, s = p ++ post.
Proof.
  revert s; induction p as [|c p IH]; intros [|d s]; simpl.
  - split; [exists []; reflexivity | reflexivity].
  - split; [exists (d :: s); reflexivity | reflexivity].
  - split; [discriminate | intros [post H]; discriminate].
  - rewrite andb_true_iff, byte_eqb_eq, IH. split.
    + intros [-> [post ->]]. exists post; reflexivity.
    + intros [post H]. injection H as -> ->. split; eauto.
Qed.

Lemma Index_range s q : -1 <= Strings.Index s q.
Proof.
  induction s as [|c s IH]; cbn [Strings.Index].
  - destruct (Strings.HasPrefix [] q); lia.
  - destruct (Strings.HasPrefix (c :: s) q); [lia|].
    destruct (Strings.Index s q <? 0) eqn:E; lia.
Qed.

Lemma Contains_spec s q :
  Strings.Contains s q = true <-> Substring q s.
Proof.
  unfold Strings.Contains, Substring.
  induction s as [|c s IH]; cbn [Strings.Index].
  - destruct (Strings.HasPrefix [] q) eqn:E.
    + apply HasPrefix_spec in E as [post E].
      split; [intros _; exists [], post; exact E | reflexivity].
    + split; [discriminate|]. intros [pre [post H]].
      destruct pre; [|discriminate]. simpl in H.
      assert (Strings.HasPrefix [] q = true)
        by (apply HasPrefix_spec; eauto).
      congruence.
  - destruct (Strings.HasPrefix (c :: s) q) eqn:E.
    + apply HasPrefix_spec in E as [post E].
      split; [intros _; exists [], post; exact E | reflexivity].
    + pose proof (Index_range s q).
      destruct (Strings.Index s q <? 0) eqn:L.
      * apply Z.ltb_lt in L. split; [discriminate|].
        intros [pre [post H']]. destruct pre as [|d pre].
        -- assert (Strings.HasPrefix (c :: s) q = true)
             by (apply HasPrefix_spec; eauto). congruence.
        -- injection H' as -> H'.
           assert ((0 <=? Strings.Index s q) = true) by (apply IH; eauto).
           lia.
      * apply Z.ltb_ge in L. split; [intros _|intros _; apply Z.leb_le; lia].
        destruct IH as [IH _].
        assert (Hle : (0 <=? Strings.Index s q) = true) by (apply Z.leb_le; lia).
        destruct (IH Hle) as [pre [post ->]].
        exists (c :: pre), post. reflexivity.
Qed.

(** ** The quote verifier *)

Lemma len_app {A} (a b : list A) : len (a ++ b) = len a + len b.
Proof. unfold len. rewrite length_app. lia. Qed.

Lemma len_cons {A} (x : A) (l : list A) : len (x :: l) = len l + 1.
Proof. unfold len. simpl length. lia. Qed.

Lemma len_nonneg {A} (l : list A) : 0 <= len l.
Proof. unfold len. lia. Qed.

Lemma slice_window {A} (l : list A) (a b : nat) :
  (a <= b <= length l)%nat ->
  slice l (Z.of_nat a) (Z.of_nat b) = Some (window l a b).
Proof.
  intros H. unfold slice, window, len.
  replace ((0 <=? Z.of_nat a) && (Z.of_nat a <=? Z.of_nat b)
           && (Z.of_nat b <=? Z.of_nat (length l))) with true
    by (symmetry; rewrite !andb_true_iff, !Z.leb_le; lia).
  rewrite Nat2Z.id.
  replace (Z.to_nat (Z.of_nat b - Z.of_nat a)) with (b - a)%nat by lia.
  reflexivity.
Qed.

Lemma verifyLoop_skip sentences quote author pre rest i :
  Forall (fun x => Strings.Contains x quote = false) pre ->
  verifyLoop sentences quote author i (pre ++ rest) =
  verifyLoop sentences quote author (i + len pre) rest.
Proof.
  intros H; revert i; induction H as [|x pre Hx _ IH]; intros i.
  - simpl. f_equal. unfold len; simpl; lia.
  - simpl. rewrite Hx, IH, len_cons. f_equal. lia.
Qed.

Lemma verifyLoop_hit sentences quote author i s :
  nth_error sentences i = Some s ->
  Strings.Contains s quote = true ->
  forall rest,
  verifyLoop sentences quote author (Z.of_nat i) (s :: rest) =
  Some (mkQuote quote author
          (Strings.Join (window sentences (ctxStart i) i) (str " "))
          (Strings.Join (window sentences (i + 1) (ctxEnd sentences i))
             (str " ")), true).
Proof.
  intros Hn Hc rest. simpl. rewrite Hc.
  assert (Hi : (i < length sentences)%nat)
    by (apply nth_error_Some; congruence).
  replace (if Z.of_nat i - 2 <? 0 then 0 else Z.of_nat i - 2)
    with (Z.of_nat (ctxStart i))
    by (unfold ctxStart; destruct (Z.ltb_spec (Z.of_nat i - 2) 0); lia).
  replace (if Z.of_nat i + 3 >? len sentences then len sentences
           else Z.of_nat i + 3)
    with (Z.of_nat (ctxEnd sentences i)).
  2:{ unfold ctxEnd, len. rewrite Z.gtb_ltb.
      destruct (Z.ltb_spec (Z.of_nat (length sentences)) (Z.of_nat i + 3));
        lia. }
  replace (Z.of_nat i + 1) with (Z.of_nat (i + 1)) by lia.
  rewrite !slice_window; [reflexivity| |].
  - unfold ctxEnd, len. lia.
  - unfold ctxStart. lia.
Qed.

Lemma first_match (quote : gostring) (l : list gostring) :
  (exists s, In s l /\ Substring quote s) ->
  exists pre s post,
    l = pre ++ s :: post /\
    Forall (fun x => Strings.Contains x quote = false) pre /\
    Strings.Contains s quote = true.
Proof.
  induction l as [|x l IH]; intros [s [Hin Hs]]; [destruct Hin|].
  destruct (Strings.Contains x quote) eqn:E.
  - exists [], x, l. repeat split; auto.
  - destruct Hin as [->|Hin].
    + apply Contains_spec in Hs. congruence.
    + destruct IH as [pre [s' [post [-> [Hpre Hs']]]]]; [eauto|].
      exists (x :: pre), s', post. repeat split; auto.
Qed.

(** C1: when some sentence contains the quote, the verifier returns the
    quote for the first such sentence, at index [i]: the context before
    is [sentences[max(0,i-2):i]] and the context after is
    [sentences[i+1:min(len,i+3)]], each joined by one space.  The two
    windows lie strictly before and strictly after the matched sentence,
    so neither holds it; at [i = 0] the context before is empty and at
    the last index the context after is empty. *)
Theorem verify_first_match_context
  (sentences : list gostring) (quote author : gostring) :
  (exists s, In s sentences /\ Substring quote s) ->
  exists i s,
    nth_error sentences i = Some s /\ Substring quote s /\
    (forall j s', (j < i)%nat -> nth_error sentences j = Some s' ->
                  ~ Substring quote s') /\
    verifyAndExtractContext sentences quote author =
      Some (mkQuote quote author
              (Strings.Join (window sentences (ctxStart i) i) (str " "))
              (Strings.Join (window sentences (i + 1) (ctxEnd sentences i))
                 (str " ")), true) /\
    sentences = firstn (ctxStart i) sentences
                ++ window sentences (ctxStart i) i
                ++ s :: window sentences (i + 1) (ctxEnd sentences i)
                ++ skipn (ctxEnd sentences i) sentences /\
    (i = 0%nat -> window sentences (ctxStart i) i = []) /\
    (S i = length sentences ->
     window sentences (i + 1) (ctxEnd sentences i) = []).
Proof.
  intros H. destruct (first_match quote sentences H)
    as [pre [s [post [E [Hpre Hs]]]]].
  exists (length pre), s.
  assert (Hn : nth_error sentences (length pre) = Some s).
  { rewrite E, nth_error_app2, Nat.sub_diag by lia. reflexivity. }
  assert (Hlen : (length pre < length sentences)%nat).
  { rewrite E, length_app. simpl. lia. }
  split; [exact Hn|]. split; [apply Contains_spec; exact Hs|].
  split; [|split; [|split; [|split]]].
  - intros j s' Hj Hj' Hsub. apply Contains_spec in Hsub.
    rewrite E, nth_error_app1 in Hj' by exact Hj.
    apply nth_error_In in Hj'.
    rewrite Forall_forall in Hpre. rewrite (Hpre _ Hj') in Hsub.
    discriminate.
  - unfold verifyAndExtractContext.
    rewrite E at 2. rewrite verifyLoop_skip by exact Hpre.
    apply verifyLoop_hit; assumption.
  - unfold window, ctxStart, ctxEnd, len.
    set (i := length pre) in *. set (n := length sentences) in *.
    assert (Hs1 : skipn i sentences = s :: skipn (i + 1) sentences).
    { subst i. rewrite E. rewrite skipn_app, Nat.sub_diag.
      rewrite skipn_all2 by lia. simpl.
      rewrite skipn_app. rewrite skipn_all2 by lia.
      replace (length pre + 1 - length pre)%nat with 1%nat by lia.
      reflexivity. }
    set (a := Z.to_nat (Z.max 0 (Z.of_nat i - 2))).
    set (b := Z.to_nat (Z.min (Z.of_nat n) (Z.of_nat i + 3))).
    assert (Ha : (a <= i)%nat) by (subst a; lia).
    assert (Hb : (i + 1 <= b <= n)%nat) by (subst b; lia).
    rewrite <- (firstn_skipn a sentences) at 1. f_equal.
    rewrite <- (firstn_skipn (i - a) (skipn a sentences)) at 1. f_equal.
    rewrite skipn_skipn. replace (i - a + a)%nat with i by lia.
    rewrite Hs1. f_equal.
    rewrite <- (firstn_skipn (b - (i + 1)) (skipn (i + 1) sentences)) at 1.
    f_equal. rewrite skipn_skipn. f_equal. lia.
  - intros Hi. unfold window. rewrite Hi. reflexivity.
  - intros Hi. unfold window, ctxEnd, len.
    replace (Z.to_nat (Z.min (Z.of_nat (length sentences))
                         (Z.of_nat (length pre) + 3)) - (length pre + 1))%nat
      with 0%nat by lia.
    reflexivity.
Qed.

(** C5: when no sentence contains the quote, the verifier returns the
    zero [Quote] with [false]; it does not panic. *)
Theorem verify_not_found
  (sentences : list gostring) (quote author : gostring) :
  (forall s, In s sentences -> ~ Substring quote s) ->
  verifyAndExtractContext sentences quote author = Some (zeroQuote, false).
Proof.
  intros H. unfold verifyAndExtractContext.
  rewrite <- (app_nil_r sentences) at 2.
  rewrite verifyLoop_skip; [reflexivity|].
  apply Forall_forall. intros s Hs.
  destruct (Strings.Contains s quote) eqn:E; [|reflexivity].
  apply Contains_spec in E. destruct (H s Hs E).
Qed.

(** ** The sentence splitter *)

Example split_abbreviation :
  splitSentences (str "т.е. далее") = [str "т.е."; str "далее"].
Proof. vm_compute. reflexivity. Qed.

Example split_plain :
  splitSentences (str "Раз. Два! Три? Четыре") =
  [str "Раз."; str "Два!"; str "Три?"; str "Четыре"].
Proof. vm_compute. reflexivity. Qed.

Example split_invalid_byte :
  splitSentences [xff] = [[xef; xbf; xbd]].
Proof. vm_compute. reflexivity. Qed.

Example trim_unicode :
  Strings.TrimSpace (str "  　да — нет.  ") = str "да — нет.".
Proof. vm_compute. reflexivity. Qed.

(** ** The CSV files *)

Example csv_roundtrip_example :
  readQuotesFromCSV
    (appendToCSV initCSV
       [mkQuote (str "Он сказал: " ++ [x22] ++ str "да; нет" ++ [x22])
                (str "А. Б.") (str " до") [];
        mkQuote (str "x") (str "y") (str "z") (str "w")]) =
  Ok [mkQuote (str "Он сказал: " ++ [x22] ++ str "да, нет" ++ [x22])
              (str "А. Б.") (str " до") [];
      mkQuote (str "x") (str "y") (str "z") (str "w")].
Proof. vm_compute. reflexivity. Qed.

Example csv_empty_file : readQuotesFromCSV [] = Panic.
Proof. vm_compute. reflexivity. Qed.

Example csv_short_row :
  Csv.ReadAll (str "a;b;c;d
x;y
") = Failed ErrFieldCount.
Proof. vm_compute. reflexivity. Qed.

Example csv_empty_fields :
  Csv.ReadAll (str ";;;
") = Ok [[[]; []; []; []]].
Proof. vm_compute. reflexivity. Qed.

Example csv_multiline_field :
  Csv.ReadAll (Csv.Write [str "a
b"; str " c"; [x0d]; [x22; x3b]]) =
  Ok [[str "a
b"; str " c"; [x0d]; [x22; x3b]]].
Proof. vm_compute. reflexivity. Qed.

Example outputFile_txt : outputFile (str "book.txt") = str "book.csv".
Proof. vm_compute. reflexivity. Qed.

Example outputFile_md : outputFile (str "book.md") = str "book.md.csv".
Proof. vm_compute. reflexivity. Qed.

(** ** Bytes and bit operations *)

Lemma b2z_range (b : byte) : 0 <= b2z b < 256.
Proof.
  unfold b2z. pose proof (Byte.to_N_bounded b). lia.
Qed.

Lemma z2b_b2z (b : byte) : z2b (b2z b) = b.
Proof.
  unfold z2b. pose proof (b2z_range b).
  rewrite Z.mod_small by lia. unfold b2z.
  rewrite N2Z.id, Byte.of_to_N. reflexivity.
Qed.

Lemma b2z_z2b (z : Z) : b2z (z2b z) = z mod 256.
Proof.
  unfold z2b, b2z.
  assert (H : 0 <= z mod 256 < 256) by (apply Z.mod_pos_bound; lia).
  destruct (Byte.of_N (Z.to_N (z mod 256))) as [b|] eqn:E.
  - apply Byte.to_of_N in E. rewrite E. lia.
  - apply Byte.of_N_None_iff in E. lia.
Qed.

Lemma b2z_inj (a b : byte) : b2z a = b2z b -> a = b.
Proof.
  intros H. rewrite <- (z2b_b2z a), <- (z2b_b2z b), H. reflexivity.
Qed.

Lemma b2z_eqb (a b : byte) : (b2z a =? b2z b) = Byte.eqb a b.
Proof.
  destruct (Byte.eqb a b) eqn:E.
  - apply byte_eqb_eq in E. subst. apply Z.eqb_refl.
  - apply Z.eqb_neq. intros H. apply b2z_inj in H. subst.
    rewrite (proj2 (byte_eqb_eq b b) eq_refl) in E. discriminate.
Qed.

Lemma lor_disjoint (a b k : Z) :
  0 <= k -> a mod 2 ^ k = 0 -> 0 <= b < 2 ^ k -> Z.lor a b = a + b.
Proof.
  intros Hk Ha Hb.
  assert (Hl : Z.land a b = 0).
  { rewrite <- (Z.mod_small b (2 ^ k)) by lia.
    rewrite <- (Z.land_ones b k) by lia.
    rewrite (Z.land_comm b), Z.land_assoc, (Z.land_ones a k) by lia.
    rewrite Ha. apply Z.land_0_l. }
  pose proof (Z.add_lor_land a b). lia.
Qed.

Lemma land_mask (a k : Z) : 0 <= k -> Z.land a (2 ^ k - 1) = a mod 2 ^ k.
Proof.
  intros Hk. rewrite <- (Z.land_ones a k) by lia.
  f_equal. rewrite Z.ones_equiv. lia.
Qed.

(** ** UTF-8: the value of a decoded rune and the bytes of an encoded one *)

Ltac zdm := Z.div_mod_to_equations; lia.

Lemma rune2_arith (c0 c1 : Z) :
  Z.lor (Z.shiftl (Z.land c0 Utf8.mask2) 6) (Z.land c1 Utf8.maskx)
  = (c0 mod 32) * 64 + c1 mod 64.
Proof.
  change Utf8.mask2 with (2 ^ 5 - 1). change Utf8.maskx with (2 ^ 6 - 1).
  rewrite !land_mask, Z.shiftl_mul_pow2 by lia.
  apply (lor_disjoint _ _ 6); [lia| apply Z.mod_mul; lia |].
  apply Z.mod_pos_bound; lia.
Qed.

Lemma rune3_arith (c0 c1 c2 : Z) :
  Z.lor (Z.lor (Z.shiftl (Z.land c0 Utf8.mask3) 12)
               (Z.shiftl (Z.land c1 Utf8.maskx) 6))
        (Z.land c2 Utf8.maskx)
  = (c0 mod 16) * 4096 + (c1 mod 64) * 64 + c2 mod 64.
Proof.
  change Utf8.mask3 with (2 ^ 4 - 1). change Utf8.maskx with (2 ^ 6 - 1).
  rewrite !land_mask, !Z.shiftl_mul_pow2 by lia.
  change (2 ^ 4) with 16. change (2 ^ 6) with 64. change (2 ^ 12) with 4096.
  rewrite (lor_disjoint (_ * 4096) (_ * 64) 12);
    [|lia| apply (Z.mod_mul _ 4096); lia | change (2 ^ 12) with 4096; zdm].
  apply (lor_disjoint _ _ 6); change (2 ^ 6) with 64; [lia|zdm|zdm].
Qed.

Lemma rune4_arith (c0 c1 c2 c3 : Z) :
  Z.lor (Z.lor (Z.lor (Z.shiftl (Z.land c0 Utf8.mask4) 18)
                      (Z.shiftl (Z.land c1 Utf8.maskx) 12))
               (Z.shiftl (Z.land c2 Utf8.maskx) 6))
        (Z.land c3 Utf8.maskx)
  = (c0 mod 8) * 262144 + (c1 mod 64) * 4096 + (c2 mod 64) * 64
    + c3 mod 64.
Proof.
  change Utf8.mask4 with (2 ^ 3 - 1). change Utf8.maskx with (2 ^ 6 - 1).
  rewrite !land_mask, !Z.shiftl_mul_pow2 by lia.
  change (2 ^ 3) with 8. change (2 ^ 6) with 64. change (2 ^ 12) with 4096.
  change (2 ^ 18) with 262144.
  rewrite (lor_disjoint (_ * 262144) (_ * 4096) 18);
    [|lia| apply (Z.mod_mul _ 262144); lia
     | change (2 ^ 18) with 262144; zdm].
  rewrite (lor_disjoint (_ + _) (_ * 64) 12);
    [|lia| change (2 ^ 12) with 4096; zdm | change (2 ^ 12) with 4096; zdm].
  apply (lor_disjoint _ _ 6); change (2 ^ 6) with 64; [lia|zdm|zdm].
Qed.

Lemma enc_cont (x : Z) :
  Z.lor Utf8.tx (Z.land (b2z (z2b x)) Utf8.maskx) = 128 + x mod 64.
Proof.
  change Utf8.maskx with (2 ^ 6 - 1).
  rewrite b2z_z2b, land_mask by lia.
  rewrite (lor_disjoint _ _ 7); [|lia|reflexivity|].
  - unfold Utf8.tx. change (2 ^ 6) with 64. zdm.
  - change (2 ^ 6) with 64. change (2 ^ 7) with 128. zdm.
Qed.

Lemma enc_lead (t x k : Z) :
  0 <= k -> t mod 2 ^ k = 0 -> 0 <= x < 2 ^ k -> 2 ^ k <= 256 ->
  Z.lor t (b2z (z2b x)) = t + x.
Proof.
  intros Hk Ht Hx Hb. rewrite b2z_z2b, Z.mod_small by lia.
  apply (lor_disjoint _ _ k); assumption.
Qed.

Lemma isCont_range (b : byte) :
  Utf8.isCont b = true <-> 128 <= b2z b <= 191.
Proof.
  unfold Utf8.isCont, Utf8.locb, Utf8.hicb.
  rewrite andb_true_iff, !Z.leb_le. reflexivity.
Qed.

Lemma EncodeRune_1 (b : byte) :
  b2z b < 128 -> Utf8.EncodeRune (b2z b) = [b].
Proof.
  intros H. pose proof (b2z_range b). unfold Utf8.EncodeRune.
  rewrite Z.mod_small by lia. unfold Utf8.rune1Max.
  destruct (Z.leb_spec (b2z b) 127); [|lia].
  rewrite z2b_b2z. reflexivity.
Qed.

Lemma EncodeRune_2 (b0 b1 : byte) (r : Z) :
  192 <= b2z b0 < 224 -> 128 <= b2z b1 <= 191 ->
  r = (b2z b0 mod 32) * 64 + b2z b1 mod 64 -> 127 < r ->
  Utf8.EncodeRune r = [b0; b1].
Proof.
  intros H0 H1 Hr Hlo. unfold Utf8.EncodeRune.
  assert (Hr' : r = (b2z b0 - 192) * 64 + (b2z b1 - 128)) by zdm.
  rewrite Z.mod_small by lia. unfold Utf8.rune1Max, Utf8.rune2Max.
  destruct (Z.leb_spec r 127); [lia|].
  destruct (Z.leb_spec r 2047); [|lia].
  rewrite Z.shiftr_div_pow2 by lia. change (2 ^ 6) with 64.
  rewrite (enc_lead Utf8.t2 _ 6), enc_cont;
    [|lia|reflexivity|change (2 ^ 6) with 64; zdm|change (2 ^ 6) with 64; lia].
  unfold Utf8.t2.
  replace (192 + r / 64) with (b2z b0) by zdm.
  replace (128 + r mod 64) with (b2z b1) by zdm.
  rewrite !z2b_b2z. reflexivity.
Qed.

Lemma EncodeRune_3 (b0 b1 b2 : byte) (r : Z) :
  224 <= b2z b0 < 240 -> 128 <= b2z b1 <= 191 -> 128 <= b2z b2 <= 191 ->
  r = (b2z b0 mod 16) * 4096 + (b2z b1 mod 64) * 64 + b2z b2 mod 64 ->
  2047 < r -> ~ (55296 <= r <= 57343) ->
  Utf8.EncodeRune r = [b0; b1; b2].
Proof.
  intros H0 H1 H2 Hr Hlo Hsur. unfold Utf8.EncodeRune.
  assert (Hr' : r = (b2z b0 - 224) * 4096 + (b2z b1 - 128) * 64
                    + (b2z b2 - 128)) by zdm.
  rewrite Z.mod_small by lia.
  unfold Utf8.rune1Max, Utf8.rune2Max, Utf8.rune3Max, Utf8.MaxRune,
    Utf8.surrogateMin, Utf8.surrogateMax.
  destruct (Z.leb_spec r 127); [lia|].
  destruct (Z.leb_spec r 2047); [lia|].
  destruct (Z.ltb_spec 1114111 r); [lia|].
  replace ((55296 <=? r) && (r <=? 57343)) with false
    by (symmetry; apply andb_false_iff; rewrite !Z.leb_gt; lia).
  cbn [orb]. destruct (Z.leb_spec r 65535); [|lia].
  rewrite !Z.shiftr_div_pow2 by lia.
  change (2 ^ 6) with 64. change (2 ^ 12) with 4096.
  rewrite (enc_lead Utf8.t3 _ 4), !enc_cont;
    [|lia|reflexivity|change (2 ^ 4) with 16; zdm|change (2 ^ 4) with 16; lia].
  unfold Utf8.t3.
  replace (224 + r / 4096) with (b2z b0) by zdm.
  replace (128 + (r / 64) mod 64) with (b2z b1) by zdm.
  replace (128 + r mod 64) with (b2z b2) by zdm.
  rewrite !z2b_b2z. reflexivity.
Qed.

Lemma EncodeRune_4 (b0 b1 b2 b3 : byte) (r : Z) :
  240 <= b2z b0 < 248 -> 128 <= b2z b1 <= 191 -> 128 <= b2z b2 <= 191 ->
  128 <= b2z b3 <= 191 ->
  r = (b2z b0 mod 8) * 262144 + (b2z b1 mod 64) * 4096
      + (b2z b2 mod 64) * 64 + b2z b3 mod 64 ->
  65535 < r -> r <= 1114111 ->
  Utf8.EncodeRune r = [b0; b1; b2; b3].
Proof.
  intros H0 H1 H2 H3 Hr Hlo Hhi. unfold Utf8.EncodeRune.
  assert (Hr' : r = (b2z b0 - 240) * 262144 + (b2z b1 - 128) * 4096
                    + (b2z b2 - 128) * 64 + (b2z b3 - 128)) by zdm.
  rewrite Z.mod_small by lia.
  unfold Utf8.rune1Max, Utf8.rune2Max, Utf8.rune3Max, Utf8.MaxRune,
    Utf8.surrogateMin, Utf8.surrogateMax.
  destruct (Z.leb_spec r 127); [lia|].
  destruct (Z.leb_spec r 2047); [lia|].
  destruct (Z.ltb_spec 1114111 r); [lia|].
  replace ((55296 <=? r) && (r <=? 57343)) with false
    by (symmetry; apply andb_false_iff; rewrite !Z.leb_gt; lia).
  cbn [orb]. destruct (Z.leb_spec r 65535); [lia|].
  rewrite !Z.shiftr_div_pow2 by lia.
  change (2 ^ 6) with 64. change (2 ^ 12) with 4096.
  change (2 ^ 18) with 262144.
  rewrite (enc_lead Utf8.t4 _ 3), !enc_cont;
    [|lia|reflexivity|change (2 ^ 3) with 8; zdm|change (2 ^ 3) with 8; lia].
  unfold Utf8.t4.
  replace (240 + r / 262144) with (b2z b0) by zdm.
  replace (128 + (r / 4096) mod 64) with (b2z b1) by zdm.
  replace (128 + (r / 64) mod 64) with (b2z b2) by zdm.
  replace (128 + r mod 64) with (b2z b3) by zdm.
  rewrite !z2b_b2z. reflexivity.
Qed.

Ltac lead_case :=
  match goal with
  | |- context [(?lo <=? ?c) && (?c <? ?hi)] =>
      let H := fresh "L" in
      destruct ((lo <=? c) && (c <? hi)) eqn:H;
      [ apply andb_true_iff in H; rewrite Z.leb_le, Z.ltb_lt in H
      | apply andb_false_iff in H; rewrite Z.leb_gt, Z.ltb_ge in H ]
  end.

Lemma DecodeRune_decodes (b0 : byte) (s1 : gostring) (r w : Z) :
  Utf8.DecodeRune (b0 :: s1) = (r, w) -> decodes (b0 :: s1) r w.
Proof.
  unfold Utf8.DecodeRune.
  unfold Utf8.RuneSelf, Utf8.t2, Utf8.t3, Utf8.t4, Utf8.t5,
    Utf8.rune1Max, Utf8.rune2Max, Utf8.rune3Max, Utf8.MaxRune,
    Utf8.surrogateMin, Utf8.surrogateMax.
  pose proof (b2z_range b0) as R0.
  destruct (Z.ltb_spec (b2z b0) 128) as [A|A].
  { intros [= <- <-]. apply dec_ascii; lia. }
  assert (Err : forall r w, (Utf8.RuneError, 1) = (r, w) ->
                            decodes (b0 :: s1) r w).
  { intros ? ? [= <- <-]. apply dec_error; lia. }
  lead_case.
  { destruct s1 as [|b1 s2]; [now apply Err|].
    destruct (Utf8.isCont b1) eqn:K1; [|now apply Err].
    apply isCont_range in K1. rewrite rune2_arith.
    match goal with |- context [?x <? ?y] =>
      destruct (Z.ltb_spec x y) end; [|now apply Err].
    intros [= <- <-]. apply dec_two; auto; lia. }
  lead_case.
  { destruct s1 as [|b1 [|b2 s3]]; try (now apply Err).
    destruct (Utf8.isCont b1) eqn:K1; [|now apply Err].
    destruct (Utf8.isCont b2) eqn:K2; [|now apply Err].
    apply isCont_range in K1, K2. cbn [andb]. rewrite rune3_arith.
    set (r3 := _ + _ + _ mod 64).
    destruct (Z.ltb_spec 2047 r3); [|now apply Err].
    destruct (Z.leb_spec 55296 r3); destruct (Z.leb_spec r3 57343);
      cbn [andb negb]; try (now apply Err);
      intros [= <- <-]; apply dec_three; auto; lia. }
  lead_case; [|now apply Err].
  destruct s1 as [|b1 [|b2 [|b3 s4]]]; try (now apply Err).
  destruct (Utf8.isCont b1) eqn:K1; [|now apply Err].
  destruct (Utf8.isCont b2) eqn:K2; [|now apply Err].
  destruct (Utf8.isCont b3) eqn:K3; [|now apply Err].
  apply isCont_range in K1, K2, K3. cbn [andb]. rewrite rune4_arith.
  set (r4 := _ + _ + _ + _ mod 64).
  destruct (Z.ltb_spec 65535 r4); [|now apply Err].
  destruct (Z.leb_spec r4 1114111); cbn [andb]; [|now apply Err].
  intros [= <- <-]. apply dec_four; auto; lia.
Qed.

Lemma decodes_width (s : gostring) (r w : Z) :
  decodes s r w -> 1 <= w <= 4 /\ w <= len s.
Proof.
  intros H; destruct H; unfold len; cbn [length]; lia.
Qed.

(** Encoding the decoded rune gives back the bytes it was read from,
    unless an ill-formed byte was read as [RuneError]. *)
Lemma decodes_encode (s : gostring) (r w : Z) :
  decodes s r w ->
  Utf8.EncodeRune r = firstn (Z.to_nat w) s \/
  (w = 1 /\ r = Utf8.RuneError).
Proof.
  intros H; destruct H.
  - left. now apply EncodeRune_1.
  - right. auto.
  - left. now apply EncodeRune_2.
  - left. now apply EncodeRune_3.
  - left. now apply EncodeRune_4.
Qed.

Lemma DecodeRune_ascii (b : byte) (s : gostring) :
  b2z b < 128 -> Utf8.DecodeRune (b :: s) = (b2z b, 1).
Proof.
  intros H. unfold Utf8.DecodeRune, Utf8.RuneSelf.
  destruct (Z.ltb_spec (b2z b) 128); [reflexivity|lia].
Qed.

Ltac decode_start :=
  unfold Utf8.DecodeRune;
  unfold Utf8.RuneSelf, Utf8.t2, Utf8.t3, Utf8.t4, Utf8.t5,
    Utf8.rune1Max, Utf8.rune2Max, Utf8.rune3Max, Utf8.MaxRune,
    Utf8.surrogateMin, Utf8.surrogateMax.

Ltac decide_cmp :=
  repeat match goal with
  | |- context [?x <? ?y] =>
      first [ replace (x <? y) with true by (symmetry; apply Z.ltb_lt; lia)
            | replace (x <? y) with false by (symmetry; apply Z.ltb_ge; lia) ]
  | |- context [?x <=? ?y] =>
      first [ replace (x <=? y) with true by (symmetry; apply Z.leb_le; lia)
            | replace (x <=? y) with false by (symmetry; apply Z.leb_gt; lia) ]
  end.

Lemma DecodeRune_two (b0 b1 : byte) (s : gostring) (r : Z) :
  192 <= b2z b0 < 224 -> 128 <= b2z b1 <= 191 ->
  r = (b2z b0 mod 32) * 64 + b2z b1 mod 64 -> 127 < r ->
  Utf8.DecodeRune (b0 :: b1 :: s) = (r, 2).
Proof.
  intros H0 H1 Hr Hlo. decode_start.
  rewrite (proj2 (isCont_range b1) H1), rune2_arith, <- Hr.
  decide_cmp. reflexivity.
Qed.

Lemma DecodeRune_three (b0 b1 b2 : byte) (s : gostring) (r : Z) :
  224 <= b2z b0 < 240 -> 128 <= b2z b1 <= 191 -> 128 <= b2z b2 <= 191 ->
  r = (b2z b0 mod 16) * 4096 + (b2z b1 mod 64) * 64 + b2z b2 mod 64 ->
  2047 < r -> ~ (55296 <= r <= 57343) ->
  Utf8.DecodeRune (b0 :: b1 :: b2 :: s) = (r, 3).
Proof.
  intros H0 H1 H2 Hr Hlo Hsur. decode_start.
  rewrite (proj2 (isCont_range b1) H1), (proj2 (isCont_range b2) H2),
    rune3_arith, <- Hr.
  replace ((55296 <=? r) && (r <=? 57343)) with false
    by (symmetry; apply andb_false_iff; rewrite !Z.leb_gt; lia).
  decide_cmp. reflexivity.
Qed.

Lemma DecodeRune_four (b0 b1 b2 b3 : byte) (s : gostring) (r : Z) :
  240 <= b2z b0 < 248 -> 128 <= b2z b1 <= 191 -> 128 <= b2z b2 <= 191 ->
  128 <= b2z b3 <= 191 ->
  r = (b2z b0 mod 8) * 262144 + (b2z b1 mod 64) * 4096
      + (b2z b2 mod 64) * 64 + b2z b3 mod 64 ->
  65535 < r -> r <= 1114111 ->
  Utf8.DecodeRune (b0 :: b1 :: b2 :: b3 :: s) = (r, 4).
Proof.
  intros H0 H1 H2 H3 Hr Hlo Hhi. decode_start.
  rewrite (proj2 (isCont_range b1) H1), (proj2 (isCont_range b2) H2),
    (proj2 (isCont_range b3) H3), rune4_arith, <- Hr.
  decide_cmp. reflexivity.
Qed.

(** ** The [range] over a string *)

Lemma rangeFrom_step (fuel : nat) (i : Z) (b : byte) (s : gostring) (r w : Z) :
  Utf8.DecodeRune (b :: s) = (r, w) ->
  Utf8.rangeFrom (S fuel) i (b :: s) =
  (i, r) :: Utf8.rangeFrom fuel (i + w) (skipn (Z.to_nat w) (b :: s)).
Proof.
  intros H. cbn [Utf8.rangeFrom]. rewrite H. reflexivity.
Qed.

Lemma firstInfo_spec (c size lo hi : Z) :
  firstInfo c = Some (size, lo, hi) ->
  (size = 2 /\ lo = 128 /\ hi = 191 /\ 194 <= c <= 223) \/
  (size = 3 /\ lo = 160 /\ hi = 191 /\ c = 224) \/
  (size = 3 /\ lo = 128 /\ hi = 191 /\ (225 <= c <= 236 \/ 238 <= c <= 239)) \/
  (size = 3 /\ lo = 128 /\ hi = 159 /\ c = 237) \/
  (size = 4 /\ lo = 144 /\ hi = 191 /\ c = 240) \/
  (size = 4 /\ lo = 128 /\ hi = 191 /\ 241 <= c <= 243) \/
  (size = 4 /\ lo = 128 /\ hi = 143 /\ c = 244).
Proof.
  unfold firstInfo.
  repeat match goal with
  | |- (if ?t then _ else _) = _ -> _ => destruct t eqn:?
  end; intros [= <- <- <-];
  repeat match goal with
  | H : _ = false |- _ => clear H
  | H : _ && _ = true |- _ => apply andb_true_iff in H; destruct H
  | H : (_ <=? _) = true |- _ => apply Z.leb_le in H
  | H : (_ =? _) = true |- _ => apply Z.eqb_eq in H
  end; lia.
Qed.

(** One turn of the [range] loop over a valid string reads a whole
    sequence and leaves a valid string. *)
Lemma ValidString_step (b0 : byte) (s1 : gostring) :
  ValidString (b0 :: s1) = true ->
  exists r w,
    Utf8.DecodeRune (b0 :: s1) = (r, w) /\ 1 <= w <= 4 /\
    Utf8.EncodeRune r = firstn (Z.to_nat w) (b0 :: s1) /\
    ValidString (skipn (Z.to_nat w) (b0 :: s1)) = true.
Proof.
  cbn [ValidString]. unfold Utf8.RuneSelf.
  destruct (Z.ltb_spec (b2z b0) 128) as [A|A].
  { intros V. exists (b2z b0), 1. rewrite DecodeRune_ascii by lia.
    rewrite EncodeRune_1 by lia. auto with zarith. }
  destruct (firstInfo (b2z b0)) as [[[size lo] hi]|] eqn:F; [|discriminate].
  destruct s1 as [|b1 s2]; [discriminate|].
  pose proof (b2z_range b1) as R1.
  destruct (Z.ltb_spec (b2z b1) lo); [discriminate|].
  destruct (Z.ltb_spec hi (b2z b1)); [discriminate|]. cbn [orb].
  apply firstInfo_spec in F.
  destruct F as [F|[F|[F|[F|[F|[F|F]]]]]];
    destruct F as [-> [-> [-> F]]]; cbn [Z.eqb Pos.eqb].
  1:{ intros V. eexists _, 2.
      rewrite (DecodeRune_two b0 b1 s2 _) by (try reflexivity; zdm).
      rewrite (EncodeRune_2 b0 b1 _) by (try reflexivity; zdm).
      repeat split; auto; lia. }
  1-3: destruct s2 as [|b2 s3]; [discriminate|];
    destruct (Utf8.isCont b2) eqn:K2; [|discriminate]; cbn [negb];
    apply isCont_range in K2; intros V; eexists _, 3;
    rewrite (DecodeRune_three b0 b1 b2 s3 _) by (try reflexivity; zdm);
    rewrite (EncodeRune_3 b0 b1 b2 _) by (try reflexivity; zdm);
    repeat split; auto; lia.
  all: destruct s2 as [|b2 [|b3 s4]]; try discriminate;
    destruct (Utf8.isCont b2) eqn:K2; try discriminate; cbn [negb];
    destruct (Utf8.isCont b3) eqn:K3; try discriminate; cbn [negb];
    apply isCont_range in K2, K3; intros V; eexists _, 4;
    rewrite (DecodeRune_four b0 b1 b2 b3 s4 _) by (try reflexivity; zdm);
    rewrite (EncodeRune_4 b0 b1 b2 b3 _) by (try reflexivity; zdm);
    repeat split; auto; lia.
Qed.


Lemma recode_valid_from (n : nat) :
  forall (s : gostring) (i : Z) (fuel : nat),
    (length s <= n)%nat -> (length s <= fuel)%nat ->
    ValidString s = true ->
    concat (map (fun ir => Utf8.EncodeRune (snd ir))
              (Utf8.rangeFrom fuel i s)) = s.
Proof.
  induction n as [|n IH]; intros s i fuel Hn Hf V.
  - destruct s; [|simpl in Hn; lia]. destruct fuel; reflexivity.
  - destruct s as [|b0 s1]; [destruct fuel; reflexivity|].
    destruct fuel as [|fuel]; [simpl in Hf; lia|].
    destruct (ValidString_step b0 s1 V) as [r [w [D [Hw [E V']]]]].
    rewrite (rangeFrom_step _ _ _ _ _ _ D). cbn [map concat snd].
    cbn [length] in Hn, Hf.
    rewrite E, IH; [apply firstn_skipn| | |exact V'];
      rewrite length_skipn; cbn [length]; lia.
Qed.

(** On valid UTF-8 the runes of a string encode the string itself. *)
Lemma recode_valid (s : gostring) : ValidString s = true -> recode s = s.
Proof.
  intros V. unfold recode, Utf8.range.
  apply (recode_valid_from (length s)); auto.
Qed.

(** Every ASCII byte of a string is one turn of the [range] loop, at
    its own offset. *)
Lemma decodes_tail_not_ascii (s : gostring) (r w : Z) :
  decodes s r w ->
  forall j b, (0 < j < Z.to_nat w)%nat -> nth_error s j = Some b ->
              128 <= b2z b.
Proof.
  intros H j b Hj Hb.
  destruct H;
    change (Z.to_nat 1) with 1%nat in Hj; change (Z.to_nat 2) with 2%nat in Hj;
    change (Z.to_nat 3) with 3%nat in Hj; change (Z.to_nat 4) with 4%nat in Hj;
    (destruct j as [|[|[|[|j]]]]; [lia| | | |lia]); try lia;
    cbn in Hb; injection Hb as <-; lia.
Qed.

Lemma rangeFrom_ascii_at (fuel : nat) :
  forall (s : gostring) (i : Z) (k : nat) (b : byte),
    (length s <= fuel)%nat -> nth_error s k = Some b -> b2z b < 128 ->
    exists before after,
      Utf8.rangeFrom fuel i s =
      before ++ (i + Z.of_nat k, b2z b) :: after.
Proof.
  induction fuel as [|fuel IH]; intros s i k b Hf Hk Hb.
  - destruct s; [destruct k; discriminate|simpl in Hf; lia].
  - destruct s as [|b0 s1]; [destruct k; discriminate|].
    destruct (Utf8.DecodeRune (b0 :: s1)) as [r w] eqn:D.
    rewrite (rangeFrom_step _ _ _ _ _ _ D).
    pose proof (DecodeRune_decodes _ _ _ _ D) as Dec.
    destruct k as [|k].
    + injection Hk as <-. rewrite DecodeRune_ascii in D by exact Hb.
      injection D as <- <-. exists [], (Utf8.rangeFrom fuel (i + 1) s1).
      cbn [app skipn Z.to_nat Pos.to_nat Pos.iter_op Nat.add].
      rewrite Z.add_0_r. reflexivity.
    + destruct (decodes_width _ _ _ Dec) as [Hw Hl].
      assert (Hkw : (Z.to_nat w <= S k)%nat).
      { destruct (Nat.le_gt_cases (Z.to_nat w) (S k)) as [|Hlt]; [assumption|].
        pose proof (decodes_tail_not_ascii _ _ _ Dec (S k) b
                      ltac:(lia) Hk). lia. }
      destruct (IH (skipn (Z.to_nat w) (b0 :: s1)) (i + w)
                  (S k - Z.to_nat w)%nat b) as [before [after E]].
      * rewrite length_skipn. cbn [length] in Hf |- *. lia.
      * rewrite nth_error_skipn.
        replace (Z.to_nat w + (S k - Z.to_nat w))%nat with (S k) by lia.
        exact Hk.
      * exact Hb.
      * exists ((i, r) :: before), after. rewrite E. cbn [app].
        replace (i + w + Z.of_nat (S k - Z.to_nat w))
          with (i + Z.of_nat (S k)) by lia.
        reflexivity.
Qed.

Lemma range_ascii_at (text : gostring) (k : nat) (b : byte) :
  nth_error text k = Some b -> b2z b < 128 ->
  exists before after,
    Utf8.range text = before ++ (Z.of_nat k, b2z b) :: after.
Proof.
  intros Hk Hb.
  destruct (rangeFrom_ascii_at (length text) text 0 k b (le_n _) Hk Hb)
    as [before [after E]].
  exists before, after. exact E.
Qed.

(** ** Trimming: a trimmed string is not trimmed away *)

Lemma IsSpace_RuneError : Unicode.IsSpace Utf8.RuneError = false.
Proof. reflexivity. Qed.

(** A rune that is a space is read whole, and reading it needs no more
    than its own bytes. *)
Lemma decodes_extend (p : gostring) (r w : Z) :
  decodes p r w -> Unicode.IsSpace r = true ->
  forall u, firstn (Z.to_nat w) u = firstn (Z.to_nat w) p ->
            Utf8.DecodeRune u = (r, w).
Proof.
  intros H Hs u E. destruct H.
  - destruct u as [|c u]; [discriminate E|]. cbn in E. injection E as ->.
    apply DecodeRune_ascii. assumption.
  - rewrite IsSpace_RuneError in Hs. discriminate Hs.
  - destruct u as [|c0 [|c1 u]]; try discriminate E.
    cbn in E. injection E as -> ->. now apply DecodeRune_two.
  - destruct u as [|c0 [|c1 [|c2 u]]]; try discriminate E.
    cbn in E. injection E as -> -> ->. now apply DecodeRune_three.
  - destruct u as [|c0 [|c1 [|c2 [|c3 u]]]]; try discriminate E.
    cbn in E. injection E as -> -> -> ->. now apply DecodeRune_four.
Qed.

Lemma DecodeRune_nil : Utf8.DecodeRune [] = (Utf8.RuneError, 0).
Proof. reflexivity. Qed.

Lemma DecodeRune_space_extend (p u : gostring) (r w : Z) :
  Utf8.DecodeRune p = (r, w) -> Unicode.IsSpace r = true ->
  firstn (Z.to_nat w) u = firstn (Z.to_nat w) p ->
  Utf8.DecodeRune u = (r, w).
Proof.
  intros D Hs E. destruct p as [|b p].
  - rewrite DecodeRune_nil in D. injection D as <- <-.
    rewrite IsSpace_RuneError in Hs. discriminate Hs.
  - apply (decodes_extend (b :: p)); auto. now apply DecodeRune_decodes.
Qed.

(** A string that does not start with a space has no prefix that
    does. *)
Lemma firstn_starts_nonspace (u : gostring) (m : nat) :
  Unicode.IsSpace (fst (Utf8.DecodeRune u)) = false ->
  Unicode.IsSpace (fst (Utf8.DecodeRune (firstn m u))) = false.
Proof.
  intros H.
  destruct (Utf8.DecodeRune (firstn m u)) as [r w] eqn:D. cbn [fst].
  destruct (Unicode.IsSpace r) eqn:Hs; [|reflexivity].
  assert (Hw : (Z.to_nat w <= m)%nat).
  { destruct (firstn m u) as [|b p] eqn:F.
    - rewrite DecodeRune_nil in D. injection D as <- <-. cbn. lia.
    - apply DecodeRune_decodes, decodes_width in D as [_ D].
      rewrite <- F in D. unfold len in D. rewrite length_firstn in D. lia. }
  rewrite (DecodeRune_space_extend _ u _ _ D Hs) in H.
  - cbn [fst] in H. congruence.
  - rewrite firstn_firstn. f_equal. lia.
Qed.

Lemma backToStart_le (s : gostring) (lim : Z) (fuel : nat) :
  forall start, Utf8.backToStart s lim fuel start <= start.
Proof.
  induction fuel as [|fuel IH]; intros start; cbn [Utf8.backToStart];
    [lia|].
  destruct (start >=? lim); [|lia].
  destruct (index s start) as [b|]; [|lia].
  destruct (Utf8.RuneStart b); [lia|].
  specialize (IH (start - 1)). lia.
Qed.

Lemma skipn_last_byte (p : gostring) (b : byte) :
  index p (len p - 1) = Some b ->
  skipn (Z.to_nat (len p - 1)) p = [b].
Proof.
  unfold index, len. intros H.
  destruct ((0 <=? Z.of_nat (length p) - 1)
            && (Z.of_nat (length p) - 1 <? Z.of_nat (length p))) eqn:C;
    [|discriminate H].
  apply andb_true_iff in C as [C _]. apply Z.leb_le in C.
  replace (Z.to_nat (Z.of_nat (length p) - 1)) with (length p - 1)%nat
    in * by lia.
  assert (N : nth_error (skipn (length p - 1) p) 0 = Some b)
    by (rewrite nth_error_skipn, Nat.add_0_r; exact H).
  assert (L : length (skipn (length p - 1) p) = 1%nat)
    by (rewrite length_skipn; lia).
  destruct (skipn (length p - 1) p) as [|c [|d l]]; try discriminate L.
  cbn in N. injection N as ->. reflexivity.
Qed.

(** The last rune of a string: its width is within the string, and a
    last rune that is a space is the rune that decoding finds at its
    first byte. *)
Lemma DecodeLastRune_spec (p : gostring) (r size : Z) :
  p <> [] -> Utf8.DecodeLastRune p = (r, size) ->
  1 <= size <= len p /\
  (Unicode.IsSpace r = true ->
   Utf8.DecodeRune (skipn (Z.to_nat (len p - size)) p) = (r, size)).
Proof.
  intros Hne. unfold Utf8.DecodeLastRune.
  assert (Hlen : 1 <= len p)
    by (destruct p; [contradiction|rewrite len_cons;
                     pose proof (len_nonneg p); lia]).
  destruct (Z.eqb_spec (len p) 0); [lia|].
  destruct (index p (len p - 1)) as [b|] eqn:Hb.
  2:{ unfold index in Hb.
      replace ((0 <=? len p - 1) && (len p - 1 <? len p)) with true in Hb
        by (symmetry; rewrite andb_true_iff, Z.leb_le, Z.ltb_lt; lia).
      apply nth_error_None in Hb. unfold len in *. lia. }
  destruct (Z.ltb_spec (b2z b) Utf8.RuneSelf) as [A|A].
  { intros [= <- <-]. split; [lia|]. intros _.
    rewrite (skipn_last_byte _ _ Hb). now apply DecodeRune_ascii. }
  set (lim := if len p - Utf8.UTFMax <? 0 then 0 else len p - Utf8.UTFMax).
  pose proof (backToStart_le p lim 4 (len p - 1 - 1)) as Hle.
  set (start0 := Utf8.backToStart p lim 4 (len p - 1 - 1)) in *.
  set (start := if start0 <? 0 then 0 else start0).
  assert (Hs : 0 <= start < len p)
    by (subst start; destruct (Z.ltb_spec start0 0); lia).
  destruct (Utf8.DecodeRune (skipn (Z.to_nat start) p)) as [r' size'] eqn:D.
  destruct (Z.eqb_spec (start + size') (len p)) as [E|E]; cbn [negb].
  - intros [= <- <-].
    assert (Hw : 1 <= size').
    { destruct (skipn (Z.to_nat start) p) as [|c q] eqn:Sk.
      - apply (f_equal (@length byte)) in Sk. rewrite length_skipn in Sk.
        change (length (@nil byte)) with 0%nat in Sk.
        unfold len in Hs. lia.
      - apply DecodeRune_decodes, decodes_width in D. lia. }
    split; [lia|]. intros _.
    replace (len p - size') with start by lia. exact D.
  - intros [= <- <-]. split; [lia|].
    rewrite IsSpace_RuneError. discriminate.
Qed.

Lemma len_firstn (y : gostring) (e : Z) :
  0 <= e <= len y -> len (firstn (Z.to_nat e) y) = e.
Proof.
  intros H. unfold len in *. rewrite length_firstn. lia.
Qed.

(** Stepping back over trailing spaces stops at a rune of a string
    that does not start with a space. *)
Lemma lastIndexNotFrom_found (y : gostring) :
  Unicode.IsSpace (fst (Utf8.DecodeRune y)) = false ->
  forall (fuel : nat) (e : Z),
    1 <= e <= len y -> e < Z.of_nat fuel ->
    0 <= Strings.lastIndexNotFrom Unicode.IsSpace y fuel e < e.
Proof.
  intros Hy. induction fuel as [|fuel IH]; intros e He Hf; [lia|].
  cbn [Strings.lastIndexNotFrom].
  destruct (Z.gtb_spec e 0); [|lia].
  set (p := firstn (Z.to_nat e) y).
  assert (Hp : len p = e) by (apply len_firstn; lia).
  assert (Hne : p <> []).
  { intros E. rewrite E in Hp. unfold len in Hp. cbn in Hp. lia. }
  destruct (Utf8.DecodeLastRune p) as [r size] eqn:D.
  destruct (DecodeLastRune_spec p r size Hne D) as [Hs Hd].
  rewrite Hp in Hs, Hd.
  destruct (Unicode.IsSpace r) eqn:Sp; cbn [negb]; [|lia].
  specialize (Hd eq_refl).
  assert (Hpos : 1 <= e - size).
  { destruct (Z.le_gt_cases 1 (e - size)) as [|Hlt]; [assumption|].
    exfalso. replace (e - size) with 0 in Hd by lia. cbn [Z.to_nat skipn] in Hd.
    rewrite (DecodeRune_space_extend p y r size Hd Sp) in Hy.
    - cbn [fst] in Hy. congruence.
    - subst p. rewrite firstn_firstn. f_equal. lia. }
  specialize (IH (e - size) ltac:(lia) ltac:(lia)). lia.
Qed.

Lemma TrimRightFunc_firstn (y : gostring) (f : Z -> bool) :
  exists m, Strings.TrimRightFunc y f = firstn m y.
Proof. unfold Strings.TrimRightFunc. eexists. reflexivity. Qed.

Lemma TrimRightFunc_nonempty (y : gostring) :
  y <> [] -> Unicode.IsSpace (fst (Utf8.DecodeRune y)) = false ->
  Strings.TrimRightFunc y Unicode.IsSpace <> [].
Proof.
  intros Hne Hy. unfold Strings.TrimRightFunc, Strings.lastIndexNotFunc.
  assert (Hlen : 1 <= len y)
    by (destruct y; [contradiction|rewrite len_cons;
                     pose proof (len_nonneg y); lia]).
  pose proof (lastIndexNotFrom_found y Hy (S (length y)) (len y)
                ltac:(lia) ltac:(unfold len; lia)) as Hj.
  set (j := Strings.lastIndexNotFrom Unicode.IsSpace y (S (length y)) (len y))
    in *.
  assert (Hi : exists i, 1 <= i /\
    match index y j with
    | Some b =>
        if (0 <=? j) && (Utf8.RuneSelf <=? b2z b)
        then j + snd (Utf8.DecodeRune (skipn (Z.to_nat j) y))
        else j + 1
    | None => j + 1
    end = i).
  { eexists. split; [|reflexivity].
    destruct (index y j) as [b|]; [|lia].
    destruct ((0 <=? j) && (Utf8.RuneSelf <=? b2z b)); [|lia].
    destruct (skipn (Z.to_nat j) y) as [|c q] eqn:Sk.
    - apply (f_equal (@length byte)) in Sk. rewrite length_skipn in Sk.
      change (length (@nil byte)) with 0%nat in Sk.
      unfold len in Hj. lia.
    - destruct (Utf8.DecodeRune (c :: q)) as [r w] eqn:D.
      apply DecodeRune_decodes, decodes_width in D. cbn [snd]. lia. }
  destruct Hi as [i [Hi ->]].
  destruct y as [|c y]; [contradiction|].
  replace (Z.to_nat i) with (S (Z.to_nat (i - 1))) by lia.
  discriminate.
Qed.

Lemma asciiSpace_IsSpace (c : byte) :
  b2z c < 128 -> Unicode.IsSpace (b2z c) = Strings.asciiSpace c.
Proof.
  intros H. pose proof (b2z_range c).
  unfold Unicode.IsSpace, Strings.asciiSpace, Unicode.MaxLatin1.
  rewrite Z.mod_small by lia.
  destruct (Z.leb_spec (b2z c) 255); [|lia].
  destruct (Z.eqb_spec (b2z c) 133); [lia|].
  destruct (Z.eqb_spec (b2z c) 160); [lia|].
  rewrite !orb_false_r. reflexivity.
Qed.

Lemma indexNotFunc_range (f : Z -> bool) (fuel : nat) :
  forall (s : gostring) (off : Z),
    (length s <= fuel)%nat ->
    let i := Strings.indexNotFunc f (Utf8.rangeFrom fuel off s) in
    i = -1 \/
    (off <= i /\
     f (fst (Utf8.DecodeRune (skipn (Z.to_nat (i - off)) s))) = false).
Proof.
  induction fuel as [|fuel IH]; intros s off Hf; cbv zeta.
  - left. reflexivity.
  - destruct s as [|b s]; [left; reflexivity|].
    destruct (Utf8.DecodeRune (b :: s)) as [r w] eqn:D.
    rewrite (rangeFrom_step _ _ _ _ _ _ D). cbn [Strings.indexNotFunc].
    destruct (f r) eqn:F; cbn [negb].
    + pose proof (DecodeRune_decodes _ _ _ _ D) as Dec.
      apply decodes_width in Dec as [Hw Hl].
      destruct (IH (skipn (Z.to_nat w) (b :: s)) (off + w)) as [E|[Hle E]].
      * rewrite length_skipn. cbn [length] in *. lia.
      * left. exact E.
      * right. split; [lia|].
        rewrite skipn_skipn in E.
        replace (Z.to_nat (Strings.indexNotFunc f
                   (Utf8.rangeFrom fuel (off + w)
                      (skipn (Z.to_nat w) (b :: s))) - (off + w))
                 + Z.to_nat w)%nat
          with (Z.to_nat (Strings.indexNotFunc f
                   (Utf8.rangeFrom fuel (off + w)
                      (skipn (Z.to_nat w) (b :: s))) - off)) in E by lia.
        exact E.
    + right. split; [lia|]. rewrite Z.sub_diag. cbn [Z.to_nat skipn].
      rewrite D. exact F.
Qed.

Lemma TrimLeftFunc_starts (s : gostring) :
  Unicode.IsSpace
    (fst (Utf8.DecodeRune (Strings.TrimLeftFunc s Unicode.IsSpace))) = false.
Proof.
  unfold Strings.TrimLeftFunc, Utf8.range.
  destruct (indexNotFunc_range Unicode.IsSpace (length s) s 0 (le_n _))
    as [E|[Hle E]].
  - rewrite E. reflexivity.
  - set (i := Strings.indexNotFunc _ _) in *.
    destruct (Z.eqb_spec i (-1)); [lia|].
    rewrite Z.sub_0_r in E. exact E.
Qed.

Lemma starts_ascii_nonspace (c : byte) (t : gostring) :
  b2z c < 128 -> Strings.asciiSpace c = false ->
  Unicode.IsSpace (fst (Utf8.DecodeRune (c :: t))) = false.
Proof.
  intros H1 H2. rewrite DecodeRune_ascii by exact H1. cbn [fst].
  rewrite asciiSpace_IsSpace by exact H1. exact H2.
Qed.

(** The second loop of [TrimSpace], on a string whose first byte is
    ASCII and no space, keeps a prefix that is not empty. *)
Lemma trimSpaceStop_spec (c : byte) (t : gostring) :
  b2z c < 128 -> Strings.asciiSpace c = false ->
  forall n, (1 <= n <= length (c :: t))%nat ->
    Strings.trimSpaceStop (c :: t) n <> [] /\
    exists m, Strings.trimSpaceStop (c :: t) n = firstn m (c :: t).
Proof.
  intros H1 H2. induction n as [|k IH]; intros Hn; [lia|].
  cbn [Strings.trimSpaceStop].
  destruct (nth_error (c :: t) k) as [d|] eqn:N.
  2:{ apply nth_error_None in N. lia. }
  destruct (Z.leb_spec Utf8.RuneSelf (b2z d)) as [A|A].
  - split.
    + apply TrimRightFunc_nonempty; [discriminate|].
      cbn [firstn]. now apply starts_ascii_nonspace.
    + destruct (TrimRightFunc_firstn (firstn (S k) (c :: t)) Unicode.IsSpace)
        as [m ->].
      rewrite firstn_firstn. eexists. reflexivity.
  - destruct (Strings.asciiSpace d) eqn:Sd.
    + destruct k as [|k].
      * cbn in N. injection N as <-. congruence.
      * apply IH. lia.
    + split; [discriminate|]. eexists. reflexivity.
Qed.

(** What [TrimSpace] returns does not start with a space. *)
Lemma TrimSpace_starts (s : gostring) :
  Unicode.IsSpace (fst (Utf8.DecodeRune (Strings.TrimSpace s))) = false.
Proof.
  induction s as [|c s IH]; [reflexivity|].
  cbn [Strings.TrimSpace].
  destruct (Z.leb_spec Utf8.RuneSelf (b2z c)) as [A|A].
  - unfold Strings.TrimFunc.
    destruct (TrimRightFunc_firstn
                (Strings.TrimLeftFunc (c :: s) Unicode.IsSpace)
                Unicode.IsSpace) as [m ->].
    apply firstn_starts_nonspace, TrimLeftFunc_starts.
  - destruct (Strings.asciiSpace c) eqn:Sc; [exact IH|].
    destruct (trimSpaceStop_spec c s A Sc (length (c :: s))
                ltac:(cbn [length]; lia)) as [_ [m ->]].
    apply firstn_starts_nonspace. now apply starts_ascii_nonspace.
Qed.

Lemma TrimLeftFunc_keep (y : gostring) :
  Unicode.IsSpace (fst (Utf8.DecodeRune y)) = false ->
  Strings.TrimLeftFunc y Unicode.IsSpace = y.
Proof.
  intros H. destruct y as [|c y]; [reflexivity|].
  unfold Strings.TrimLeftFunc, Utf8.range. cbn [length].
  destruct (Utf8.DecodeRune (c :: y)) as [r w] eqn:D.
  rewrite (rangeFrom_step _ _ _ _ _ _ D). cbn [Strings.indexNotFunc].
  cbn [fst] in H. rewrite H. reflexivity.
Qed.

(** A string that is not empty and does not start with a space is not
    trimmed away. *)
Lemma TrimSpace_keeps (y : gostring) :
  y <> [] -> Unicode.IsSpace (fst (Utf8.DecodeRune y)) = false ->
  Strings.TrimSpace y <> [].
Proof.
  intros Hne Hy. destruct y as [|c y]; [contradiction|].
  cbn [Strings.TrimSpace].
  destruct (Z.leb_spec Utf8.RuneSelf (b2z c)) as [A|A].
  - unfold Strings.TrimFunc. rewrite TrimLeftFunc_keep by exact Hy.
    now apply TrimRightFunc_nonempty.
  - assert (Sc : Strings.asciiSpace c = false).
    { rewrite DecodeRune_ascii in Hy by exact A. cbn [fst] in Hy.
      rewrite asciiSpace_IsSpace in Hy by exact A. exact Hy. }
    rewrite Sc.
    apply (trimSpaceStop_spec c y A Sc (length (c :: y))).
    cbn [length]. lia.
Qed.

(** Trimming what was trimmed leaves something whenever the first
    trimming did. *)
Lemma TrimSpace_stable (x : gostring) :
  Strings.TrimSpace x <> [] ->
  Strings.TrimSpace (Strings.TrimSpace x) <> [].
Proof.
  intros H. apply TrimSpace_keeps; [exact H|apply TrimSpace_starts].
Qed.

(** ** The sentence splitter: the turn of one rune *)

Lemma index_nth_error {A} (s : list A) (k : nat) (x : A) :
  nth_error s k = Some x -> index s (Z.of_nat k) = Some x.
Proof.
  intros H. unfold index, len.
  assert (k < length s)%nat by (apply nth_error_Some; congruence).
  replace ((0 <=? Z.of_nat k) && (Z.of_nat k <? Z.of_nat (length s)))
    with true by (symmetry; rewrite andb_true_iff, Z.leb_le, Z.ltb_lt; lia).
  rewrite Nat2Z.id. exact H.
Qed.

Lemma emit_filter (l : list gostring) (s : gostring) :
  emit l s = l ++ filter nonEmpty [s].
Proof.
  destruct s; cbn; [rewrite app_nil_r|]; reflexivity.
Qed.

(** A turn that meets a non-zero counter only adds the rune to the
    buffer. *)
Lemma splitStep_nested (text : gostring) (st : splitState) (i r : Z) :
  parenLevel (splitStep text st (i, r)) <> 0 ->
  splitStep text st (i, r) =
  mkSplit (sentences st) (sb st ++ Utf8.EncodeRune r)
    (parenLevel (splitStep text st (i, r))).
Proof.
  unfold splitStep.
  set (level := if isOpener r then _ else _).
  destruct (isTerminator r); cbn [andb]; [|reflexivity].
  destruct (Z.eqb_spec level 0) as [E|E]; [|reflexivity].
  destruct (_ && _ && _); cbn [parenLevel]; intros H; contradiction.
Qed.

(** The turn of a period whose next byte is neither a space nor a
    newline. *)
Lemma splitStep_period (text : gostring) (st : splitState) (k : nat)
  (c : byte) :
  nth_error text (S k) = Some c -> c <> " "%byte -> c <> x0a ->
  splitStep text st (Z.of_nat k, rune ".") =
  mkSplit (sentences st) (sb st ++ ["."%byte]) (parenLevel st).
Proof.
  intros Hc Hsp Hnl. unfold splitStep.
  change (Utf8.EncodeRune (rune ".")) with ["."%byte].
  change (isOpener (rune ".")) with false.
  change (isCloser (rune ".")) with false.
  change (isTerminator (rune ".")) with true.
  change (rune "." =? rune ".") with true. cbn [andb].
  destruct (parenLevel st =? 0); [|reflexivity].
  assert (Hlen : (S k < length text)%nat)
    by (apply nth_error_Some; congruence).
  replace (Z.of_nat k + 1 <? len text) with true
    by (symmetry; apply Z.ltb_lt; unfold len; lia).
  unfold nextIsNotBlank.
  replace (Z.of_nat k + 1) with (Z.of_nat (S k)) by lia.
  rewrite (index_nth_error _ _ _ Hc). unfold rune.
  rewrite !b2z_eqb.
  destruct (Byte.eqb c " ") eqn:E1;
    [apply byte_eqb_eq in E1; contradiction|].
  destruct (Byte.eqb c x0a) eqn:E2;
    [apply byte_eqb_eq in E2; contradiction|].
  reflexivity.
Qed.

(** C2: a period whose next byte is neither a space nor a newline is
    one turn of the scan, and that turn ends no sentence, at bracket
    depth zero as at any other: the list of sentences is as before the
    turn, the buffer has gained the period and the scan goes on from
    there. *)
Theorem period_before_nonblank_no_split
  (text : gostring) (k : nat) (c : byte) :
  nth_error text k = Some "."%byte ->
  nth_error text (S k) = Some c -> c <> " "%byte -> c <> x0a ->
  exists before after,
    Utf8.range text = before ++ (Z.of_nat k, rune ".") :: after /\
    let st := fold_left (splitStep text) before splitInit in
    let st' := splitStep text st (Z.of_nat k, rune ".") in
    sentences st' = sentences st /\
    sb st' = sb st ++ ["."%byte] /\
    parenLevel st' = parenLevel st /\
    splitScan text = fold_left (splitStep text) after st'.
Proof.
  intros Hk Hc Hsp Hnl.
  destruct (range_ascii_at text k "." Hk) as [before [after E]];
    [vm_compute; reflexivity|].
  exists before, after. split; [exact E|].
  cbv zeta. rewrite (splitStep_period text _ k c Hc Hsp Hnl).
  cbn [sentences sb parenLevel]. repeat split.
  unfold splitScan. rewrite E, fold_left_app. cbn [fold_left].
  rewrite (splitStep_period text _ k c Hc Hsp Hnl). reflexivity.
Qed.

(** ** The sentence splitter: unbalanced brackets *)

Lemma scan_nested (text : gostring) (rs : list (Z * Z)) :
  forall st,
    Forall (fun s => parenLevel s <> 0) (splitTrace text st rs) ->
    sentences (fold_left (splitStep text) rs st) = sentences st /\
    sb (fold_left (splitStep text) rs st) =
    sb st ++ concat (map (fun ir => Utf8.EncodeRune (snd ir)) rs).
Proof.
  induction rs as [|[i r] rs IH]; intros st H.
  - cbn. rewrite app_nil_r. auto.
  - cbn [splitTrace] in H. apply Forall_cons_iff in H as [H1 H2].
    cbn [fold_left map concat snd].
    destruct (IH _ H2) as [Hs Hb]. rewrite Hs, Hb.
    rewrite (splitStep_nested _ _ _ _ H1). cbn [sentences sb].
    rewrite app_assoc. auto.
Qed.

Lemma TrimSpace_nil : Strings.TrimSpace [] = [].
Proof. reflexivity. Qed.

Lemma splitFlush_emit (st : splitState) :
  splitFlush st = emit (sentences st) (Strings.TrimSpace (sb st)).
Proof.
  unfold splitFlush, len. destruct (sb st) as [|b l]; [reflexivity|].
  cbn [length]. destruct (Z.gtb_spec (Z.of_nat (S (length l))) 0);
    [reflexivity|lia].
Qed.

(** C3: from a point of the scan on, let the bracket counter be
    non-zero after every turn.  Then no later turn ends a sentence: the
    scan ends with the sentences it had at that point and with
    everything after it in the buffer, and the only further sentence is
    that buffer, trimmed, when the flush finds it non-empty. *)
Theorem unbalanced_bracket_suppresses_splits
  (text : gostring) (before after : list (Z * Z)) :
  Utf8.range text = before ++ after ->
  Forall (fun s => parenLevel s <> 0)
    (splitTrace text (fold_left (splitStep text) before splitInit) after) ->
  let st := fold_left (splitStep text) before splitInit in
  let rest := sb st ++ concat (map (fun ir => Utf8.EncodeRune (snd ir)) after) in
  sentences (splitScan text) = sentences st /\
  sb (splitScan text) = rest /\
  splitSentences text = emit (sentences st) (Strings.TrimSpace rest).
Proof.
  intros E H st rest.
  destruct (scan_nested text after _ H) as [Hs Hb].
  unfold splitSentences. rewrite splitFlush_emit.
  unfold splitScan. rewrite E, fold_left_app. fold st.
  fold st in Hs, Hb. rewrite Hs, Hb. auto.
Qed.

(** ** The sentence splitter: sentences are trimmed segments *)

Lemma splitStep_cases (text : gostring) (st : splitState) (ir : Z * Z) :
  let st' := splitStep text st ir in
  let seg := sb st ++ Utf8.EncodeRune (snd ir) in
  (sentences st' = sentences st /\ sb st' = seg) \/
  (sentences st' = emit (sentences st) (Strings.TrimSpace seg) /\
   sb st' = []).
Proof.
  destruct ir as [i r]. unfold splitStep. cbn [snd].
  destruct (isTerminator r && _); [|left; auto].
  destruct (_ && _ && _); [left|right]; auto.
Qed.

Lemma scan_segments (text : gostring) (rs : list (Z * Z)) :
  forall st,
  exists segments,
    sentences (fold_left (splitStep text) rs st) =
    sentences st ++ filter nonEmpty (map Strings.TrimSpace segments) /\
    concat segments ++ sb (fold_left (splitStep text) rs st) =
    sb st ++ concat (map (fun ir => Utf8.EncodeRune (snd ir)) rs).
Proof.
  induction rs as [|ir rs IH]; intros st.
  - exists []. cbn. rewrite !app_nil_r. auto.
  - cbn [fold_left map concat].
    destruct (IH (splitStep text st ir)) as [segs [Hs Hb]].
    destruct (splitStep_cases text st ir) as [[Es Eb]|[Es Eb]].
    + exists segs. rewrite Hs, Hb, Es, Eb, app_assoc. auto.
    + exists ((sb st ++ Utf8.EncodeRune (snd ir)) :: segs).
      rewrite Hs, Es, emit_filter. cbn [map filter concat].
      rewrite <- !app_assoc. split.
      * f_equal. destruct (nonEmpty _); reflexivity.
      * rewrite Hb, Eb. reflexivity.
Qed.

Lemma split_segments_recode (text : gostring) :
  exists segments,
    concat segments = recode text /\
    splitSentences text =
    filter nonEmpty (map Strings.TrimSpace segments).
Proof.
  destruct (scan_segments text (Utf8.range text) splitInit)
    as [segs [Hs Hb]].
  exists (segs ++ [sb (splitScan text)]). split.
  - rewrite concat_app. cbn [concat]. rewrite app_nil_r.
    exact Hb.
  - unfold splitSentences. rewrite splitFlush_emit, emit_filter.
    unfold splitScan at 1. rewrite Hs. cbn [sentences app].
    rewrite map_app, filter_app. reflexivity.
Qed.

(** C6, as the code has it: the sentences are, in order, the non-empty
    trimmed pieces of a cutting of the text into consecutive segments,
    where the text is taken rune by rune (a byte that is not part of a
    well-formed UTF-8 sequence counts as U+FFFD); for a text that is
    valid UTF-8 the segments are segments of the text itself.  No
    sentence is empty, none is trimmed away by a further trimming, and
    the empty text has no sentences. *)
Theorem split_sentences_ordered_segments (text : gostring) :
  (exists segments,
     concat segments = recode text /\
     splitSentences text =
     filter nonEmpty (map Strings.TrimSpace segments)) /\
  (ValidString text = true ->
   exists segments,
     concat segments = text /\
     splitSentences text =
     filter nonEmpty (map Strings.TrimSpace segments)) /\
  Forall (fun s => s <> [] /\ Strings.TrimSpace s <> [])
    (splitSentences text) /\
  splitSentences [] = [].
Proof.
  pose proof (split_segments_recode text) as [segs [Hc Hs]].
  split; [exists segs; auto|].
  split; [|split; [|reflexivity]].
  - intros V. exists segs. rewrite (recode_valid text V) in Hc. auto.
  - rewrite Hs. apply Forall_forall. intros s Hin.
    apply filter_In in Hin as [Hin Hne].
    apply in_map_iff in Hin as [seg [<- _]].
    assert (H : Strings.TrimSpace seg <> [])
      by (intros E; rewrite E in Hne; discriminate Hne).
    split; [exact H|apply TrimSpace_stable, H].
Qed.

(** C6 as the specification words it fails on a text that is not valid
    UTF-8: the one sentence of the text made of the byte [0xFF] is the
    three bytes of U+FFFD, which is the trimming of no segment of the
    text. *)
Lemma split_invalid_utf8_not_a_segment :
  ~ (forall text s, In s (splitSentences text) ->
       exists seg, Substring seg text /\ s = Strings.TrimSpace seg).
Proof.
  intros H.
  destruct (H [xff] [xef; xbf; xbd]) as [seg [[pre [post E]] Hs]].
  - vm_compute. auto.
  - destruct pre as [|p pre].
    + destruct seg as [|c seg]; [discriminate Hs|].
      cbn in E. injection E as <- E.
      destruct seg; [vm_compute in Hs; discriminate Hs|discriminate E].
    + cbn in E. injection E as _ E.
      destruct pre; [|discriminate E].
      destruct seg; [discriminate Hs|discriminate E].
Qed.

(** ** The name of the output file *)

Lemma HasSuffix_spec (s suffix : gostring) :
  Strings.HasSuffix s suffix = true <-> exists pre, s = pre ++ suffix.
Proof.
  unfold Strings.HasSuffix. rewrite HasPrefix_spec. split.
  - intros [post E]. exists (rev post).
    rewrite <- (rev_involutive s), E, rev_app_distr, rev_involutive.
    reflexivity.
  - intros [pre ->]. exists (rev pre). apply rev_app_distr.
Qed.

Lemma TrimSuffix_app (stem suffix : gostring) :
  Strings.TrimSuffix (stem ++ suffix) suffix = stem.
Proof.
  unfold Strings.TrimSuffix.
  rewrite (proj2 (HasSuffix_spec (stem ++ suffix) suffix))
    by (exists stem; reflexivity).
  rewrite length_app, Nat.add_sub, firstn_app, Nat.sub_diag, firstn_all.
  cbn. apply app_nil_r.
Qed.

(** C4, as the code has it: a path that ends in [.txt] has that
    extension replaced by [.csv]; any other path, whatever its
    extension, gets [.csv] appended. *)
Theorem outputFile_txt_or_append (filePath : gostring) :
  (forall stem, filePath = stem ++ str ".txt" ->
     outputFile filePath = stem ++ str ".csv" /\
     outputFile filePath = replaceExt filePath (str ".csv")) /\
  (Strings.HasSuffix filePath (str ".txt") = false ->
     outputFile filePath = filePath ++ str ".csv").
Proof.
  unfold outputFile. split.
  - intros stem ->. rewrite TrimSuffix_app. split; [reflexivity|].
    unfold replaceExt, Ext. rewrite rev_app_distr.
    change (extFrom (rev (str ".txt") ++ rev stem) [])
      with (str ".txt").
    rewrite length_app, Nat.add_sub, firstn_app, Nat.sub_diag, firstn_all.
    cbn [firstn]. rewrite app_nil_r. reflexivity.
  - intros H. unfold Strings.TrimSuffix. rewrite H. reflexivity.
Qed.

(** C4 as the specification words it fails: a path whose extension is
    not [.txt] keeps it. *)
Lemma outputFile_keeps_other_extension :
  ~ (forall filePath,
       outputFile filePath = replaceExt filePath (str ".csv")).
Proof.
  intros H. specialize (H (str "book.md")). vm_compute in H.
  discriminate H.
Qed.

(** ** Writing the quotes *)

Lemma ReplaceAll_byte (s : gostring) (old new : byte) :
  Strings.ReplaceAll s [old] [new] =
  map (fun b => if Byte.eqb b old then new else b) s.
Proof.
  unfold Strings.ReplaceAll.
  induction s as [|c s IH]; [reflexivity|].
  cbn [Strings.replaceFrom Strings.HasPrefix map length Nat.sub].
  destruct s; cbn [Strings.HasPrefix]; rewrite andb_true_r;
    destruct (Byte.eqb c old); cbn [app]; rewrite IH; reflexivity.
Qed.

Lemma sanitize_map (f : gostring) : sanitize f = map cleanByte f.
Proof.
  unfold sanitize. change (str ";") with [";"%byte].
  change (str ",") with [","%byte]. change (str " ") with [" "%byte].
  rewrite !ReplaceAll_byte, map_map. apply map_ext. intros b.
  unfold cleanByte. destruct (Byte.eqb b ";") eqn:E; [reflexivity|].
  reflexivity.
Qed.

Lemma cleanByte_not_special (b : byte) :
  cleanByte b <> ";"%byte /\ cleanByte b <> x0a.
Proof.
  unfold cleanByte.
  destruct (Byte.eqb b ";") eqn:E1; [split; discriminate|].
  destruct (Byte.eqb b x0a) eqn:E2; [split; discriminate|].
  split; intros ->; discriminate.
Qed.

Lemma sanitize_clean (f : gostring) : cleanField (sanitize f).
Proof.
  rewrite sanitize_map. unfold cleanField.
  split; intros H; apply in_map_iff in H as [b [Hb _]];
    destruct (cleanByte_not_special b); contradiction.
Qed.

Lemma cleanByte_id (b : byte) :
  b <> ";"%byte -> b <> x0a -> cleanByte b = b.
Proof.
  intros H1 H2. unfold cleanByte.
  destruct (Byte.eqb b ";") eqn:E1;
    [apply byte_eqb_eq in E1; contradiction|].
  destruct (Byte.eqb b x0a) eqn:E2;
    [apply byte_eqb_eq in E2; contradiction|].
  reflexivity.
Qed.

Lemma sanitize_id (f : gostring) : cleanField f -> sanitize f = f.
Proof.
  intros [H1 H2]. rewrite sanitize_map.
  rewrite <- (map_id f) at 2. apply map_ext_in. intros b Hb.
  apply cleanByte_id; intros ->; contradiction.
Qed.

Lemma appendToCSV_concat (quotes : list Quote) :
  forall file,
    appendToCSV file quotes =
    file ++ concat (map (fun q => Csv.Write (quoteRecord q)) quotes).
Proof.
  induction quotes as [|q quotes IH]; intros file; cbn.
  - symmetry. apply app_nil_r.
  - rewrite IH, <- app_assoc. reflexivity.
Qed.

Lemma In_escapeField (b : byte) (f : gostring) :
  In b (Csv.escapeField f) -> b = Csv.quote \/ In b f.
Proof.
  induction f as [|c f IH]; cbn; [auto|].
  destruct (Byte.eqb c Csv.quote) eqn:E; cbn; intuition.
Qed.

Lemma In_writeField (b : byte) (f : gostring) :
  In b (Csv.writeField f) -> b = Csv.quote \/ In b f.
Proof.
  unfold Csv.writeField. destruct (Csv.fieldNeedsQuotes f); [|auto].
  cbn. rewrite in_app_iff. cbn.
  intros [H|[H|[H|[]]]]; auto. apply In_escapeField. exact H.
Qed.

Lemma In_writeFields (b : byte) (record : list gostring) :
  forall n,
    In b (Csv.writeFields n record) ->
    b = Csv.Comma \/ b = Csv.quote \/ exists f, In f record /\ In b f.
Proof.
  induction record as [|f record IH]; intros n; cbn; [intros []|].
  rewrite !in_app_iff. intros [H|[H|H]].
  - destruct n; cbn in H; intuition.
  - apply In_writeField in H as [H|H]; [auto|].
    right; right. exists f. auto.
  - destruct (IH _ H) as [H'|[H'|[g [Hg Hb]]]]; auto.
    right; right. exists g. auto.
Qed.

(** C8: the record written for a quote is its four fields with every
    semicolon turned into a comma and every newline into a space, so
    that the bytes [appendToCSV] adds for it are one line: they end
    with the newline of the record and hold no other. *)
Theorem appendToCSV_sanitizes_fields (file : gostring) (quotes : list Quote) :
  appendToCSV file quotes =
  file ++ concat (map (fun q =>
            Csv.Write [map cleanByte (Text q); map cleanByte (Author q);
                       map cleanByte (ContextBefore q);
                       map cleanByte (ContextAfter q)]) quotes) /\
  (forall q,
     quoteRecord q =
     [map cleanByte (Text q); map cleanByte (Author q);
      map cleanByte (ContextBefore q); map cleanByte (ContextAfter q)] /\
     Forall cleanField (quoteRecord q) /\
     exists line,
       Csv.Write (quoteRecord q) = line ++ [x0a] /\ ~ In x0a line).
Proof.
  split.
  - rewrite appendToCSV_concat. do 2 f_equal. apply map_ext. intros q.
    unfold quoteRecord. rewrite !sanitize_map. reflexivity.
  - intros q. split; [|split].
    + unfold quoteRecord. rewrite !sanitize_map. reflexivity.
    + unfold quoteRecord. repeat constructor; apply sanitize_clean.
    + eexists. split; [reflexivity|].
      intros H. apply In_writeFields in H as [H|[H|[f [Hf Hb]]]];
        try discriminate H.
      cbn in Hf.
      destruct Hf as [<-|[<-|[<-|[<-|[]]]]];
        apply (proj2 (sanitize_clean _)) in Hb; exact Hb.
Qed.

(** ** Reading the quotes back: the header row *)

Lemma quotesOfRows_spec (rows : list (list gostring)) :
  forall quotes,
    quotesOfRows rows quotes =
    quotes ++ map quoteOfRecord (filter (fun r => 4 <=? len r) rows).
Proof.
  induction rows as [|r rows IH]; intros quotes; cbn [quotesOfRows].
  - cbn. symmetry. apply app_nil_r.
  - cbn [filter].
    assert (Hlt : (len r <? 4) = negb (4 <=? len r))
      by (destruct (Z.ltb_spec (len r) 4), (Z.leb_spec 4 (len r));
          (reflexivity || lia)).
    rewrite Hlt. destruct (4 <=? len r) eqn:E; cbn [negb].
    + destruct r as [|f0 [|f1 [|f2 [|f3 r]]]]; try discriminate E.
      rewrite IH. cbn [map]. rewrite <- app_assoc. reflexivity.
    + apply IH.
Qed.

(** C10: when the parse of the file gives one record or more, the
    quotes returned are those of the records after the first that have
    four fields or more, in order; when it gives none, the call runs
    into the slice bounds panic of [records[1:]]. *)
Theorem readQuotes_skips_header_or_panics
  (file : gostring) (records : list (list gostring)) :
  Csv.ReadAll file = Ok records ->
  (records <> [] ->
   readQuotesFromCSV file =
   Ok (map quoteOfRecord (filter (fun r => 4 <=? len r) (tl records)))) /\
  (records = [] -> readQuotesFromCSV file = Panic).
Proof.
  intros H. unfold readQuotesFromCSV. rewrite H. split.
  - intros Hne. destruct records as [|hdr rows]; [contradiction|].
    unfold dropHeader, slice.
    replace ((0 <=? 1) && (1 <=? len (hdr :: rows))
             && (len (hdr :: rows) <=? len (hdr :: rows))) with true.
    2:{ symmetry. rewrite !andb_true_iff, !Z.leb_le.
        rewrite len_cons. pose proof (len_nonneg rows). lia. }
    cbn [skipn Z.to_nat Pos.to_nat Pos.iter_op Nat.add tl].
    rewrite len_cons. replace (len rows + 1 - 1) with (len rows) by lia.
    unfold len at 1. rewrite Nat2Z.id, firstn_all.
    rewrite quotesOfRows_spec. reflexivity.
  - intros ->. reflexivity.
Qed.

(** ** Reading back what the writer wrote: lines *)

Lemma IndexByte_notin (l : gostring) (c : byte) :
  ~ In c l -> Csv.IndexByte l c = -1.
Proof.
  induction l as [|b l IH]; intros H; cbn [Csv.IndexByte]; [reflexivity|].
  destruct (Byte.eqb b c) eqn:E.
  - apply byte_eqb_eq in E. subst. destruct H. left; reflexivity.
  - rewrite IH by (intros H'; apply H; right; exact H'). reflexivity.
Qed.

Lemma IndexByte_app (l r : gostring) (c : byte) :
  ~ In c l -> Csv.IndexByte (l ++ c :: r) c = len l.
Proof.
  induction l as [|b l IH]; intros H; cbn [Csv.IndexByte app].
  - rewrite (proj2 (byte_eqb_eq c c) eq_refl). reflexivity.
  - destruct (Byte.eqb b c) eqn:E.
    + apply byte_eqb_eq in E. subst. destruct H. left; reflexivity.
    + rewrite IH by (intros H'; apply H; right; exact H').
      rewrite len_cons. pose proof (len_nonneg l).
      destruct (Z.ltb_spec (len l) 0); [lia|reflexivity].
Qed.

Lemma readSlice_line (l rest : gostring) :
  ~ In Csv.nl l ->
  Csv.readSlice (l ++ Csv.nl :: rest) = (l ++ [Csv.nl], rest, false).
Proof.
  induction l as [|b l IH]; intros H; cbn [Csv.readSlice app].
  - rewrite (proj2 (byte_eqb_eq Csv.nl Csv.nl) eq_refl). reflexivity.
  - destruct (Byte.eqb b Csv.nl) eqn:E.
    + apply byte_eqb_eq in E. subst. destruct H. left; reflexivity.
    + rewrite IH by (intros H'; apply H; right; exact H'). reflexivity.
Qed.

Lemma readLine_line (l rest : gostring) :
  ~ In Csv.nl l -> endsClean l ->
  Csv.readLine (l ++ Csv.nl :: rest) = (l ++ [Csv.nl], rest, false).
Proof.
  intros Hnl Hcr. unfold Csv.readLine. rewrite readSlice_line by exact Hnl.
  rewrite andb_false_r. rewrite rev_app_distr. cbn [rev app].
  destruct (rev l) as [|b2 front] eqn:E; [reflexivity|].
  destruct (Byte.eqb b2 Csv.cr) eqn:Eb; [|reflexivity].
  apply byte_eqb_eq in Eb. subst b2. exfalso. apply (Hcr (rev front)).
  rewrite <- (rev_involutive l), E. reflexivity.
Qed.

Lemma lengthNL_line (l : gostring) : Csv.lengthNL (l ++ [Csv.nl]) = 1.
Proof.
  unfold Csv.lengthNL. rewrite rev_app_distr. reflexivity.
Qed.

Lemma nextLine_line (fuel : nat) (l rest : gostring) :
  ~ In Csv.nl l -> endsClean l -> l <> [] ->
  Csv.nextLine (S fuel) (l ++ Csv.nl :: rest) =
  Ok (Some (l ++ [Csv.nl], rest)).
Proof.
  intros Hnl Hcr Hne. cbn [Csv.nextLine].
  rewrite readLine_line by assumption.
  rewrite lengthNL_line, len_app.
  destruct l as [|b l]; [contradiction|].
  rewrite len_cons. change (len [Csv.nl]) with 1.
  pose proof (len_nonneg l).
  destruct (Z.eqb_spec (len l + 1 + 1) 1); [lia|reflexivity].
Qed.
(** ** Reading back what the writer wrote: leading spaces *)

Lemma isCont_ascii (a : byte) : b2z a < 128 -> Utf8.isCont a = false.
Proof.
  intros H. destruct (Utf8.isCont a) eqn:E; [|reflexivity].
  apply isCont_range in E. lia.
Qed.

(** The first rune of a string does not depend on what follows an ASCII
    byte. *)
Lemma DecodeRune_app_ascii (f : gostring) (a : byte) (rest : gostring) :
  f <> [] -> b2z a < 128 ->
  Utf8.DecodeRune (f ++ a :: rest) = Utf8.DecodeRune f.
Proof.
  intros Hf Ha. pose proof (isCont_ascii a Ha) as Ka.
  destruct f as [|b0 [|b1 [|b2 [|b3 f]]]]; [contradiction| | | |];
    cbn [app]; unfold Utf8.DecodeRune;
    (destruct (b2z b0 <? Utf8.RuneSelf); [reflexivity|]);
    repeat (lead_case; [|]); rewrite ?Ka, ?andb_false_r; cbn [andb];
    try reflexivity;
    try (destruct rest as [|? [|? ?]]; reflexivity);
    try (destruct (Utf8.isCont b1); cbn [andb]; try reflexivity;
         try (destruct rest as [|? [|? ?]]; reflexivity));
    try (destruct (Utf8.isCont b2); cbn [andb]; reflexivity).
Qed.

Lemma trimLeadingSpace_keep (b : byte) (s : gostring) :
  Unicode.IsSpace (fst (Utf8.DecodeRune (b :: s))) = false ->
  Csv.trimLeadingSpace (b :: s) = b :: s.
Proof.
  intros H. unfold Csv.trimLeadingSpace, Utf8.range. cbn [length].
  destruct (Utf8.DecodeRune (b :: s)) as [r w] eqn:D.
  rewrite (rangeFrom_step _ _ _ _ _ _ D). cbn [Strings.indexNotFunc].
  cbn [fst] in H. rewrite H. reflexivity.
Qed.

Lemma trimLeadingSpace_ascii (b : byte) (s : gostring) :
  b2z b < 128 -> Unicode.IsSpace (b2z b) = false ->
  Csv.trimLeadingSpace (b :: s) = b :: s.
Proof.
  intros H1 H2. apply trimLeadingSpace_keep.
  rewrite DecodeRune_ascii by exact H1. exact H2.
Qed.
(** ** Reading back what the writer wrote: one field *)

Lemma existsb_false {A} (p : A -> bool) (l : list A) :
  existsb p l = false -> forall x, In x l -> p x = false.
Proof.
  intros H x Hx. destruct (p x) eqn:E; [|reflexivity].
  assert (existsb p l = true) by (apply existsb_exists; eauto).
  congruence.
Qed.

(** A field that is written without quotes holds none of the bytes
    that matter to the reader and does not start with a space. *)
Lemma fieldNeedsQuotes_false (f : gostring) :
  Csv.fieldNeedsQuotes f = false -> f <> [] ->
  (forall c, In c f ->
     c <> Csv.nl /\ c <> Csv.cr /\ c <> Csv.quote /\ c <> Csv.Comma) /\
  Unicode.IsSpace (fst (Utf8.DecodeRune f)) = false.
Proof.
  unfold Csv.fieldNeedsQuotes. intros H Hne.
  destruct f as [|b f]; [contradiction|].
  destruct (bytes_eqb (b :: f) (str "\.")); [discriminate|].
  destruct (existsb _ (b :: f)) eqn:E; [discriminate|].
  split; [|exact H]. intros c Hc.
  pose proof (existsb_false _ _ E c Hc) as P. cbv beta in P.
  apply orb_false_iff in P as [P P4]. apply orb_false_iff in P as [P P3].
  apply orb_false_iff in P as [P1 P2].
  repeat split; intros ->;
    rewrite (proj2 (byte_eqb_eq _ _) eq_refl) in *; discriminate.
Qed.

Lemma IndexByte_nonneg_in (l : gostring) (c : byte) :
  In c l -> 0 <= Csv.IndexByte l c.
Proof.
  induction l as [|b l IH]; intros H; [destruct H|].
  cbn [Csv.IndexByte]. destruct (Byte.eqb b c) eqn:E; [lia|].
  destruct H as [->|H];
    [rewrite (proj2 (byte_eqb_eq _ _) eq_refl) in E; discriminate|].
  specialize (IH H).
  destruct (Z.ltb_spec (Csv.IndexByte l c) 0); lia.
Qed.

(** Inside a quoted field, a byte that is not a quote goes to the
    buffer when a quote follows somewhere on the line. *)
Lemma parseQuoted_skip (fuel : nat) (c : byte) (line rest : gostring)
  (fields : list gostring) (buf : gostring) :
  c <> Csv.quote -> In Csv.quote line ->
  Csv.parseQuoted (S fuel) (c :: line) rest fields buf =
  Csv.parseQuoted (S fuel) line rest fields (buf ++ [c]).
Proof.
  intros Hc Hq. pose proof (IndexByte_nonneg_in _ _ Hq) as Hj.
  cbn [Csv.parseQuoted Csv.IndexByte].
  destruct (Byte.eqb c Csv.quote) eqn:E;
    [apply byte_eqb_eq in E; contradiction|].
  set (j := Csv.IndexByte line Csv.quote) in *.
  destruct (Z.ltb_spec j 0); [lia|].
  destruct (Z.geb_spec (j + 1) 0); [|lia].
  destruct (Z.geb_spec j 0); [|lia].
  assert (F : firstn (Z.to_nat (j + 1)) (c :: line) =
              c :: firstn (Z.to_nat j) line)
    by (replace (Z.to_nat (j + 1)) with (S (Z.to_nat j)) by lia;
        reflexivity).
  assert (K : skipn (Z.to_nat (j + 1 + 1)) (c :: line) =
              skipn (Z.to_nat (j + 1)) line)
    by (replace (Z.to_nat (j + 1 + 1)) with (S (Z.to_nat (j + 1))) by lia;
        reflexivity).
  rewrite F, K.
  replace (buf ++ c :: firstn (Z.to_nat j) line)
    with ((buf ++ [c]) ++ firstn (Z.to_nat j) line)
    by (rewrite <- app_assoc; reflexivity).
  reflexivity.
Qed.

Lemma nextRune_ascii (b : byte) (s : gostring) :
  b2z b < 128 -> Csv.nextRune (b :: s) = b2z b.
Proof.
  intros H. unfold Csv.nextRune. rewrite DecodeRune_ascii by exact H.
  reflexivity.
Qed.

(** The turn of the inner loop at a quote. *)
Lemma parseQuoted_at_quote (fuel : nat) (line rest : gostring)
  (fields : list gostring) (buf : gostring) :
  Csv.parseQuoted (S fuel) (Csv.quote :: line) rest fields buf =
  if Csv.nextRune line =? b2z Csv.quote
  then Csv.parseQuoted fuel (skipn 1 line) rest fields (buf ++ [Csv.quote])
  else if Csv.nextRune line =? b2z Csv.Comma
  then Csv.parseField fuel (skipn 1 line) rest (fields ++ [buf])
  else if Csv.lengthNL line =? len line
  then Ok (fields ++ [buf], rest)
  else Failed ErrQuote.
Proof.
  cbn [Csv.parseQuoted Csv.IndexByte].
  change (Byte.eqb Csv.quote Csv.quote) with true. cbv iota.
  change (0 >=? 0) with true. cbv iota.
  change (Z.to_nat 0) with 0%nat. change (Z.to_nat (0 + 1)) with 1%nat.
  change (firstn 0 (Csv.quote :: line)) with (@nil byte).
  change (skipn 1 (Csv.quote :: line)) with line.
  rewrite app_nil_r. reflexivity.
Qed.

(** A quoted field that ends the line. *)
Lemma parseQuoted_last (f : gostring) (rest : gostring)
  (fields : list gostring) :
  forall (buf : gostring) (fuel : nat),
    (length (Csv.escapeField f) < fuel)%nat ->
    Csv.parseQuoted fuel (Csv.escapeField f ++ [Csv.quote; Csv.nl]) rest
      fields buf =
    Ok (fields ++ [buf ++ f], rest).
Proof.
  induction f as [|c f IH]; intros buf fuel Hf.
  - destruct fuel as [|fuel]; [cbn in Hf; lia|].
    cbn [Csv.escapeField app]. rewrite parseQuoted_at_quote.
    rewrite nextRune_ascii by (vm_compute; reflexivity).
    change (b2z Csv.nl =? b2z Csv.quote) with false.
    change (b2z Csv.nl =? b2z Csv.Comma) with false.
    change (Csv.lengthNL [Csv.nl] =? len [Csv.nl]) with true.
    cbv iota. rewrite app_nil_r. reflexivity.
  - cbn [Csv.escapeField] in *.
    destruct fuel as [|fuel]; [lia|].
    destruct (Byte.eqb c Csv.quote) eqn:E.
    + apply byte_eqb_eq in E. subst c. cbn [length] in Hf.
      cbn [app]. rewrite parseQuoted_at_quote.
      rewrite nextRune_ascii by (vm_compute; reflexivity).
      rewrite Z.eqb_refl. cbn [skipn].
      rewrite IH by lia. rewrite <- app_assoc. reflexivity.
    + cbn [app length] in *.
      rewrite parseQuoted_skip.
      * rewrite IH by lia. rewrite <- app_assoc. reflexivity.
      * intros ->. discriminate E.
      * apply in_or_app. right. left. reflexivity.
Qed.

(** A quoted field that a comma follows: the loop goes on to the next
    field with what is left of the fuel. *)
Lemma parseQuoted_more (f : gostring) (after rest : gostring)
  (fields : list gostring) :
  forall (buf : gostring) (fuel : nat),
    (length (Csv.escapeField f) < fuel)%nat ->
    exists fuel',
      (fuel <= fuel' + length (Csv.escapeField f) + 1)%nat /\
      Csv.parseQuoted fuel
        (Csv.escapeField f ++ Csv.quote :: Csv.Comma :: after) rest
        fields buf =
      Csv.parseField fuel' after rest (fields ++ [buf ++ f]).
Proof.
  induction f as [|c f IH]; intros buf fuel Hf.
  - destruct fuel as [|fuel]; [cbn in Hf; lia|].
    exists fuel. split; [cbn; lia|].
    cbn [Csv.escapeField app]. rewrite parseQuoted_at_quote.
    rewrite nextRune_ascii by (vm_compute; reflexivity).
    change (b2z Csv.Comma =? b2z Csv.quote) with false.
    rewrite Z.eqb_refl. cbv iota. cbn [skipn].
    rewrite app_nil_r. reflexivity.
  - cbn [Csv.escapeField] in *.
    destruct fuel as [|fuel]; [lia|].
    destruct (Byte.eqb c Csv.quote) eqn:E.
    + apply byte_eqb_eq in E. subst c. cbn [length] in Hf.
      destruct (IH (buf ++ [Csv.quote]) fuel ltac:(lia)) as [fuel' [Hle Eq]].
      exists fuel'. split; [cbn [length]; lia|].
      cbn [app]. rewrite parseQuoted_at_quote.
      rewrite nextRune_ascii by (vm_compute; reflexivity).
      rewrite Z.eqb_refl. cbn [skipn].
      rewrite Eq, <- app_assoc. reflexivity.
    + cbn [app length] in *.
      destruct (IH (buf ++ [c]) (S fuel) ltac:(lia)) as [fuel' [Hle Eq]].
      exists fuel'. split; [lia|].
      rewrite parseQuoted_skip.
      * rewrite Eq, <- app_assoc. reflexivity.
      * intros ->. discriminate E.
      * apply in_or_app. right. left. reflexivity.
Qed.

(** ** Reading back what the writer wrote: one record *)

Lemma parseField_quoted (fuel : nat) (line rest : gostring)
  (fields : list gostring) :
  Csv.parseField (S fuel) (Csv.quote :: line) rest fields =
  Csv.parseQuoted fuel line rest fields [].
Proof.
  cbn [Csv.parseField].
  rewrite trimLeadingSpace_ascii by (vm_compute; reflexivity).
  reflexivity.
Qed.

(** The turn of the loop at a field without quotes. *)
Lemma parseField_bare (fuel : nat) (line rest : gostring)
  (fields : list gostring) :
  Csv.trimLeadingSpace line = line ->
  (forall l, line <> Csv.quote :: l) ->
  Csv.parseField (S fuel) line rest fields =
  let i := Csv.IndexByte line Csv.Comma in
  let field :=
    if i >=? 0 then firstn (Z.to_nat i) line
    else firstn (Z.to_nat (len line - Csv.lengthNL line)) line in
  if Csv.IndexByte field Csv.quote >=? 0 then Failed ErrBareQuote
  else if i >=? 0
  then Csv.parseField fuel (skipn (Z.to_nat (i + 1)) line) rest
         (fields ++ [field])
  else Ok (fields ++ [field], rest).
Proof.
  intros Ht Hq. cbn [Csv.parseField]. rewrite Ht.
  destruct line as [|b line]; [reflexivity|].
  destruct (Byte.eqb b Csv.quote) eqn:E; [|reflexivity].
  apply byte_eqb_eq in E. subst b. destruct (Hq line eq_refl).
Qed.

Lemma firstn_len_app {A} (l r : list A) :
  firstn (Z.to_nat (len l)) (l ++ r) = l.
Proof.
  unfold len. rewrite Nat2Z.id, firstn_app, Nat.sub_diag, firstn_all.
  cbn. apply app_nil_r.
Qed.

Lemma skipn_len_app {A} (l : list A) (x : A) (r : list A) :
  skipn (Z.to_nat (len l + 1)) (l ++ x :: r) = r.
Proof.
  unfold len. replace (Z.to_nat (Z.of_nat (length l) + 1))
    with (length l + 1)%nat by lia.
  rewrite skipn_app, skipn_all2 by lia.
  replace (length l + 1 - length l)%nat with 1%nat by lia. reflexivity.
Qed.

Lemma parseField_bare_more (fuel : nat) (f after rest : gostring)
  (fields : list gostring) :
  Csv.trimLeadingSpace (f ++ Csv.Comma :: after) = f ++ Csv.Comma :: after ->
  ~ In Csv.Comma f -> ~ In Csv.quote f ->
  Csv.parseField (S fuel) (f ++ Csv.Comma :: after) rest fields =
  Csv.parseField fuel after rest (fields ++ [f]).
Proof.
  intros Ht Hc Hq. rewrite parseField_bare; [|exact Ht|].
  - cbv zeta. rewrite IndexByte_app by exact Hc.
    pose proof (len_nonneg f).
    destruct (Z.geb_spec (len f) 0); [|lia].
    rewrite firstn_len_app, skipn_len_app.
    rewrite IndexByte_notin by exact Hq. reflexivity.
  - intros l E. destruct f as [|b f]; [discriminate E|].
    injection E as -> _. apply Hq. left; reflexivity.
Qed.

Lemma parseField_bare_last (fuel : nat) (f rest : gostring)
  (fields : list gostring) :
  Csv.trimLeadingSpace (f ++ [Csv.nl]) = f ++ [Csv.nl] ->
  ~ In Csv.Comma f -> ~ In Csv.quote f ->
  Csv.parseField (S fuel) (f ++ [Csv.nl]) rest fields =
  Ok (fields ++ [f], rest).
Proof.
  intros Ht Hc Hq. rewrite parseField_bare; [|exact Ht|].
  - cbv zeta. rewrite (IndexByte_notin (f ++ [Csv.nl]) Csv.Comma).
    2:{ intros H. apply in_app_or in H as [H|[H|[]]];
          [contradiction|discriminate H]. }
    change (-1 >=? 0) with false. cbv iota.
    rewrite lengthNL_line, len_app. change (len [Csv.nl]) with 1.
    replace (len f + 1 - 1) with (len f) by lia.
    rewrite firstn_len_app.
    rewrite IndexByte_notin by exact Hq. reflexivity.
  - intros l E. destruct f as [|b f]; [discriminate E|].
    injection E as -> _. apply Hq. left; reflexivity.
Qed.

Lemma parseField_empty_last (fuel : nat) (rest : gostring)
  (fields : list gostring) :
  Csv.parseField (S fuel) [Csv.nl] rest fields = Ok (fields ++ [[]], rest).
Proof. reflexivity. Qed.

Lemma unquoted_bytes (f : gostring) :
  Csv.fieldNeedsQuotes f = false ->
  ~ In Csv.Comma f /\ ~ In Csv.quote f /\ ~ In Csv.cr f /\ ~ In Csv.nl f.
Proof.
  intros H. destruct f as [|b f]; [cbn; tauto|].
  destruct (fieldNeedsQuotes_false _ H ltac:(discriminate)) as [Hb _].
  repeat split; intros Hin; destruct (Hb _ Hin) as [? [? [? ?]]];
    congruence.
Qed.

Lemma unquoted_trim (f : gostring) (a : byte) (after : gostring) :
  Csv.fieldNeedsQuotes f = false ->
  b2z a < 128 -> (f = [] -> Unicode.IsSpace (b2z a) = false) ->
  Csv.trimLeadingSpace (f ++ a :: after) = f ++ a :: after.
Proof.
  intros H Ha Hsp. destruct f as [|b f].
  - apply trimLeadingSpace_ascii; auto.
  - destruct (fieldNeedsQuotes_false _ H ltac:(discriminate)) as [_ Hs].
    cbn [app]. apply trimLeadingSpace_keep.
    change (b :: f ++ a :: after) with ((b :: f) ++ a :: after).
    rewrite DecodeRune_app_ascii by (auto; discriminate). exact Hs.
Qed.

Lemma writeTail_cons (g : gostring) (record : list gostring) :
  writeTail (g :: record) =
  Csv.Comma :: Csv.writeField g ++ writeTail record.
Proof. reflexivity. Qed.

Ltac list_len H :=
  repeat first [rewrite length_app in H | progress cbn [length] in H].

(** The loop [parseField] reads a written record back, field by
    field. *)
Lemma parseField_written (record : list gostring) :
  forall (f : gostring) (fields : list gostring) (fuel : nat)
         (rest : gostring),
    (length (Csv.writeField f ++ writeTail record ++ [Csv.nl]) < fuel)%nat ->
    Csv.parseField fuel (Csv.writeField f ++ writeTail record ++ [Csv.nl])
      rest fields =
    Ok (fields ++ f :: record, rest).
Proof.
  induction record as [|g record IH]; intros f fields fuel rest Hf;
    (destruct fuel as [|fuel]; [lia|]);
    unfold Csv.writeField in Hf |- * at 1;
    destruct (Csv.fieldNeedsQuotes f) eqn:Q.
  - (* a quoted last field *)
    cbn [writeTail map concat app] in *.
    rewrite <- app_assoc in *. cbn [app] in *.
    rewrite parseField_quoted.
    rewrite parseQuoted_last; [reflexivity|].
    list_len Hf. lia.
  - (* an unquoted last field *)
    cbn [writeTail map concat app] in *.
    destruct (unquoted_bytes f Q) as [Hc [Hq _]].
    destruct f as [|b f]; [apply parseField_empty_last|].
    apply parseField_bare_last; auto.
    apply unquoted_trim; [exact Q|vm_compute; reflexivity|discriminate].
  - (* a quoted field before another *)
    rewrite writeTail_cons in *.
    cbn [app] in *. rewrite <- app_assoc in *. cbn [app] in *.
    rewrite parseField_quoted.
    list_len Hf. rewrite <- !app_assoc. cbn [app].
    destruct (parseQuoted_more f
                (Csv.writeField g ++ writeTail record ++ [Csv.nl])
                rest fields [] fuel ltac:(lia)) as [fuel' [Hle E]].
    rewrite E. cbn [app]. rewrite IH.
    + rewrite <- app_assoc. reflexivity.
    + rewrite !length_app. cbn [length]. lia.
  - (* an unquoted field before another *)
    rewrite writeTail_cons in *.
    destruct (unquoted_bytes f Q) as [Hc [Hq _]].
    cbn [app] in *.
    list_len Hf.
    rewrite parseField_bare_more; auto.
    + rewrite <- !app_assoc.
      rewrite IH; [rewrite <- app_assoc; reflexivity|].
      rewrite !length_app. cbn [length]. lia.
    + apply unquoted_trim; [exact Q|vm_compute; reflexivity|].
      intros _. vm_compute. reflexivity.
Qed.

(** ** Reading back what the writer wrote: the bytes of a record *)

Lemma writeFields_tail (record : list gostring) :
  forall n, Csv.writeFields (S n) record = writeTail record.
Proof.
  induction record as [|g record IH]; intros n; [reflexivity|].
  cbn [Csv.writeFields]. rewrite IH, writeTail_cons. reflexivity.
Qed.

Lemma Write_cons (f : gostring) (record : list gostring) :
  Csv.Write (f :: record) =
  (Csv.writeField f ++ writeTail record) ++ [Csv.nl].
Proof.
  unfold Csv.Write. cbn [Csv.writeFields app].
  rewrite writeFields_tail. reflexivity.
Qed.

Lemma endsClean_last (l : gostring) (c : byte) :
  c <> Csv.cr -> endsClean (l ++ [c]).
Proof.
  intros Hc front E. apply app_inj_tail in E as [_ E]. contradiction.
Qed.

Lemma endsClean_app (l w : gostring) :
  w <> [] -> endsClean w -> endsClean (l ++ w).
Proof.
  intros Hne Hw front E.
  destruct (exists_last Hne) as [w' [c ->]].
  rewrite app_assoc in E. apply app_inj_tail in E as [_ ->].
  apply (Hw w'). reflexivity.
Qed.

Lemma endsClean_writeField (g : gostring) : endsClean (Csv.writeField g).
Proof.
  unfold Csv.writeField. destruct (Csv.fieldNeedsQuotes g) eqn:Q.
  - change (Csv.quote :: Csv.escapeField g ++ [Csv.quote])
      with ((Csv.quote :: Csv.escapeField g) ++ [Csv.quote]).
    apply endsClean_last. discriminate.
  - destruct (unquoted_bytes g Q) as [_ [_ [Hcr _]]].
    intros front ->. apply Hcr, in_or_app. right. left. reflexivity.
Qed.

Lemma endsClean_tail (record : list gostring) :
  record <> [] -> forall l, endsClean (l ++ writeTail record).
Proof.
  induction record as [|g record IH]; intros Hne l; [contradiction|].
  rewrite writeTail_cons.
  destruct record as [|h record].
  - cbn [writeTail map concat]. rewrite app_nil_r.
    destruct (Csv.writeField g) as [|b w] eqn:W.
    + apply endsClean_last. discriminate.
    + change (l ++ Csv.Comma :: b :: w) with (l ++ [Csv.Comma] ++ b :: w).
      rewrite app_assoc. apply endsClean_app; [discriminate|].
      rewrite <- W. apply endsClean_writeField.
  - change (l ++ Csv.Comma :: Csv.writeField g ++ writeTail (h :: record))
      with (l ++ (Csv.Comma :: Csv.writeField g) ++ writeTail (h :: record)).
    rewrite app_assoc. apply IH. discriminate.
Qed.

Lemma writeTail_fields (b : byte) (record : list gostring) :
  In b (writeTail record) ->
  b = Csv.Comma \/ b = Csv.quote \/ exists f, In f record /\ In b f.
Proof.
  rewrite <- (writeFields_tail record 0). apply In_writeFields.
Qed.

Lemma body_no_newline (f : gostring) (record : list gostring) :
  Forall (fun f => ~ In Csv.nl f) (f :: record) ->
  ~ In Csv.nl (Csv.writeField f ++ writeTail record).
Proof.
  intros H Hin. rewrite Forall_forall in H.
  apply in_app_or in Hin as [Hin|Hin].
  - apply In_writeField in Hin as [Hin|Hin]; [discriminate Hin|].
    apply (H f); [left; reflexivity|exact Hin].
  - apply writeTail_fields in Hin as [Hin|[Hin|[g [Hg Hin]]]];
      try discriminate Hin.
    apply (H g); [right; exact Hg|exact Hin].
Qed.

(** [readRecord] reads back a written record of two fields or more and
    leaves the rest of the input. *)
Lemma readRecord_written (n : nat) (record : list gostring)
  (rest : gostring) (fuel : nat) (fieldsPerRecord : Z) :
  (2 <= n)%nat -> plainRecord n record ->
  (length (Csv.Write record) < fuel)%nat ->
  fieldsPerRecord = 0 \/ fieldsPerRecord = Z.of_nat n ->
  Csv.readRecord fuel (Csv.Write record ++ rest) fieldsPerRecord =
  Ok (Some (record, rest, Z.of_nat n)).
Proof.
  intros Hn [Hlen Hnl] Hf Hfpr.
  destruct record as [|f [|g record]]; cbn [length] in Hlen; try lia.
  rewrite Write_cons in *. set (tail := g :: record) in *.
  destruct fuel as [|fuel]; [lia|].
  unfold Csv.readRecord. rewrite <- app_assoc. cbn [app].
  rewrite nextLine_line.
  - rewrite <- app_assoc, parseField_written
      by (rewrite <- app_assoc in Hf; exact Hf).
    cbn [app].
    assert (Hl : len (f :: tail) = Z.of_nat n)
      by (unfold len; subst tail; cbn [length]; rewrite Hlen; reflexivity).
    rewrite Hl. destruct Hfpr as [->| ->].
    + change (0 >? 0) with false. change (0 =? 0) with true. reflexivity.
    + destruct (Z.gtb_spec (Z.of_nat n) 0); [|lia].
      rewrite Z.eqb_refl. reflexivity.
  - apply body_no_newline. exact Hnl.
  - apply endsClean_tail. discriminate.
  - subst tail. rewrite writeTail_cons. intros E.
    apply app_eq_nil in E as [_ E]. discriminate E.
Qed.

Lemma Write_length (record : list gostring) :
  (1 <= length (Csv.Write record))%nat.
Proof.
  unfold Csv.Write. rewrite length_app. cbn [length]. lia.
Qed.

Lemma readAllFrom_written (n : nat) (records : list (list gostring)) :
  (2 <= n)%nat -> Forall (plainRecord n) records ->
  forall (fuel : nat) (read : list (list gostring)),
    (length records < fuel)%nat ->
    Csv.readAllFrom fuel (concat (map Csv.Write records)) (Z.of_nat n) read =
    Ok (read ++ records).
Proof.
  intros Hn H. induction H as [|r records Hr _ IH]; intros fuel read Hf;
    (destruct fuel as [|fuel]; [lia|]).
  - cbn. rewrite app_nil_r. reflexivity.
  - cbn [map concat Csv.readAllFrom].
    rewrite (readRecord_written n r); auto.
    + rewrite IH by (cbn [length] in Hf; lia).
      rewrite <- app_assoc. reflexivity.
    + rewrite length_app. lia.
Qed.

(** [ReadAll] reads back the records that were written one after the
    other, when they all have the same number of fields. *)
Lemma ReadAll_written (n : nat) (records : list (list gostring)) :
  (2 <= n)%nat -> Forall (plainRecord n) records ->
  Csv.ReadAll (concat (map Csv.Write records)) = Ok records.
Proof.
  intros Hn H. unfold Csv.ReadAll.
  destruct records as [|r records].
  - reflexivity.
  - apply Forall_cons_iff in H as [Hr H].
    cbn [map concat Csv.readAllFrom].
    rewrite (readRecord_written n r); auto.
    + apply (readAllFrom_written n records Hn H).
      rewrite length_app. pose proof (Write_length r).
      assert (length records <= length (concat (map Csv.Write records)))%nat.
      { clear. induction records as [|x l IHl]; [cbn; lia|].
        cbn [map concat length]. rewrite length_app.
        pose proof (Write_length x). lia. }
      lia.
    + rewrite length_app. lia.
Qed.

(** ** The round trip through the file *)

Lemma notIn_check (c : byte) (l : gostring) :
  forallb (fun b => negb (Byte.eqb b c)) l = true -> ~ In c l.
Proof.
  intros H Hin. rewrite forallb_forall in H. specialize (H _ Hin).
  rewrite (proj2 (byte_eqb_eq _ _) eq_refl) in H. discriminate H.
Qed.

Lemma headerRecord_plain : plainRecord 4 headerRecord.
Proof.
  split; [reflexivity|].
  repeat constructor; apply notIn_check; vm_compute; reflexivity.
Qed.

Lemma initCSV_header : initCSV = Csv.Write headerRecord.
Proof. vm_compute. reflexivity. Qed.

Lemma quoteRecord_plain (q : Quote) : plainRecord 4 (quoteRecord q).
Proof.
  split; [reflexivity|].
  unfold quoteRecord. repeat constructor; apply sanitize_clean.
Qed.

(** What is read back is what was handed to the writer: the quotes with
    their fields sanitised, in order. *)
Lemma csv_round_trip_sanitized (quotes : list Quote) :
  readQuotesFromCSV (appendToCSV initCSV quotes) =
  Ok (map sanitizeQuote quotes).
Proof.
  rewrite appendToCSV_concat, initCSV_header.
  replace (map (fun q => Csv.Write (quoteRecord q)) quotes)
    with (map Csv.Write (map quoteRecord quotes))
    by (rewrite map_map; reflexivity).
  unfold readQuotesFromCSV.
  change (Csv.Write headerRecord
          ++ concat (map Csv.Write (map quoteRecord quotes)))
    with (concat (map Csv.Write (headerRecord :: map quoteRecord quotes))).
  rewrite (ReadAll_written 4); [|lia|].
  2:{ constructor; [apply headerRecord_plain|].
      apply Forall_forall. intros r Hr.
      apply in_map_iff in Hr as [q [<- _]]. apply quoteRecord_plain. }
  unfold dropHeader, slice.
  replace ((0 <=? 1)
           && (1 <=? len (headerRecord :: map quoteRecord quotes))
           && (len (headerRecord :: map quoteRecord quotes)
               <=? len (headerRecord :: map quoteRecord quotes)))
    with true.
  2:{ symmetry. rewrite !andb_true_iff, !Z.leb_le, len_cons.
      pose proof (len_nonneg (map quoteRecord quotes)). lia. }
  rewrite len_cons.
  replace (len (map quoteRecord quotes) + 1 - 1)
    with (len (map quoteRecord quotes)) by lia.
  change (skipn (Z.to_nat 1) (headerRecord :: map quoteRecord quotes))
    with (map quoteRecord quotes).
  unfold len. rewrite Nat2Z.id, firstn_all, quotesOfRows_spec.
  cbn [app]. f_equal.
  induction quotes as [|q quotes IH]; [reflexivity|].
  cbn [map filter]. change (4 <=? len (quoteRecord q)) with true.
  cbn [map]. rewrite IH. reflexivity.
Qed.

(** C9: quotes whose fields hold neither a semicolon nor a newline,
    appended to the file that [initCSV] starts with its header row,
    are read back by [readQuotesFromCSV] as they were: the same four
    fields, in order. *)
Theorem csv_round_trip (quotes : list Quote) :
  Forall cleanQuote quotes ->
  readQuotesFromCSV (appendToCSV initCSV quotes) = Ok quotes.
Proof.
  intros H. rewrite csv_round_trip_sanitized. f_equal.
  rewrite <- (map_id quotes) at 2. apply map_ext_in. intros q Hq.
  rewrite Forall_forall in H. destruct (H q Hq) as [H1 [H2 [H3 H4]]].
  unfold sanitizeQuote. rewrite !sanitize_id by assumption.
  destruct q; reflexivity.
Qed.

(** ** The reader always comes to an end *)

Lemma readSlice_length (input : gostring) :
  forall line rest eof,
    Csv.readSlice input = (line, rest, eof) ->
    length input = (length line + length rest)%nat /\
    (eof = false -> line <> []) /\ (eof = true -> rest = []).
Proof.
  induction input as [|b input IH]; intros line rest eof; cbn [Csv.readSlice].
  - intros [= <- <- <-]. repeat split; (reflexivity || discriminate).
  - destruct (Byte.eqb b Csv.nl).
    + intros [= <- <- <-]. repeat split; (reflexivity || discriminate).
    + destruct (Csv.readSlice input) as [[line' rest'] eof'].
      intros [= <- <- <-].
      destruct (IH line' rest' eof' eq_refl) as [H1 [H2 H3]].
      cbn [length]. repeat split; [lia|discriminate|exact H3].
Qed.

Lemma readLine_length (input : gostring) :
  forall line rest eof,
    Csv.readLine input = (line, rest, eof) ->
    (length line + length rest <= length input)%nat /\
    (eof = false -> length rest < length input)%nat.
Proof.
  intros line rest eof. unfold Csv.readLine.
  destruct (Csv.readSlice input) as [[line0 rest0] eof0] eqn:R.
  destruct (readSlice_length input _ _ _ R) as [H1 [H2 H3]].
  set (p := if (len line0 >? 0) && eof0 then _ else _).
  assert (Hp : (length (fst p) <= length line0)%nat /\
               (snd p = false -> line0 <> [])).
  { subst p. destruct ((len line0 >? 0) && eof0) eqn:C.
    - apply andb_true_iff in C as [C _]. split.
      + cbn [fst]. destruct (rev line0) as [|b front] eqn:E; [lia|].
        destruct (Byte.eqb b Csv.cr); [|lia].
        rewrite length_rev. apply (f_equal (@length byte)) in E.
        rewrite length_rev in E. cbn [length] in E. lia.
      + intros _ ->. discriminate C.
    - cbn [fst snd]. split; [lia|]. exact H2. }
  destruct p as [line1 eof1]. cbn [fst snd] in Hp. destruct Hp as [Hl Hn].
  set (q := match rev line1 with
            | b1 :: b2 :: front => _
            | _ => line1
            end).
  assert (Hq : (length q <= length line1)%nat).
  { subst q. destruct (rev line1) as [|b1 [|b2 front]] eqn:E; try lia.
    destruct (Byte.eqb b2 Csv.cr && Byte.eqb b1 Csv.nl); [|lia].
    rewrite length_app, length_rev. apply (f_equal (@length byte)) in E.
    rewrite length_rev in E. cbn [length] in *. lia. }
  intros [= <- <- <-]. split; [lia|].
  intros E. specialize (Hn E). destruct line0; [contradiction|].
  cbn [length] in H1. lia.
Qed.

Lemma trimLeadingSpace_length (line : gostring) :
  (length (Csv.trimLeadingSpace line) <= length line)%nat.
Proof.
  unfold Csv.trimLeadingSpace. rewrite length_skipn. lia.
Qed.

Lemma IndexByte_lt (l : gostring) (c : byte) :
  Csv.IndexByte l c < len l \/ l = [].
Proof.
  induction l as [|b l IH]; [right; reflexivity|left].
  cbn [Csv.IndexByte]. rewrite len_cons. pose proof (len_nonneg l).
  destruct (Byte.eqb b c); [lia|].
  destruct (Z.ltb_spec (Csv.IndexByte l c) 0); [lia|].
  destruct IH as [IH| ->]; [lia|]. cbn in *. lia.
Qed.

Lemma skipn_found_length (l : gostring) (c : byte) :
  0 <= Csv.IndexByte l c ->
  (length (skipn (Z.to_nat (Csv.IndexByte l c + 1)) l) < length l)%nat.
Proof.
  intros H. rewrite length_skipn.
  destruct (IndexByte_lt l c) as [Hlt| ->]; [|cbn in H; lia].
  unfold len in Hlt. lia.
Qed.

(** The two loops of a record end before their fuel does, and leave no
    more of the input than they were given. *)
Lemma parse_fuel (fuel : nat) :
  (forall line rest fields,
     (length line + length rest < fuel)%nat ->
     match Csv.parseField fuel line rest fields with
     | OutOfFuel | Panic => False
     | Ok (_, rest') => (length rest' <= length rest)%nat
     | _ => True
     end) /\
  (forall line rest fields buf,
     (length line + length rest < fuel)%nat ->
     match Csv.parseQuoted fuel line rest fields buf with
     | OutOfFuel | Panic => False
     | Ok (_, rest') => (length rest' <= length rest)%nat
     | _ => True
     end).
Proof.
  induction fuel as [|fuel [IHf IHq]]; [split; intros; lia|]. split.
  - intros line rest fields Hf. cbn [Csv.parseField].
    pose proof (trimLeadingSpace_length line) as Ht.
    set (line1 := Csv.trimLeadingSpace line) in *.
    assert (Bare :
      match
        (let i := Csv.IndexByte line1 Csv.Comma in
         let field :=
           if i >=? 0 then firstn (Z.to_nat i) line1
           else firstn (Z.to_nat (len line1 - Csv.lengthNL line1)) line1 in
         if Csv.IndexByte field Csv.quote >=? 0 then Failed ErrBareQuote
         else if i >=? 0
         then Csv.parseField fuel (skipn (Z.to_nat (i + 1)) line1) rest
                (fields ++ [field])
         else Ok (fields ++ [field], rest))
      with
      | OutOfFuel | Panic => False
      | Ok (_, rest') => (length rest' <= length rest)%nat
      | _ => True
      end).
    { cbv zeta. destruct (Csv.IndexByte _ Csv.quote >=? 0); [exact I|].
      destruct (Z.geb_spec (Csv.IndexByte line1 Csv.Comma) 0) as [G|G];
        [|lia].
      apply IHf. pose proof (skipn_found_length line1 Csv.Comma G). lia. }
    destruct line1 as [|b line2] eqn:E; [exact Bare|].
    destruct (Byte.eqb b Csv.quote); [|exact Bare].
    apply IHq. cbn [length] in Ht. lia.
  - intros line rest fields buf Hf. cbn [Csv.parseQuoted].
    destruct (Z.geb_spec (Csv.IndexByte line Csv.quote) 0) as [G|G].
    + pose proof (skipn_found_length line Csv.quote G) as Hs.
      set (line1 := skipn _ line) in *.
      assert (Hk : (length (skipn 1 line1) <= length line1)%nat)
        by (rewrite length_skipn; lia).
      destruct (Csv.nextRune line1 =? b2z Csv.quote); [apply IHq; lia|].
      destruct (Csv.nextRune line1 =? b2z Csv.Comma); [apply IHf; lia|].
      destruct (Csv.lengthNL line1 =? len line1); [lia|exact I].
    + destruct (Z.gtb_spec (len line) 0) as [P|P]; [|exact I].
      destruct (Csv.readLine rest) as [[line' rest'] eof'] eqn:R.
      destruct (readLine_length rest _ _ _ R) as [H1 _].
      assert (Hl : (1 <= length line)%nat) by (unfold len in P; lia).
      specialize (IHq line' rest' fields (buf ++ line) ltac:(lia)).
      destruct (Csv.parseQuoted fuel line' rest' fields (buf ++ line))
        as [[fs rest'']| | |]; auto. lia.
Qed.

Lemma nextLine_fuel (fuel : nat) :
  forall input,
    (length input < fuel)%nat ->
    match Csv.nextLine fuel input with
    | OutOfFuel | Panic => False
    | Ok (Some (line, rest)) =>
        (length line + length rest <= length input)%nat /\
        (length rest < length input)%nat
    | _ => True
    end.
Proof.
  induction fuel as [|fuel IH]; intros input Hf; [lia|].
  cbn [Csv.nextLine].
  destruct (Csv.readLine input) as [[line rest] eof] eqn:R.
  destruct (readLine_length input _ _ _ R) as [H1 H2].
  destruct eof; [exact I|]. specialize (H2 eq_refl).
  destruct (len line =? Csv.lengthNL line); [|lia].
  specialize (IH rest ltac:(lia)).
  destruct (Csv.nextLine fuel rest) as [[[line' rest']|]| | |]; auto. lia.
Qed.

Lemma readRecord_fuel (input : gostring) (fieldsPerRecord : Z) :
  match Csv.readRecord (S (length input)) input fieldsPerRecord with
  | OutOfFuel | Panic => False
  | Ok (Some (_, rest, _)) => (length rest < length input)%nat
  | _ => True
  end.
Proof.
  unfold Csv.readRecord.
  pose proof (nextLine_fuel (S (length input)) input ltac:(lia)) as N.
  destruct (Csv.nextLine (S (length input)) input)
    as [[[line rest]|]| | |]; auto.
  destruct N as [N1 N2].
  pose proof (proj1 (parse_fuel (S (length input))) line rest []
                ltac:(lia)) as P.
  destruct (Csv.parseField (S (length input)) line rest [])
    as [[dst rest']| | |]; auto.
  - destruct (fieldsPerRecord >? 0).
    + destruct (negb (len dst =? fieldsPerRecord)); [exact I|lia].
    + destruct (fieldsPerRecord =? 0); lia.
Qed.

Lemma readAllFrom_fuel (fuel : nat) :
  forall input fieldsPerRecord records,
    (length input < fuel)%nat ->
    match Csv.readAllFrom fuel input fieldsPerRecord records with
    | OutOfFuel | Panic => False
    | _ => True
    end.
Proof.
  induction fuel as [|fuel IH]; intros input fpr records Hf; [lia|].
  cbn [Csv.readAllFrom].
  pose proof (readRecord_fuel input fpr) as R.
  destruct (Csv.readRecord (S (length input)) input fpr)
    as [[[[record rest] fpr']|]| | |]; auto.
  apply IH. lia.
Qed.

(** [ReadAll] comes to an end on every input, with the records or with
    an error of the parse. *)
Lemma ReadAll_returns (input : gostring) :
  (exists records, Csv.ReadAll input = Ok records) \/
  (exists e, Csv.ReadAll input = Failed e).
Proof.
  pose proof (readAllFrom_fuel (S (length input)) input 0 []
                ltac:(lia)) as H.
  unfold Csv.ReadAll.
  destruct (Csv.readAllFrom (S (length input)) input 0 [])
    as [records|e| |]; [left|right| |]; eauto; contradiction.
Qed.

(** ** The fuel of the other loops is enough *)

(** More fuel than the length of the string changes nothing in the
    [range] over it. *)
Lemma rangeFrom_fuel (fuel : nat) :
  forall (s : gostring) (i : Z) (fuel' : nat),
    (length s <= fuel)%nat -> (length s <= fuel')%nat ->
    Utf8.rangeFrom fuel i s = Utf8.rangeFrom fuel' i s.
Proof.
  induction fuel as [|fuel IH]; intros s i fuel' H H'.
  - destruct s; [|cbn in H; lia]. destruct fuel'; reflexivity.
  - destruct s as [|b s]; [destruct fuel'; reflexivity|].
    destruct fuel' as [|fuel']; [cbn in H'; lia|].
    destruct (Utf8.DecodeRune (b :: s)) as [r w] eqn:D.
    rewrite !(rangeFrom_step _ _ _ _ _ _ D). f_equal.
    apply DecodeRune_decodes, decodes_width in D as [Hw _].
    apply IH; rewrite length_skipn; cbn [length] in *; lia.
Qed.

(** More fuel than the offset it starts from changes nothing in the
    loop that steps back over the runes of a string. *)
Lemma lastIndexNotFrom_fuel (f : Z -> bool) (y : gostring) (fuel : nat) :
  forall (e : Z) (fuel' : nat),
    e <= len y -> e < Z.of_nat fuel -> e < Z.of_nat fuel' ->
    Strings.lastIndexNotFrom f y fuel e =
    Strings.lastIndexNotFrom f y fuel' e.
Proof.
  induction fuel as [|fuel IH]; intros e fuel' He H H'.
  - destruct fuel' as [|fuel']; [reflexivity|].
    cbn [Strings.lastIndexNotFrom].
    destruct (Z.gtb_spec e 0); [lia|reflexivity].
  - destruct fuel' as [|fuel'].
    + cbn [Strings.lastIndexNotFrom].
      destruct (Z.gtb_spec e 0); [lia|reflexivity].
    + cbn [Strings.lastIndexNotFrom].
      destruct (Z.gtb_spec e 0); [|reflexivity].
      set (p := firstn (Z.to_nat e) y).
      assert (Hp : len p = e) by (apply len_firstn; lia).
      assert (Hne : p <> []).
      { intros E. rewrite E in Hp. unfold len in Hp. cbn in Hp. lia. }
      destruct (Utf8.DecodeLastRune p) as [r size] eqn:D.
      destruct (DecodeLastRune_spec p r size Hne D) as [Hs _].
      destruct (negb (f r)); [reflexivity|].
      apply IH; lia.
Qed.

(** ** Splitting resumes after a closing bracket *)

(** The [range] over a string that goes on with an ASCII byte is the
    [range] over its front and then that over the rest. *)
Lemma rangeFrom_app_ascii (a : byte) (rest : gostring) (n : nat) :
  b2z a < 128 ->
  forall (f : gostring) (i : Z) (fuel : nat),
    (length f <= n)%nat -> (length (f ++ a :: rest) <= fuel)%nat ->
    Utf8.rangeFrom fuel i (f ++ a :: rest) =
    Utf8.rangeFrom (length f) i f
    ++ Utf8.rangeFrom (length (a :: rest)) (i + len f) (a :: rest).
Proof.
  intros Ha.
  assert (Nil : forall (i : Z) (fuel : nat),
            (length ([] ++ a :: rest) <= fuel)%nat ->
            Utf8.rangeFrom fuel i ([] ++ a :: rest) =
            Utf8.rangeFrom (length (@nil byte)) i []
            ++ Utf8.rangeFrom (length (a :: rest)) (i + len (@nil byte))
                 (a :: rest)).
  { intros i fuel Hf.
    change (Utf8.rangeFrom fuel i (a :: rest) =
            Utf8.rangeFrom (length (a :: rest)) (i + 0) (a :: rest)).
    rewrite Z.add_0_r. apply rangeFrom_fuel; [exact Hf|apply le_n]. }
  induction n as [|n IH]; intros f i fuel Hn Hf.
  - destruct f; [|cbn [length] in Hn; lia]. apply Nil, Hf.
  - destruct f as [|b f]; [apply Nil, Hf|].
    destruct fuel as [|fuel]; [cbn [app length] in Hf; lia|].
    destruct (Utf8.DecodeRune (b :: f)) as [r w] eqn:D.
    pose proof (DecodeRune_decodes _ _ _ _ D) as Dec.
    destruct (decodes_width _ _ _ Dec) as [Hw1 Hw2]. unfold len in Hw2.
    assert (D' : Utf8.DecodeRune ((b :: f) ++ a :: rest) = (r, w))
      by (rewrite DecodeRune_app_ascii by (discriminate || exact Ha);
          exact D).
    cbn [app] in D' |- *.
    rewrite (rangeFrom_step _ _ _ _ _ _ D').
    cbn [length]. rewrite (rangeFrom_step _ _ _ _ _ _ D).
    cbn [app]. f_equal.
    change (b :: f ++ a :: rest) with ((b :: f) ++ a :: rest).
    rewrite skipn_app.
    replace (Z.to_nat w - length (b :: f))%nat with 0%nat by lia.
    cbn [skipn].
    rewrite (IH (skipn (Z.to_nat w) (b :: f)) (i + w) fuel).
    + f_equal.
      * apply rangeFrom_fuel; rewrite length_skipn; cbn [length]; lia.
      * f_equal. unfold len. rewrite length_skipn. lia.
    + rewrite length_skipn. cbn [length] in *. lia.
    + rewrite length_app, length_skipn. cbn [app length] in Hf |- *.
      rewrite length_app in Hf. cbn [length] in Hf. lia.
Qed.

Lemma rangeFrom_shift (d : Z) (fuel : nat) :
  forall (s : gostring) (i : Z),
    Utf8.rangeFrom fuel (i + d) s =
    map (fun ir => (fst ir + d, snd ir)) (Utf8.rangeFrom fuel i s).
Proof.
  induction fuel as [|fuel IH]; intros s i; [reflexivity|].
  destruct s as [|b s]; [reflexivity|].
  destruct (Utf8.DecodeRune (b :: s)) as [r w] eqn:D.
  rewrite !(rangeFrom_step _ _ _ _ _ _ D). cbn [map fst snd]. f_equal.
  replace (i + d + w) with (i + w + d) by lia. apply IH.
Qed.

Lemma rangeFrom_offsets (fuel : nat) :
  forall (s : gostring) (i0 : Z) (ir : Z * Z),
    In ir (Utf8.rangeFrom fuel i0 s) -> i0 <= fst ir.
Proof.
  induction fuel as [|fuel IH]; intros s i0 ir H; [destruct H|].
  destruct s as [|b s]; [destruct H|].
  destruct (Utf8.DecodeRune (b :: s)) as [r w] eqn:D.
  rewrite (rangeFrom_step _ _ _ _ _ _ D) in H.
  destruct H as [<-|H]; [cbn; lia|].
  pose proof (DecodeRune_decodes _ _ _ _ D) as Dec.
  destruct (decodes_width _ _ _ Dec) as [Hw _].
  specialize (IH _ _ _ H). lia.
Qed.

(** The turn of a rune looks at the text only at the byte after the
    rune, so that it is the same on a text with more in front of it. *)
Lemma splitStep_shift (front text : gostring) (st : splitState) (i r : Z) :
  0 <= i ->
  splitStep (front ++ text) st (i + len front, r) = splitStep text st (i, r).
Proof.
  intros Hi. unfold splitStep.
  assert (L : (i + len front + 1 <? len (front ++ text)) =
              (i + 1 <? len text)).
  { rewrite len_app.
    destruct (Z.ltb_spec (i + len front + 1) (len front + len text)),
      (Z.ltb_spec (i + 1) (len text)); (reflexivity || lia). }
  assert (N : nextIsNotBlank (front ++ text) (i + len front) =
              nextIsNotBlank text i).
  { unfold nextIsNotBlank, index. rewrite len_app.
    replace ((0 <=? i + len front + 1)
             && (i + len front + 1 <? len front + len text))
      with ((0 <=? i + 1) && (i + 1 <? len text)).
    2:{ pose proof (len_nonneg front).
        destruct (Z.leb_spec 0 (i + 1)), (Z.ltb_spec (i + 1) (len text)),
          (Z.leb_spec 0 (i + len front + 1)),
          (Z.ltb_spec (i + len front + 1) (len front + len text));
          (reflexivity || lia). }
    destruct ((0 <=? i + 1) && (i + 1 <? len text)); [|reflexivity].
    rewrite nth_error_app2 by (unfold len; lia).
    replace (Z.to_nat (i + len front + 1) - length front)%nat
      with (Z.to_nat (i + 1)) by (unfold len; lia).
    reflexivity. }
  rewrite L, N. reflexivity.
Qed.

(** Sentences that are there already stay in front of the ones a
    turn adds. *)
Lemma splitStep_prefix (text : gostring) (p : list gostring)
  (st : splitState) (ir : Z * Z) :
  splitStep text (mkSplit (p ++ sentences st) (sb st) (parenLevel st)) ir =
  mkSplit (p ++ sentences (splitStep text st ir))
    (sb (splitStep text st ir)) (parenLevel (splitStep text st ir)).
Proof.
  destruct ir as [i r]. unfold splitStep. cbn [sentences sb parenLevel].
  destruct (isTerminator r && _); [|reflexivity].
  destruct (_ && _ && _); [reflexivity|].
  cbn [sentences sb parenLevel]. f_equal.
  rewrite !emit_filter. symmetry. apply app_assoc.
Qed.

Lemma scan_shift (front text : gostring) (p : list gostring)
  (rs : list (Z * Z)) :
  (forall ir, In ir rs -> 0 <= fst ir) ->
  forall st,
    fold_left (splitStep (front ++ text))
      (map (fun ir => (fst ir + len front, snd ir)) rs)
      (mkSplit (p ++ sentences st) (sb st) (parenLevel st)) =
    mkSplit (p ++ sentences (fold_left (splitStep text) rs st))
      (sb (fold_left (splitStep text) rs st))
      (parenLevel (fold_left (splitStep text) rs st)).
Proof.
  induction rs as [|[i r] rs IH]; intros H st; [reflexivity|].
  cbn [map fold_left fst snd].
  rewrite splitStep_shift by (apply (H (i, r)); left; reflexivity).
  rewrite splitStep_prefix. apply IH.
  intros ir Hir. apply H. right. exact Hir.
Qed.

Lemma splitFlush_prefix (p : list gostring) (st : splitState) :
  splitFlush (mkSplit (p ++ sentences st) (sb st) (parenLevel st)) =
  p ++ splitFlush st.
Proof.
  unfold splitFlush. cbn [sentences sb].
  destruct (len (sb st) >? 0); [|reflexivity].
  rewrite !emit_filter. symmetry. apply app_assoc.
Qed.

(** A text that ends a sentence with the counter at zero, followed by
    a text that starts with an ASCII byte: the result is that of the
    first text and then that of the second, split on its own. *)
Lemma split_continues (front : gostring) (a : byte) (rest : gostring)
  (p : list gostring) :
  b2z a < 128 ->
  fold_left (splitStep (front ++ a :: rest)) (Utf8.range front) splitInit =
    mkSplit p [] 0 ->
  splitSentences (front ++ a :: rest) = p ++ splitSentences (a :: rest).
Proof.
  intros Ha H. unfold splitSentences, splitScan, Utf8.range.
  rewrite (rangeFrom_app_ascii a rest (length front) Ha front 0
             (length (front ++ a :: rest)) (le_n _) (le_n _)).
  rewrite fold_left_app. fold (Utf8.range front). rewrite H.
  rewrite (rangeFrom_shift (len front) (length (a :: rest)) (a :: rest) 0).
  fold (Utf8.range (a :: rest)).
  rewrite <- (app_nil_r p).
  change (mkSplit (p ++ []) [] 0)
    with (mkSplit (p ++ sentences splitInit) (sb splitInit)
            (parenLevel splitInit)).
  rewrite scan_shift.
  - rewrite splitFlush_prefix, app_nil_r. reflexivity.
  - intros ir Hir. apply (rangeFrom_offsets _ _ _ _ Hir).
Qed.

(** The turn of a terminator that cuts: the counter is at zero and the
    next byte, when there is one, is a space or a newline. *)
Lemma splitStep_cut (text : gostring) (st : splitState) (i r : Z) :
  isTerminator r = true -> parenLevel st = 0 ->
  nextIsNotBlank text i = false ->
  splitStep text st (i, r) =
  mkSplit (emit (sentences st) (Strings.TrimSpace (sb st ++ Utf8.EncodeRune r)))
    [] 0.
Proof.
  intros T L N. unfold splitStep. rewrite T, L, N.
  assert (O : isOpener r = false /\ isCloser r = false).
  { unfold isTerminator, rune in T.
    rewrite !orb_true_iff, !Z.eqb_eq in T.
    destruct T as [[-> | ->] | ->]; split; reflexivity. }
  destruct O as [-> ->]. cbn [andb Z.eqb]. rewrite andb_false_r.
  reflexivity.
Qed.

(** C7: on the text [Он сказал (это. правда.) всё.] the bracket counter
    is 1 after the turn of every rune from the opening bracket to the
    second period inside the parentheses, and 0 after every other
    turn, so that the closing bracket brings it back to 0.  No turn
    but the last adds a sentence: neither period inside the
    parentheses splits.  The last turn, that of the period after the
    closing bracket, adds the whole text as a sentence and empties the
    buffer: the loop is left with this one sentence, nothing in the
    buffer and the counter at 0, and the result is the whole text as
    one sentence.  Splitting has resumed: when the text goes on with
    a space or a newline, what follows is split as it is on its own,
    after this one sentence. *)
Theorem split_parenthetical_one_sentence :
  let text := str "Он сказал (это. правда.) всё." in
  let before := str "Он сказал " in
  let inside := str "(это. правда." in
  let after := str ") всё." in
  let trace := splitTrace text splitInit (Utf8.range text) in
  text = before ++ inside ++ after /\
  map parenLevel trace =
    repeat 0 (length (Utf8.range before))
    ++ repeat 1 (length (Utf8.range inside))
    ++ repeat 0 (length (Utf8.range after)) /\
  Forall (fun st => sentences st = [] /\ sb st <> []) (removelast trace) /\
  last trace splitInit = mkSplit [text] [] 0 /\
  splitScan text = mkSplit [text] [] 0 /\
  splitSentences text = [text] /\
  forall more : gostring,
    splitSentences (text ++ " "%byte :: more) =
      text :: splitSentences (" "%byte :: more) /\
    splitSentences (text ++ x0a :: more) =
      text :: splitSentences (x0a :: more).
Proof.
  intros text before inside after trace.
  split; [vm_compute; reflexivity|].
  split; [vm_compute; reflexivity|].
  split; [vm_compute; repeat constructor; discriminate|].
  split; [vm_compute; reflexivity|].
  split; [vm_compute; reflexivity|].
  split; [vm_compute; reflexivity|].
  intros more.
  assert (Front : forall t,
            fold_left (splitStep t) (removelast (Utf8.range text)) splitInit =
            mkSplit [] (removelast text) 0)
    by (intros t; vm_compute; reflexivity).
  assert (Last : Utf8.range text =
                 removelast (Utf8.range text) ++ [(48, rune ".")])
    by (vm_compute; reflexivity).
  assert (Go : forall c : byte,
            c = " "%byte \/ c = x0a ->
            splitSentences (text ++ c :: more) =
            text :: splitSentences (c :: more)).
  { intros c Hc. apply (split_continues text c more [text]).
    - destruct Hc as [-> | ->]; vm_compute; reflexivity.
    - rewrite Last, fold_left_app, Front. cbn [fold_left].
      rewrite splitStep_cut.
      + vm_compute. reflexivity.
      + reflexivity.
      + reflexivity.
      + unfold nextIsNotBlank. change (48 + 1) with (Z.of_nat 49).
        rewrite (index_nth_error (text ++ c :: more) 49 c eq_refl).
        destruct Hc as [-> | ->]; reflexivity. }
  split; apply Go; auto.
Qed.

(** ** The properties at work on concrete inputs *)

Lemma verify_first_match_context_witness :
  let sentences := [str "Раз."; str "Два три."; str "Пять."; str "Шесть."] in
  let quote := str "три" in
  let author := str "Автор" in
  (exists s, In s sentences /\ Substring quote s) /\
  exists i s,
    nth_error sentences i = Some s /\ Substring quote s /\
    (forall j s', (j < i)%nat -> nth_error sentences j = Some s' ->
                  ~ Substring quote s') /\
    verifyAndExtractContext sentences quote author =
      Some (mkQuote quote author
              (Strings.Join (window sentences (ctxStart i) i) (str " "))
              (Strings.Join (window sentences (i + 1) (ctxEnd sentences i))
                 (str " ")), true) /\
    sentences = firstn (ctxStart i) sentences
                ++ window sentences (ctxStart i) i
                ++ s :: window sentences (i + 1) (ctxEnd sentences i)
                ++ skipn (ctxEnd sentences i) sentences /\
    (i = 0%nat -> window sentences (ctxStart i) i = []) /\
    (S i = length sentences ->
     window sentences (i + 1) (ctxEnd sentences i) = []).
Proof.
  intros sentences quote author.
  assert (H : exists s, In s sentences /\ Substring quote s).
  { exists (str "Два три."). split; [right; left; reflexivity|].
    exists (str "Два "), (str "."). reflexivity. }
  split; [exact H|].
  apply (verify_first_match_context sentences quote author H).
Defined.

Lemma verify_not_found_witness :
  let sentences := [str "Раз."; str "Два три."] in
  (forall s, In s sentences -> ~ Substring (str "пять") s) /\
  verifyAndExtractContext sentences (str "пять") (str "Автор") =
  Some (zeroQuote, false).
Proof.
  intros sentences.
  assert (H : forall s, In s sentences -> ~ Substring (str "пять") s).
  { intros s [<-|[<-|[]]] Hs; apply Contains_spec in Hs;
      vm_compute in Hs; discriminate Hs. }
  split; [exact H|].
  apply (verify_not_found sentences (str "пять") (str "Автор") H).
Defined.

Lemma period_before_nonblank_no_split_witness :
  let text := str "т.е. далее" in
  (nth_error text 2 = Some "."%byte /\ nth_error text 3 = Some xd0 /\
   xd0 <> " "%byte /\ xd0 <> x0a) /\
  exists before after,
    Utf8.range text = before ++ (2, rune ".") :: after /\
    let st := fold_left (splitStep text) before splitInit in
    let st' := splitStep text st (2, rune ".") in
    sentences st' = sentences st /\
    sb st' = sb st ++ ["."%byte] /\
    parenLevel st' = parenLevel st /\
    splitScan text = fold_left (splitStep text) after st'.
Proof.
  intros text.
  split; [repeat split; (reflexivity || discriminate)|].
  apply (period_before_nonblank_no_split text 2 xd0);
    (reflexivity || discriminate).
Defined.

Lemma unbalanced_bracket_suppresses_splits_witness :
  let text := str "Он (сказал. Да! Нет" in
  let before := firstn 3 (Utf8.range text) in
  let after := skipn 3 (Utf8.range text) in
  (Utf8.range text = before ++ after /\
   Forall (fun s => parenLevel s <> 0)
     (splitTrace text (fold_left (splitStep text) before splitInit) after)) /\
  let st := fold_left (splitStep text) before splitInit in
  let rest :=
    sb st ++ concat (map (fun ir => Utf8.EncodeRune (snd ir)) after) in
  sentences (splitScan text) = sentences st /\
  sb (splitScan text) = rest /\
  splitSentences text = emit (sentences st) (Strings.TrimSpace rest).
Proof.
  intros text before after.
  assert (H1 : Utf8.range text = before ++ after)
    by (symmetry; apply firstn_skipn).
  assert (H2 : Forall (fun s => parenLevel s <> 0)
                 (splitTrace text
                    (fold_left (splitStep text) before splitInit) after)).
  { vm_compute. repeat constructor; discriminate. }
  split; [split; assumption|].
  apply (unbalanced_bracket_suppresses_splits text before after H1 H2).
Defined.

Lemma split_sentences_ordered_segments_witness :
  let text := str "Раз. Два" in
  ValidString text = true /\
  exists segments,
    concat segments = text /\
    splitSentences text =
    filter nonEmpty (map Strings.TrimSpace segments).
Proof.
  intros text.
  assert (V : ValidString text = true) by reflexivity.
  split; [exact V|].
  apply (proj1 (proj2 (split_sentences_ordered_segments text)) V).
Defined.

Lemma outputFile_txt_or_append_witness :
  (str "book.txt" = str "book" ++ str ".txt" /\
   outputFile (str "book.txt") = str "book" ++ str ".csv" /\
   outputFile (str "book.txt") = replaceExt (str "book.txt") (str ".csv")) /\
  (Strings.HasSuffix (str "book.md") (str ".txt") = false /\
   outputFile (str "book.md") = str "book.md" ++ str ".csv").
Proof.
  split.
  - split; [reflexivity|].
    apply (proj1 (outputFile_txt_or_append (str "book.txt")) (str "book")).
    reflexivity.
  - split; [reflexivity|].
    apply (proj2 (outputFile_txt_or_append (str "book.md"))).
    reflexivity.
Defined.

Lemma csv_round_trip_witness :
  let quotes :=
    [mkQuote (str "Быть или не быть") (str "У. Шекспир")
       (str "Раз. Два.") (str "Пять.");
     mkQuote (str " x") [x22; x0d] [] (str "y, z")] in
  Forall cleanQuote quotes /\
  readQuotesFromCSV (appendToCSV initCSV quotes) = Ok quotes.
Proof.
  intros quotes.
  assert (H : Forall cleanQuote quotes).
  { repeat constructor; apply notIn_check; vm_compute; reflexivity. }
  split; [exact H|].
  apply (csv_round_trip quotes H).
Defined.

Lemma readQuotes_skips_header_or_panics_witness :
  let file := str "h1;h2;h3;h4
a;b;c;d
" in
  let records := [[str "h1"; str "h2"; str "h3"; str "h4"];
                  [str "a"; str "b"; str "c"; str "d"]] in
  Csv.ReadAll file = Ok records /\
  (records <> [] ->
   readQuotesFromCSV file =
   Ok (map quoteOfRecord (filter (fun r => 4 <=? len r) (tl records)))) /\
  (records = [] -> readQuotesFromCSV file = Panic).
Proof.
  intros file records.
  assert (H : Csv.ReadAll file = Ok records) by (vm_compute; reflexivity).
  split; [exact H|].
  apply (readQuotes_skips_header_or_panics file records H).
Defined.

(** ** The verifier on any candidate *)

Lemma verify_occurs (sentences : list gostring) (quote author : gostring) :
  exists q,
    verifyAndExtractContext sentences quote author =
      Some (q, occurs sentences quote) /\
    (occurs sentences quote = true -> Text q = quote /\ Author q = author).
Proof.
  destruct (occurs sentences quote) eqn:O.
  - unfold occurs in O. apply existsb_exists in O as [s [Hin Hc]].
    destruct (first_match quote sentences) as [pre [s' [post [E [Hpre Hs']]]]].
    { exists s. split; [exact Hin|]. apply Contains_spec. exact Hc. }
    set (i := length pre).
    exists (mkQuote quote author
              (Strings.Join (window sentences (ctxStart i) i) (str " "))
              (Strings.Join (window sentences (i + 1) (ctxEnd sentences i))
                 (str " "))).
    split; [|intros _; split; reflexivity].
    unfold verifyAndExtractContext. rewrite E at 2.
    rewrite verifyLoop_skip by exact Hpre.
    change (0 + len pre) with (Z.of_nat i).
    apply verifyLoop_hit; [|exact Hs'].
    subst i. rewrite E, nth_error_app2, Nat.sub_diag by lia. reflexivity.
  - exists zeroQuote. split; [|discriminate].
    unfold verifyAndExtractContext.
    rewrite <- (app_nil_r sentences) at 2.
    rewrite verifyLoop_skip; [reflexivity|].
    apply Forall_forall. intros s Hs.
    destruct (Strings.Contains s quote) eqn:E; [|reflexivity].
    unfold occurs in O.
    assert (existsb (fun s => Strings.Contains s quote) sentences = true)
      by (apply existsb_exists; eauto).
    congruence.
Qed.

(** ** One block *)

Section Block.

Variable generateContent : nat -> gostring -> option gostring.
Variable jsonUnmarshal : gostring -> option (list gostring).

Lemma verifyAll_spec (sentences : list gostring) (author : gostring)
  (aiQuotes : list gostring) :
  forall validQuotes,
  exists valid,
    verifyAll sentences author aiQuotes validQuotes =
      Some (validQuotes ++ valid) /\
    map Text valid = filter (occurs sentences) aiQuotes /\
    Forall (fun v => Author v = author) valid /\
    Forall (fun v => verifyAndExtractContext sentences (Text v) author =
                     Some (v, true)) valid.
Proof.
  induction aiQuotes as [|q aiQuotes IH]; intros acc.
  - exists []. cbn. rewrite app_nil_r. auto.
  - cbn [verifyAll filter].
    destruct (verify_occurs sentences q author) as [quote [E H]].
    rewrite E. destruct (occurs sentences q).
    + destruct (IH (acc ++ [quote])) as [valid [Ev [Et [Ea Eq]]]].
      destruct H as [Ht Ha]; [reflexivity|].
      exists (quote :: valid). rewrite Ev, <- app_assoc. cbn.
      rewrite Ht, Et. split; [reflexivity|]. split; [reflexivity|].
      split; constructor; auto. rewrite Ht. exact E.
    + destruct (IH acc) as [valid [Ev [Et [Ea Eq]]]].
      exists valid. auto.
Qed.

Lemma processBlock_run (text : gostring) (sentences : list gostring)
  (author : gostring) (st : run) :
  exists valid aiQuotes,
    let st' := mkRun (appendToCSV (csv st) valid) (allQuotes st ++ valid)
                 (requests st ++ [text]) in
    (processBlock generateContent jsonUnmarshal text sentences author st
       = BlockDone st' \/
     processBlock generateContent jsonUnmarshal text sentences author st
       = BlockAIError st') /\
    map Text valid = filter (occurs sentences) aiQuotes /\
    Forall (fun v => Author v = author) valid.
Proof.
  unfold processBlock.
  destruct (extractQuotesFromAI _ _ _ _) as [|aiQuotes].
  - exists [], []. cbn. rewrite app_nil_r. destruct st; cbn. auto.
  - destruct (verifyAll_spec sentences author aiQuotes [])
      as [valid [Ev [Et [Ea _]]]].
    cbn [app] in Ev.
    destruct (Z.eqb_spec (len aiQuotes) 0) as [Z0|Z0].
    + exists [], []. cbn. rewrite app_nil_r. auto.
    + rewrite Ev. exists valid, aiQuotes.
      destruct valid as [|v valid].
      * cbn. rewrite app_nil_r. cbn in Et. auto.
      * replace (len (v :: valid) >? 0) with true
          by (symmetry; unfold len; cbn [length]; apply Z.gtb_lt; lia).
        cbv zeta. auto.
Qed.

End Block.

(** ** Trimming and splitting keep to the text *)

Lemma Substring_refl (s : gostring) : Substring s s.
Proof. exists [], []. cbn. symmetry. apply app_nil_r. Qed.

Lemma Substring_trans (a b c : gostring) :
  Substring a b -> Substring b c -> Substring a c.
Proof.
  intros [p [q ->]] [p' [q' ->]]. exists (p' ++ p), (q ++ q').
  rewrite <- !app_assoc. reflexivity.
Qed.

Lemma Substring_firstn (m : nat) (s : gostring) : Substring (firstn m s) s.
Proof.
  exists [], (skipn m s). cbn. symmetry. apply firstn_skipn.
Qed.

Lemma Substring_skipn (m : nat) (s : gostring) : Substring (skipn m s) s.
Proof.
  exists (firstn m s), []. rewrite app_nil_r. symmetry. apply firstn_skipn.
Qed.

Lemma Substring_cons (c : byte) (a s : gostring) :
  Substring a s -> Substring a (c :: s).
Proof. intros [p [q ->]]. exists (c :: p), q. reflexivity. Qed.

Lemma TrimSpace_Substring (s : gostring) : Substring (Strings.TrimSpace s) s.
Proof.
  induction s as [|c s IH]; [apply Substring_refl|].
  cbn [Strings.TrimSpace].
  destruct (Z.leb_spec Utf8.RuneSelf (b2z c)) as [A|A].
  - unfold Strings.TrimFunc.
    destruct (TrimRightFunc_firstn
                (Strings.TrimLeftFunc (c :: s) Unicode.IsSpace)
                Unicode.IsSpace) as [m ->].
    eapply Substring_trans; [apply Substring_firstn|].
    unfold Strings.TrimLeftFunc.
    destruct (_ =? -1); [|apply Substring_skipn].
    exists [], (c :: s). reflexivity.
  - destruct (Strings.asciiSpace c) eqn:Sc.
    + apply Substring_cons, IH.
    + destruct (trimSpaceStop_spec c s A Sc (length (c :: s)))
        as [_ [m ->]]; [cbn [length]; lia|].
      apply Substring_firstn.
Qed.

Lemma Substring_concat (x : gostring) (l : list gostring) :
  In x l -> Substring x (concat l).
Proof.
  intros H. apply in_split in H as [l1 [l2 ->]].
  exists (concat l1), (concat l2). rewrite concat_app. reflexivity.
Qed.

Lemma sentence_Substring (text s : gostring) :
  In s (splitSentences text) -> Substring s (recode text).
Proof.
  destruct (split_segments_recode text) as [segments [<- ->]].
  intros H. apply filter_In in H as [H _].
  apply in_map_iff in H as [seg [<- Hseg]].
  eapply Substring_trans; [apply TrimSpace_Substring|].
  now apply Substring_concat.
Qed.

(** ** The loop of [processFile] *)

Lemma appendToCSV_app (file : gostring) (a b : list Quote) :
  appendToCSV (appendToCSV file a) b = appendToCSV file (a ++ b).
Proof.
  rewrite !appendToCSV_concat, map_app, concat_app, app_assoc.
  reflexivity.
Qed.

Lemma textOf_app (a b : list gostring) : textOf (a ++ b) = textOf a ++ textOf b.
Proof. unfold textOf. rewrite map_app, concat_app. reflexivity. Qed.

Lemma textOf_last (cur : list gostring) (line : gostring) :
  textOf (cur ++ [line]) = textOf cur ++ line ++ [x0a].
Proof.
  rewrite textOf_app. unfold textOf at 2, withNewline. cbn.
  rewrite app_nil_r. reflexivity.
Qed.

Lemma textOf_empty (cur : list gostring) : len (textOf cur) <= 0 -> cur = [].
Proof.
  destruct cur as [|l cur]; [reflexivity|].
  unfold textOf, withNewline. cbn [map concat].
  rewrite !len_app. unfold len at 2. cbn [length].
  pose proof (len_nonneg l).
  pose proof (len_nonneg (concat (map withNewline cur))).
  unfold withNewline in *. lia.
Qed.

Lemma textOf_removelast (cur : list gostring) :
  len (textOf (removelast cur)) <= len (textOf cur).
Proof.
  destruct (list_eq_dec (list_eq_dec Byte.byte_eq_dec) cur []) as [->|N].
  - cbn. lia.
  - rewrite (app_removelast_last [] N) at 2.
    rewrite textOf_app, len_app.
    pose proof (len_nonneg (textOf [last cur []])).
    unfold gostring in *. lia.
Qed.

Lemma fromInput_more (author : gostring) (seen more : list gostring)
  (q : Quote) :
  fromInput seen author q -> fromInput (seen ++ more) author q.
Proof.
  intros [Ha [line [s [Hl H]]]]. split; [exact Ha|].
  exists line, s. split; [apply in_or_app; auto|exact H].
Qed.

Lemma occurs_fromInput (author : gostring) (seen : list gostring)
  (aiQuotes : list gostring) (valid : list Quote) :
  map Text valid =
    filter (occurs (concat (map splitSentences seen))) aiQuotes ->
  Forall (fun v => Author v = author) valid ->
  Forall (fromInput seen author) valid.
Proof.
  intros Et Ea. rewrite Forall_forall in *. intros v Hv.
  split; [auto|].
  assert (O : In (Text v) (map Text valid)) by (apply in_map; exact Hv).
  rewrite Et in O. apply filter_In in O as [_ O].
  unfold occurs in O. apply existsb_exists in O as [s [Hs Hc]].
  apply in_concat in Hs as [ss [Hss Hs]].
  apply in_map_iff in Hss as [line [<- Hl]].
  exists line, s. repeat split; auto.
  - apply Contains_spec. exact Hc.
  - apply sentence_Substring. exact Hs.
Qed.

Section File.

Variable generateContent : nat -> gostring -> option gostring.
Variable jsonUnmarshal : gostring -> option (list gostring).

Lemma processBlock_inv (author : gostring) (seen : list gostring)
  (text : gostring) (st : run) :
  csv st = appendToCSV initCSV (allQuotes st) ->
  Forall (fromInput seen author) (allQuotes st) ->
  exists r,
    (processBlock generateContent jsonUnmarshal text
       (concat (map splitSentences seen)) author st = BlockDone r \/
     processBlock generateContent jsonUnmarshal text
       (concat (map splitSentences seen)) author st = BlockAIError r) /\
    csv r = appendToCSV initCSV (allQuotes r) /\
    Forall (fromInput seen author) (allQuotes r) /\
    requests r = requests st ++ [text].
Proof.
  intros Hc Hq.
  destruct (processBlock_run generateContent jsonUnmarshal text
              (concat (map splitSentences seen)) author st)
    as [valid [aiQuotes [H [Et Ea]]]].
  cbv zeta in H. eexists. split; [exact H|]. cbn.
  rewrite Hc, appendToCSV_app. split; [reflexivity|]. split; [|reflexivity].
  apply Forall_app. split; [exact Hq|].
  eapply occurs_fromInput; eassumption.
Qed.

Lemma processLine_inv (author : gostring) (seen : list gostring)
  (st : fileLoop) (line : gostring) :
  loopInv author seen st ->
  exists st',
    processLine generateContent jsonUnmarshal author st line = Some st' /\
    loopInv author (seen ++ [line]) st'.
Proof.
  intros [Hs [Hc [Hq [done [cur [E [Hb [Hr [Hl Hd]]]]]]]]].
  unfold processLine.
  assert (Hs' : allSentences st ++ splitSentences line =
                concat (map splitSentences (seen ++ [line]))).
  { rewrite map_app, concat_app, Hs. cbn. rewrite app_nil_r. reflexivity. }
  assert (Hb' : block st ++ line ++ [x0a] = textOf (cur ++ [line])).
  { rewrite textOf_last, Hb. reflexivity. }
  rewrite Hs', Hb'.
  destruct (Z.gtb_spec (len (textOf (cur ++ [line]))) maxBlockSize) as [G|G].
  - destruct (processBlock_inv author (seen ++ [line])
                (textOf (cur ++ [line])) (loopRun st) Hc)
      as [r [H [Hc' [Hq' Hr']]]].
    { eapply Forall_impl; [|exact Hq]. intros q. apply fromInput_more. }
    exists (mkLoop [] (concat (map splitSentences (seen ++ [line]))) r).
    split; [destruct H as [-> | ->]; reflexivity|].
    split; [reflexivity|]. split; [exact Hc'|]. split; [exact Hq'|].
    exists (done ++ [cur ++ [line]]), []. cbn [block loopRun].
    rewrite concat_app, map_app, Hr', Hr, E. cbn.
    rewrite !app_nil_r, app_assoc. repeat split; auto.
    + unfold maxBlockSize. lia.
    + apply Forall_app. split; [exact Hd|]. constructor; [|constructor].
      split; [destruct cur; discriminate|]. split; [lia|].
      rewrite removelast_last. exact Hl.
  - eexists. split; [reflexivity|].
    split; [reflexivity|]. split; [exact Hc|]. split.
    { eapply Forall_impl; [|exact Hq]. intros q. apply fromInput_more. }
    exists done, (cur ++ [line]). cbn [block loopRun].
    rewrite E, app_assoc. repeat split; auto.
Qed.

Lemma processLines_inv (author : gostring) (lines : list gostring) :
  forall seen st,
    loopInv author seen st ->
    exists st',
      processLines generateContent jsonUnmarshal author st lines = Some st' /\
      loopInv author (seen ++ lines) st'.
Proof.
  induction lines as [|line lines IH]; intros seen st H.
  - exists st. rewrite app_nil_r. auto.
  - cbn [processLines].
    destruct (processLine_inv author seen st line H) as [st1 [-> H1]].
    destruct (IH _ _ H1) as [st' [E H']].
    exists st'. rewrite <- app_assoc in H'. auto.
Qed.

Lemma loopInv_init (author : gostring) :
  loopInv author [] (mkLoop [] [] (mkRun initCSV [] [])).
Proof.
  split; [reflexivity|]. split; [reflexivity|]. split; [constructor|].
  exists [], []. cbn. repeat split; auto. unfold maxBlockSize; lia.
Qed.

End File.

(** ** A whole file *)

Section WholeFile.

Variable generateContent : nat -> gostring -> option gostring.
Variable jsonUnmarshal : gostring -> option (list gostring).

Lemma processFile_inv (lines : list gostring) (author : gostring) :
  exists st groups,
    processFile generateContent jsonUnmarshal lines author = Some st /\
    csv st = appendToCSV initCSV (allQuotes st) /\
    Forall (fromInput lines author) (allQuotes st) /\
    requests st = map textOf groups /\
    concat groups = lines /\
    Forall fullGroup (removelast groups) /\
    Forall (fun g => g <> [] /\
                     len (textOf (removelast g)) <= maxBlockSize) groups.
Proof.
  unfold processFile.
  destruct (processLines_inv generateContent jsonUnmarshal author lines []
              _ (loopInv_init author))
    as [st [-> [Hs [Hc [Hq [done [cur [E [Hb [Hr [Hl Hd]]]]]]]]]]].
  cbn [app] in *.
  assert (Hall : Forall (fun g => g <> [] /\
                   len (textOf (removelast g)) <= maxBlockSize) done).
  { eapply Forall_impl; [|exact Hd]. intros g [H1 [_ H2]]. auto. }
  destruct (Z.gtb_spec (len (block st)) 0) as [G|G].
  - rewrite Hs.
    destruct (processBlock_inv generateContent jsonUnmarshal author lines
                (block st) (loopRun st) Hc Hq)
      as [r [H [Hc' [Hq' Hr']]]].
    exists r, (done ++ [cur]).
    split; [destruct H as [-> | ->]; reflexivity|].
    split; [exact Hc'|]. split; [exact Hq'|].
    rewrite Hr', Hr, Hb, map_app, concat_app, removelast_last. cbn.
    rewrite app_nil_r. repeat split; auto.
    apply Forall_app. split; [exact Hall|]. constructor; [|constructor].
    split.
    + intros ->. rewrite Hb in G. cbn in G. lia.
    + pose proof (textOf_removelast cur). lia.
  - exists (loopRun st), done.
    assert (cur = []) as -> by (apply textOf_empty; rewrite <- Hb; lia).
    rewrite app_nil_r in E.
    repeat split; auto.
    clear - Hd. induction Hd as [|g done Hg Hd IH]; [constructor|].
    destruct done as [|g' done]; [constructor|].
    cbn [removelast]. constructor; [exact Hg|exact IH].
Qed.

(** X1: [processFile] on any lines and with any answers of the model
    returns without a panic.  The texts it sends to the model are the
    lines of the file, each with its newline, cut into consecutive
    groups of whole lines: no group is empty, every group but the last
    is longer than 3000 bytes, and no group is longer than that before
    its last line. *)
Theorem processFile_blocks (lines : list gostring) (author : gostring) :
  exists st groups,
    processFile generateContent jsonUnmarshal lines author = Some st /\
    requests st = map textOf groups /\
    concat groups = lines /\
    Forall fullGroup (removelast groups) /\
    Forall (fun g => g <> [] /\
                     len (textOf (removelast g)) <= maxBlockSize) groups.
Proof.
  destruct (processFile_inv lines author)
    as [st [groups [H [_ [_ [H1 [H2 [H3 H4]]]]]]]].
  exists st, groups. auto.
Qed.

(** X2: whatever the model answers, every quote that [processFile]
    saves stands in the input: it carries the author given on the
    command line, and its text is found in one sentence of one line of
    the file, which is itself part of that line as it was decoded. *)
Theorem processFile_saves_from_input (lines : list gostring)
  (author : gostring) :
  exists st,
    processFile generateContent jsonUnmarshal lines author = Some st /\
    Forall (fromInput lines author) (allQuotes st).
Proof.
  destruct (processFile_inv lines author) as [st [groups [H [_ [H1 _]]]]].
  exists st. auto.
Qed.

(** X3: when [processFile] is done, the output file is the header row
    followed by one row for each quote counted in [allQuotes], in the
    order they were found, and [readQuotesFromCSV] reads from it
    exactly these quotes, with their fields sanitised. *)
Theorem processFile_output_reads_back (lines : list gostring)
  (author : gostring) :
  exists st,
    processFile generateContent jsonUnmarshal lines author = Some st /\
    csv st = appendToCSV initCSV (allQuotes st) /\
    readQuotesFromCSV (csv st) = Ok (map sanitizeQuote (allQuotes st)).
Proof.
  destruct (processFile_inv lines author) as [st [groups [H [H1 _]]]].
  exists st. rewrite H1 at 2. rewrite csv_round_trip_sanitized. auto.
Qed.

End WholeFile.

(** ** One block: what is saved *)

Section BlockSaved.

Variable generateContent : nat -> gostring -> option gostring.
Variable jsonUnmarshal : gostring -> option (list gostring).

(** X4: [processBlock] does not panic.  When the call of the model
    fails it returns the error and leaves the file and the saved
    quotes as they were.  Otherwise it returns [nil], and what it
    appends to the file and to the saved quotes are the quotes of
    exactly those candidates of the model that occur in one of the
    sentences, in the model's order, repeats included, each one as the
    verifier returns it. *)
Theorem processBlock_saves_verified (text : gostring)
  (sentences : list gostring) (author : gostring) (st : run) :
  match extractQuotesFromAI generateContent jsonUnmarshal
          (length (requests st)) text with
  | AIError =>
      processBlock generateContent jsonUnmarshal text sentences author st =
      BlockAIError (mkRun (csv st) (allQuotes st) (requests st ++ [text]))
  | AIQuotes aiQuotes =>
      exists valid,
        processBlock generateContent jsonUnmarshal text sentences author st =
        BlockDone (mkRun (appendToCSV (csv st) valid)
                     (allQuotes st ++ valid) (requests st ++ [text])) /\
        map Text valid = filter (occurs sentences) aiQuotes /\
        Forall (fun v => verifyAndExtractContext sentences (Text v) author =
                         Some (v, true)) valid
  end.
Proof.
  unfold processBlock.
  destruct (extractQuotesFromAI _ _ _ _) as [|aiQuotes]; [reflexivity|].
  destruct (verifyAll_spec sentences author aiQuotes [])
    as [valid [Ev [Et [_ Ea]]]].
  cbn [app] in Ev.
  destruct (Z.eqb_spec (len aiQuotes) 0) as [Z0|Z0].
  - destruct aiQuotes; [|unfold len in Z0; cbn [length] in Z0; lia].
    exists []. cbn. rewrite app_nil_r. auto.
  - rewrite Ev. exists valid.
    destruct valid as [|v valid].
    + cbn. rewrite app_nil_r. cbn in Et. auto.
    + replace (len (v :: valid) >? 0) with true
        by (symmetry; unfold len; cbn [length]; apply Z.gtb_lt; lia).
      auto.
Qed.

End BlockSaved.

(** ** The clean-up of the model's answer *)

Lemma asciiSpace_lt (c : byte) : Strings.asciiSpace c = true -> b2z c < 128.
Proof.
  unfold Strings.asciiSpace. cbv zeta. intros H.
  rewrite !orb_true_iff, !Z.eqb_eq in H. lia.
Qed.

Lemma TrimSpace_leading (w s : gostring) :
  Forall (fun c => Strings.asciiSpace c = true) w ->
  Strings.TrimSpace (w ++ s) = Strings.TrimSpace s.
Proof.
  induction 1 as [|c w Hc _ IH]; [reflexivity|].
  cbn [app Strings.TrimSpace]. pose proof (asciiSpace_lt c Hc).
  unfold Utf8.RuneSelf. destruct (Z.leb_spec 128 (b2z c)); [lia|].
  rewrite Hc. exact IH.
Qed.

Lemma trimSpaceStop_trailing (front : gostring) (d : byte) (w : gostring) :
  b2z d < 128 -> Strings.asciiSpace d = false ->
  Forall (fun c => Strings.asciiSpace c = true) w ->
  forall k, (k <= length w)%nat ->
    Strings.trimSpaceStop (front ++ d :: w) (S (length front) + k) =
    front ++ [d].
Proof.
  intros Hd Sd Hw. induction k as [|k IH]; intros Hk.
  - rewrite Nat.add_0_r. cbn [Strings.trimSpaceStop].
    rewrite nth_error_app2, Nat.sub_diag by lia. cbn [nth_error].
    unfold Utf8.RuneSelf. destruct (Z.leb_spec 128 (b2z d)); [lia|].
    rewrite Sd.
    change (front ++ d :: w) with (front ++ [d] ++ w).
    rewrite app_assoc.
    replace (S (length front)) with (length (front ++ [d]))
      by (rewrite length_app; cbn; lia).
    rewrite firstn_app, Nat.sub_diag, firstn_all. cbn. apply app_nil_r.
  - replace (S (length front) + S k)%nat with (S (S (length front) + k))
      by lia.
    cbn [Strings.trimSpaceStop].
    rewrite nth_error_app2 by lia.
    replace (S (length front) + k - length front)%nat with (S k) by lia.
    cbn [nth_error].
    destruct (nth_error w k) as [c|] eqn:N.
    2:{ apply nth_error_None in N. lia. }
    assert (Hc : Strings.asciiSpace c = true).
    { rewrite Forall_forall in Hw. apply Hw. eapply nth_error_In; eauto. }
    pose proof (asciiSpace_lt c Hc).
    unfold Utf8.RuneSelf. destruct (Z.leb_spec 128 (b2z c)); [lia|].
    rewrite Hc. apply IH. lia.
Qed.

(** A string that starts and ends with ASCII bytes that are no spaces
    is what [TrimSpace] leaves of it with ASCII spaces around. *)
Lemma TrimSpace_padded (w1 w2 mid : gostring) (c d : byte) :
  b2z c < 128 -> Strings.asciiSpace c = false ->
  b2z d < 128 -> Strings.asciiSpace d = false ->
  Forall (fun c => Strings.asciiSpace c = true) w1 ->
  Forall (fun c => Strings.asciiSpace c = true) w2 ->
  Strings.TrimSpace (w1 ++ (c :: mid ++ [d]) ++ w2) = c :: mid ++ [d].
Proof.
  intros Hc Sc Hd Sd H1 H2. rewrite TrimSpace_leading by exact H1.
  cbn [app Strings.TrimSpace].
  unfold Utf8.RuneSelf. destruct (Z.leb_spec 128 (b2z c)); [lia|].
  rewrite Sc.
  change (c :: (mid ++ [d]) ++ w2) with ((c :: mid ++ [d]) ++ w2).
  replace ((c :: mid ++ [d]) ++ w2) with ((c :: mid) ++ d :: w2)
    by (cbn; rewrite <- app_assoc; reflexivity).
  replace (length ((c :: mid) ++ d :: w2))
    with (S (length (c :: mid)) + length w2)%nat
    by (rewrite length_app; cbn [length]; lia).
  rewrite trimSpaceStop_trailing; auto.
Qed.

Lemma TrimPrefix_app (prefix s : gostring) :
  StringsMore.TrimPrefix (prefix ++ s) prefix = s.
Proof.
  unfold StringsMore.TrimPrefix.
  rewrite (proj2 (HasPrefix_spec (prefix ++ s) prefix))
    by (exists s; reflexivity).
  rewrite skipn_app, Nat.sub_diag, skipn_all. reflexivity.
Qed.

(** X5: an answer that the model wraps in a fenced [json] code block,
    with any ASCII white space before and after the fences, is cleaned
    to what stands between the fences, trimmed, which is what
    [json.Unmarshal] is then given. *)
Theorem cleanResponse_fenced (w1 w2 body : gostring) :
  Forall (fun c => Strings.asciiSpace c = true) w1 ->
  Forall (fun c => Strings.asciiSpace c = true) w2 ->
  cleanResponse (w1 ++ (str "```json" ++ body ++ str "```") ++ w2) =
  Strings.TrimSpace body.
Proof.
  intros H1 H2. unfold cleanResponse.
  assert (E : str "```json" ++ body ++ str "```" =
              "`"%byte :: (str "``json" ++ body ++ str "``") ++ ["`"%byte]).
  { cbn. rewrite <- !app_assoc. reflexivity. }
  rewrite E, TrimSpace_padded; auto; try reflexivity.
  rewrite <- E.
  rewrite TrimPrefix_app, TrimSuffix_app. reflexivity.
Qed.

(** X6: an answer that is not fenced, such as a bare JSON array, is
    handed on as it is, without the ASCII white space around it: the
    first and the last byte are ASCII, no spaces and no backquotes. *)
Theorem cleanResponse_plain (w1 w2 mid : gostring) (c d : byte) :
  b2z c < 128 -> Strings.asciiSpace c = false -> c <> "`"%byte ->
  b2z d < 128 -> Strings.asciiSpace d = false -> d <> "`"%byte ->
  Forall (fun c => Strings.asciiSpace c = true) w1 ->
  Forall (fun c => Strings.asciiSpace c = true) w2 ->
  cleanResponse (w1 ++ (c :: mid ++ [d]) ++ w2) = c :: mid ++ [d].
Proof.
  intros Hc Sc Nc Hd Sd Nd H1 H2. unfold cleanResponse.
  rewrite TrimSpace_padded by assumption.
  assert (P : StringsMore.TrimPrefix (c :: mid ++ [d]) (str "```json") =
              c :: mid ++ [d]).
  { unfold StringsMore.TrimPrefix.
    destruct (Strings.HasPrefix _ _) eqn:E; [|reflexivity].
    apply HasPrefix_spec in E as [post E]. cbn in E.
    injection E as E _. contradiction. }
  rewrite P.
  assert (Q : Strings.TrimSuffix (c :: mid ++ [d]) (str "```") =
              c :: mid ++ [d]).
  { unfold Strings.TrimSuffix.
    destruct (Strings.HasSuffix _ _) eqn:E; [|reflexivity].
    apply HasSuffix_spec in E as [pre E].
    change (str "```") with (str "``" ++ ["`"%byte]) in E.
    rewrite app_assoc in E.
    change (c :: mid ++ [d]) with ((c :: mid) ++ [d]) in E.
    apply app_inj_tail in E as [_ E]. contradiction. }
  rewrite Q.
  rewrite <- (app_nil_r (c :: mid ++ [d])) at 1.
  change (Strings.TrimSpace ((c :: mid ++ [d]) ++ []))
    with (Strings.TrimSpace ([] ++ (c :: mid ++ [d]) ++ [])).
  apply TrimSpace_padded; auto.
Qed.

(** ** The sampler *)

Lemma readQuotes_outcome (file : gostring) :
  match readQuotesFromCSV file with
  | Ok _ => exists hdr rows, Csv.ReadAll file = Ok (hdr :: rows)
  | Failed e => Csv.ReadAll file = Failed e
  | Panic => Csv.ReadAll file = Ok []
  | OutOfFuel => False
  end.
Proof.
  unfold readQuotesFromCSV.
  destruct (ReadAll_returns file) as [[records ->]|[e ->]]; [|reflexivity].
  destruct records as [|hdr rows]; [reflexivity|].
  unfold dropHeader, slice.
  destruct ((0 <=? 1) && (1 <=? len (hdr :: rows))
            && (len (hdr :: rows) <=? len (hdr :: rows))) eqn:C; eauto.
  rewrite len_cons in C. pose proof (len_nonneg rows).
  rewrite !andb_false_iff, !Z.leb_gt in C. lia.
Qed.

Section SamplerProperties.

Variable unicodeLower : gostring -> gostring.
Variable openFile : gostring -> option gostring.
Variable intn : Z -> Z.

Lemma poolQuotes_spec (csvFiles : list gostring) :
  forall all,
    match poolQuotes openFile csvFiles all with
    | Ok all' => all' = all ++ concat (map (quotesIn openFile) csvFiles)
    | Panic =>
        exists path file,
          In path csvFiles /\ openFile path = Some file /\
          Csv.ReadAll file = Ok []
    | _ => False
    end.
Proof.
  induction csvFiles as [|path csvFiles IH]; intros all;
    cbn [poolQuotes map concat].
  - symmetry. apply app_nil_r.
  - unfold quotesIn at 1.
    destruct (openFile path) as [file|] eqn:O.
    + pose proof (readQuotes_outcome file) as R.
      destruct (readQuotesFromCSV file) as [quotes|e| |].
      * specialize (IH (all ++ quotes)).
        destruct (poolQuotes openFile csvFiles (all ++ quotes));
          try contradiction.
        -- rewrite IH, <- app_assoc. reflexivity.
        -- destruct IH as [p [f [H1 H2]]]. exists p, f. cbn. auto.
      * specialize (IH all).
        destruct (poolQuotes openFile csvFiles all); try contradiction.
        -- exact IH.
        -- destruct IH as [p [f [H1 H2]]]. exists p, f. cbn. auto.
      * exists path, file. cbn. auto.
      * contradiction.
    + specialize (IH all).
      destruct (poolQuotes openFile csvFiles all); try contradiction.
      * exact IH.
      * destruct IH as [p [f [H1 H2]]]. exists p, f. cbn. auto.
Qed.

Lemma index_In {A} (l : list A) (i : Z) (x : A) :
  index l i = Some x -> In x l.
Proof.
  unfold index. destruct (_ && _); [|discriminate].
  apply nth_error_In.
Qed.

Lemma index_some {A} (l : list A) (i : Z) :
  0 <= i < len l -> exists x, index l i = Some x.
Proof.
  intros H. unfold index.
  replace ((0 <=? i) && (i <? len l)) with true
    by (symmetry; rewrite andb_true_iff, Z.leb_le, Z.ltb_lt; lia).
  destruct (nth_error l (Z.to_nat i)) as [x|] eqn:N; [eauto|].
  apply nth_error_None in N. unfold len in H. lia.
Qed.

(** X7: what [getRandomQuote] comes to, for a random source that keeps
    to the contract of [rand.Intn].  A quote it returns was read from
    one of the CSV files found; the error for no quotes means that no
    file found gave a quote; it panics only where one of the files
    found opens and parses to no record at all; and it always comes to
    an end. *)
Theorem getRandomQuote_cases (entries : list walkEntry) :
  (forall n, 0 < n -> 0 <= intn n < n) ->
  match getRandomQuote unicodeLower openFile intn entries with
  | Sampled q =>
      exists csvFiles path,
        findCSVFiles unicodeLower entries = Some csvFiles /\
        In path csvFiles /\ In q (quotesIn openFile path)
  | ErrWalk => findCSVFiles unicodeLower entries = None
  | ErrNoCSVFiles => findCSVFiles unicodeLower entries = Some []
  | ErrNoQuotes =>
      exists csvFiles,
        findCSVFiles unicodeLower entries = Some csvFiles /\
        forall path, In path csvFiles -> quotesIn openFile path = []
  | SamplePanic =>
      exists csvFiles path file,
        findCSVFiles unicodeLower entries = Some csvFiles /\
        In path csvFiles /\ openFile path = Some file /\
        Csv.ReadAll file = Ok []
  | SampleOutOfFuel => False
  end.
Proof.
  intros Hint. unfold getRandomQuote.
  destruct (findCSVFiles unicodeLower entries) as [csvFiles|]; [|reflexivity].
  destruct (Z.eqb_spec (len csvFiles) 0) as [Z0|Z0].
  { destruct csvFiles; [reflexivity|].
    unfold len in Z0; cbn [length] in Z0; lia. }
  pose proof (poolQuotes_spec csvFiles []) as P.
  destruct (poolQuotes openFile csvFiles []) as [all| | |];
    try contradiction.
  - cbn [app] in P.
    destruct (Z.eqb_spec (len all) 0) as [A0|A0].
    + exists csvFiles. split; [reflexivity|]. intros path Hp.
      destruct all; [|unfold len in A0; cbn [length] in A0; lia].
      destruct (quotesIn openFile path) as [|q qs] eqn:Q; [reflexivity|].
      assert (In q (concat (map (quotesIn openFile) csvFiles))).
      { apply in_concat. exists (quotesIn openFile path).
        split; [apply in_map; exact Hp|rewrite Q; left; reflexivity]. }
      rewrite <- P in H. destruct H.
    + pose proof (len_nonneg all).
      destruct (index_some all (intn (len all))) as [q Hq];
        [apply Hint; lia|].
      rewrite Hq. apply index_In in Hq. rewrite P in Hq.
      apply in_concat in Hq as [qs [Hqs Hq]].
      apply in_map_iff in Hqs as [path [<- Hp]].
      exists csvFiles, path. auto.
  - destruct P as [path [file [H1 [H2 H3]]]].
    exists csvFiles, path, file. auto.
Qed.

(** X8: one CSV file that opens and holds no record, such as an empty
    file, makes [getRandomQuote] panic, whatever the other files
    hold. *)
Theorem getRandomQuote_empty_file_panics (entries : list walkEntry)
  (csvFiles : list gostring) (path file : gostring) :
  findCSVFiles unicodeLower entries = Some csvFiles ->
  In path csvFiles -> openFile path = Some file ->
  Csv.ReadAll file = Ok [] ->
  getRandomQuote unicodeLower openFile intn entries = SamplePanic.
Proof.
  intros F Hp O R. unfold getRandomQuote. rewrite F.
  destruct (Z.eqb_spec (len csvFiles) 0) as [Z0|Z0].
  { destruct csvFiles; [destruct Hp|].
    unfold len in Z0; cbn [length] in Z0; lia. }
  assert (P : forall all, poolQuotes openFile csvFiles all = Panic).
  { clear Z0 F. induction csvFiles as [|p csvFiles IH]; [destruct Hp|].
    intros all. cbn [poolQuotes].
    destruct Hp as [->|Hp].
    - rewrite O. unfold readQuotesFromCSV. rewrite R. reflexivity.
    - destruct (openFile p) as [f|]; [|apply IH; exact Hp].
      pose proof (readQuotes_outcome f) as Rf.
      destruct (readQuotesFromCSV f); auto. contradiction. }
  rewrite P. reflexivity.
Qed.

End SamplerProperties.

(** ** The sampler on the files of the extractor *)

Section SamplerOnWritten.

Variable unicodeLower : gostring -> gostring.
Variable openFile : gostring -> option gostring.
Variable intn : Z -> Z.

(** X9: let every CSV file found be a file as the extractor leaves it:
    the header row and the rows of some quotes.  Then [getRandomQuote]
    does not panic; it returns one of these quotes, with its fields
    sanitised, or the error for no quotes when no file holds a quote. *)
Theorem getRandomQuote_of_written (entries : list walkEntry)
  (csvFiles : list gostring) (written : gostring -> list Quote) :
  (forall n, 0 < n -> 0 <= intn n < n) ->
  findCSVFiles unicodeLower entries = Some csvFiles ->
  (forall path, In path csvFiles ->
     openFile path = Some (appendToCSV initCSV (written path))) ->
  match getRandomQuote unicodeLower openFile intn entries with
  | Sampled q' =>
      exists path q,
        In path csvFiles /\ In q (written path) /\ q' = sanitizeQuote q
  | ErrNoQuotes => forall path, In path csvFiles -> written path = []
  | ErrNoCSVFiles => csvFiles = []
  | _ => False
  end.
Proof.
  intros Hint F W. unfold getRandomQuote. rewrite F.
  destruct (Z.eqb_spec (len csvFiles) 0) as [Z0|Z0].
  { destruct csvFiles; [reflexivity|].
    unfold len in Z0; cbn [length] in Z0; lia. }
  assert (Q : forall path, In path csvFiles ->
                quotesIn openFile path = map sanitizeQuote (written path)).
  { intros path Hp. unfold quotesIn.
    rewrite (W path Hp), csv_round_trip_sanitized. reflexivity. }
  pose proof (poolQuotes_spec openFile csvFiles []) as P.
  destruct (poolQuotes openFile csvFiles []) as [all| | |];
    try contradiction.
  - cbn [app] in P.
    destruct (Z.eqb_spec (len all) 0) as [A0|A0].
    + intros path Hp.
      destruct all; [|unfold len in A0; cbn [length] in A0; lia].
      destruct (written path) as [|q qs] eqn:E; [reflexivity|].
      assert (In (sanitizeQuote q)
                (concat (map (quotesIn openFile) csvFiles))).
      { apply in_concat. exists (quotesIn openFile path).
        split; [apply in_map; exact Hp|].
        rewrite (Q path Hp), E. left; reflexivity. }
      rewrite <- P in H. destruct H.
    + pose proof (len_nonneg all).
      destruct (index_some all (intn (len all))) as [q Hq];
        [apply Hint; lia|].
      rewrite Hq. apply index_In in Hq. rewrite P in Hq.
      apply in_concat in Hq as [qs [Hqs Hq]].
      apply in_map_iff in Hqs as [path [<- Hp]].
      rewrite (Q path Hp) in Hq. apply in_map_iff in Hq as [q0 [<- Hq0]].
      exists path, q0. auto.
  - destruct P as [path [file [Hp [O R]]]].
    rewrite (W path Hp) in O. injection O as <-.
    pose proof (csv_round_trip_sanitized (written path)) as RT.
    unfold readQuotesFromCSV in RT. rewrite R in RT. discriminate RT.
Qed.

End SamplerOnWritten.

(** ** The search for the CSV files *)

Lemma lowerByte_keeps (c : byte) :
  StringsMore.isUpper c = false -> StringsMore.lowerByte c = c.
Proof. unfold StringsMore.lowerByte. intros ->. reflexivity. Qed.

Lemma ToLower_ascii (unicodeLower : gostring -> gostring) (s : gostring) :
  asciiName s = true ->
  StringsMore.ToLower unicodeLower s = map StringsMore.lowerByte s.
Proof.
  unfold asciiName, StringsMore.ToLower. intros ->.
  destruct (existsb StringsMore.isUpper s) eqn:E; [reflexivity|].
  rewrite <- (map_id s) at 1. apply map_ext_in. intros c Hc.
  symmetry. apply lowerByte_keeps. eapply existsb_false; eauto.
Qed.

Lemma lowerByte_period (e : byte) :
  StringsMore.lowerByte e = "."%byte -> e = "."%byte.
Proof.
  unfold StringsMore.lowerByte.
  destruct (StringsMore.isUpper e) eqn:U; [|auto].
  unfold StringsMore.isUpper in U.
  apply andb_true_iff in U as [U1 U2].
  apply Z.leb_le in U1. apply Z.leb_le in U2.
  change (b2z "A"%byte) with 65 in *. change (b2z "Z"%byte) with 90 in *.
  change (b2z "a"%byte) with 97. intros H.
  apply (f_equal b2z) in H. rewrite b2z_z2b in H.
  change (b2z "."%byte) with 46 in H.
  rewrite Z.mod_small in H by lia. lia.
Qed.

Lemma csvName_spec (name : gostring) :
  Strings.HasSuffix (map StringsMore.lowerByte name) (str ".csv") = true <->
  csvName name.
Proof.
  rewrite HasSuffix_spec. unfold csvName. split.
  - intros [pre E].
    apply map_eq_app in E as [stem [ext [-> [_ E]]]].
    destruct ext as [|e0 [|e1 [|e2 [|e3 [|e4 ext]]]]]; try discriminate E.
    cbn in E. injection E as E0 E1 E2 E3.
    apply lowerByte_period in E0 as ->.
    exists stem, e1, e2, e3. auto.
  - intros [stem [e1 [e2 [e3 [-> [E1 [E2 E3]]]]]]].
    exists (map StringsMore.lowerByte stem).
    rewrite map_app. cbn [map]. rewrite E1, E2, E3. reflexivity.
Qed.

Section Search.

Variable unicodeLower : gostring -> gostring.

Lemma walkCSV_error (entries : list walkEntry) :
  existsb entryErr entries = true ->
  forall csvFiles, walkCSV unicodeLower entries csvFiles = None.
Proof.
  induction entries as [|e entries IH]; [discriminate|].
  cbn [existsb walkCSV]. intros H csvFiles.
  destruct (entryErr e); [reflexivity|]. cbn [orb] in H.
  destruct (_ && _); apply IH; exact H.
Qed.

Lemma walkCSV_filter (entries : list walkEntry) :
  Forall (fun e => entryErr e = false /\ asciiName (entryName e) = true)
    entries ->
  forall csvFiles,
    walkCSV unicodeLower entries csvFiles =
    Some (csvFiles ++
          map entryPath
            (filter (fun e =>
                       negb (entryIsDir e)
                       && Strings.HasSuffix
                            (map StringsMore.lowerByte (entryName e))
                            (str ".csv")) entries)).
Proof.
  induction 1 as [|e entries [He Ha] _ IH]; intros csvFiles.
  - cbn. rewrite app_nil_r. reflexivity.
  - cbn [walkCSV filter]. rewrite He, (ToLower_ascii _ _ Ha).
    destruct (_ && _).
    + rewrite IH, <- app_assoc. reflexivity.
    + apply IH.
Qed.

(** X10: [findCSVFiles] gives up with an error, and with no file, as
    soon as the walk hands it one.  On a walk without errors, where
    the names are ASCII, it returns the paths, in the order of the
    walk, of the entries that are no directories and whose names end
    in [.csv], in upper or lower case letters. *)
Theorem findCSVFiles_selects (entries : list walkEntry) :
  (existsb entryErr entries = true ->
   findCSVFiles unicodeLower entries = None) /\
  (Forall (fun e => entryErr e = false /\ asciiName (entryName e) = true)
     entries ->
   exists selects,
     findCSVFiles unicodeLower entries =
       Some (map entryPath (filter selects entries)) /\
     forall e, selects e = true <->
               entryIsDir e = false /\ csvName (entryName e)).
Proof.
  split.
  - intros H. apply walkCSV_error. exact H.
  - intros H. eexists. split.
    + unfold findCSVFiles. rewrite walkCSV_filter by exact H. reflexivity.
    + intros e. cbv beta.
      rewrite andb_true_iff, negb_true_iff, csvName_spec. reflexivity.
Qed.

End Search.

(** ** The records of a file have the width of its first record *)

(** The two loops of a record add at least one field. *)
Lemma parse_adds (fuel : nat) :
  (forall line rest fields,
     match Csv.parseField fuel line rest fields with
     | Ok (dst, _) => (length fields < length dst)%nat
     | _ => True
     end) /\
  (forall line rest fields buf,
     match Csv.parseQuoted fuel line rest fields buf with
     | Ok (dst, _) => (length fields < length dst)%nat
     | _ => True
     end).
Proof.
  induction fuel as [|fuel [IHf IHq]]; [split; intros; exact I|]. split.
  - intros line rest fields. cbn [Csv.parseField].
    set (line1 := Csv.trimLeadingSpace line).
    assert (Bare :
      match
        (let i := Csv.IndexByte line1 Csv.Comma in
         let field :=
           if i >=? 0 then firstn (Z.to_nat i) line1
           else firstn (Z.to_nat (len line1 - Csv.lengthNL line1)) line1 in
         if Csv.IndexByte field Csv.quote >=? 0 then Failed ErrBareQuote
         else if i >=? 0
         then Csv.parseField fuel (skipn (Z.to_nat (i + 1)) line1) rest
                (fields ++ [field])
         else Ok (fields ++ [field], rest))
      with
      | Ok (dst, _) => (length fields < length dst)%nat
      | _ => True
      end).
    { cbv zeta. destruct (Csv.IndexByte _ Csv.quote >=? 0); [exact I|].
      destruct (Csv.IndexByte line1 Csv.Comma >=? 0).
      - match goal with
        | |- context [Csv.parseField fuel ?l ?r ?f] =>
            specialize (IHf l r f);
            destruct (Csv.parseField fuel l r f) as [[dst rest']| | |];
            auto
        end.
        rewrite length_app in IHf. cbn [length] in IHf. lia.
      - rewrite length_app. cbn [length]. lia. }
    destruct line1 as [|b line2]; [exact Bare|].
    destruct (Byte.eqb b Csv.quote); [|exact Bare].
    apply IHq.
  - intros line rest fields buf. cbn [Csv.parseQuoted].
    destruct (Csv.IndexByte line Csv.quote >=? 0).
    + set (line1 := skipn _ line).
      destruct (Csv.nextRune line1 =? b2z Csv.quote); [apply IHq|].
      destruct (Csv.nextRune line1 =? b2z Csv.Comma).
      * match goal with
        | |- context [Csv.parseField fuel ?l ?r ?f] =>
            specialize (IHf l r f);
            destruct (Csv.parseField fuel l r f) as [[dst rest']| | |];
            auto
        end.
        rewrite length_app in IHf. cbn [length] in IHf. lia.
      * destruct (Csv.lengthNL line1 =? len line1); [|exact I].
        rewrite length_app. cbn [length]. lia.
    + destruct (len line >? 0); [|exact I].
      destruct (Csv.readLine rest) as [[line' rest'] eof'].
      apply IHq.
Qed.

Lemma readRecord_width (fuel : nat) (input : gostring) (fieldsPerRecord : Z) :
  0 <= fieldsPerRecord ->
  match Csv.readRecord fuel input fieldsPerRecord with
  | Ok (Some (dst, _, fpr)) =>
      0 < fpr /\ len dst = fpr /\
      (0 < fieldsPerRecord -> fpr = fieldsPerRecord)
  | _ => True
  end.
Proof.
  intros H. unfold Csv.readRecord.
  destruct (Csv.nextLine fuel input) as [[[line rest]|]| | |]; auto.
  pose proof (proj1 (parse_adds fuel) line rest []) as P.
  destruct (Csv.parseField fuel line rest []) as [[dst rest']| | |]; auto.
  cbn [length] in P.
  assert (0 < len dst) by (unfold len; lia).
  destruct (Z.gtb_spec fieldsPerRecord 0) as [G|G].
  - destruct (Z.eqb_spec (len dst) fieldsPerRecord) as [E|E]; cbn [negb];
      [|exact I].
    split; [lia|]. split; [exact E|reflexivity].
  - assert (fieldsPerRecord = 0) as -> by lia.
    cbn. split; [exact H0|]. split; [reflexivity|lia].
Qed.

Lemma readAllFrom_width (fuel : nat) :
  forall input fieldsPerRecord read records,
    0 < fieldsPerRecord ->
    Csv.readAllFrom fuel input fieldsPerRecord read = Ok records ->
    exists more,
      records = read ++ more /\
      Forall (fun r => len r = fieldsPerRecord) more.
Proof.
  induction fuel as [|fuel IH]; intros input fpr read records Hp;
    [discriminate|].
  cbn [Csv.readAllFrom].
  pose proof (readRecord_width (S (length input)) input fpr ltac:(lia)) as R.
  destruct (Csv.readRecord (S (length input)) input fpr)
    as [[[[record rest] fpr']|]| | |]; try discriminate.
  - destruct R as [R1 [R2 R3]]. specialize (R3 Hp).
    rewrite R3 in R2 |- *. clear R1 R3. intros H.
    apply IH in H as [more [-> Hm]]; [|exact Hp].
    exists (record :: more). rewrite <- app_assoc. split; [reflexivity|].
    constructor; auto.
  - intros [= <-]. exists []. rewrite app_nil_r. auto.
Qed.

Lemma ReadAll_width (input : gostring) (hdr : list gostring)
  (rows : list (list gostring)) :
  Csv.ReadAll input = Ok (hdr :: rows) ->
  0 < len hdr /\ Forall (fun r => len r = len hdr) rows.
Proof.
  unfold Csv.ReadAll. cbn [Csv.readAllFrom].
  pose proof (readRecord_width (S (length input)) input 0 ltac:(lia)) as R.
  destruct (Csv.readRecord (S (length input)) input 0)
    as [[[[record rest] fpr']|]| | |]; try discriminate.
  destruct R as [R1 [R2 _]]. intros H.
  apply readAllFrom_width in H as [more [E Hm]]; [|exact R1].
  cbn [app] in E. injection E as <- <-. rewrite R2. auto.
Qed.

Lemma dropHeader_cons (hdr : list gostring) (rows : list (list gostring)) :
  dropHeader (hdr :: rows) = Ok rows.
Proof.
  unfold dropHeader, slice.
  replace ((0 <=? 1) && (1 <=? len (hdr :: rows))
           && (len (hdr :: rows) <=? len (hdr :: rows))) with true.
  2:{ symmetry. rewrite !andb_true_iff, !Z.leb_le.
      rewrite len_cons. pose proof (len_nonneg rows). lia. }
  change (Z.to_nat 1) with 1%nat. cbn [skipn].
  rewrite len_cons. replace (len rows + 1 - 1) with (len rows) by lia.
  unfold len. rewrite Nat2Z.id, firstn_all. reflexivity.
Qed.

(** X11: the reader is left with [FieldsPerRecord] zero, so the first
    record of a file sets the number of fields of all of them: when
    the parse succeeds, every row has as many fields as the header
    row, and that is one at least.  The test for rows of fewer than
    four fields therefore passes over all the rows or none:
    [readQuotesFromCSV] returns no quote when the header has fewer
    than four fields, and one quote for every row otherwise. *)
Theorem readQuotes_all_rows_or_none (file : gostring)
  (hdr : list gostring) (rows : list (list gostring)) :
  Csv.ReadAll file = Ok (hdr :: rows) ->
  0 < len hdr /\ Forall (fun r => len r = len hdr) rows /\
  readQuotesFromCSV file =
    Ok (if len hdr <? 4 then [] else map quoteOfRecord rows).
Proof.
  intros H. destruct (ReadAll_width file hdr rows H) as [Hp Hw].
  split; [exact Hp|]. split; [exact Hw|].
  unfold readQuotesFromCSV. rewrite H, dropHeader_cons.
  rewrite quotesOfRows_spec. cbn [app]. f_equal.
  destruct (Z.ltb_spec (len hdr) 4) as [L|L].
  - replace (filter (fun r => 4 <=? len r) rows) with (@nil (list gostring));
      [reflexivity|].
    symmetry. clear H. induction Hw as [|r rows Hr _ IH]; [reflexivity|].
    cbn [filter]. destruct (Z.leb_spec 4 (len r)); [lia|exact IH].
  - f_equal. clear H. induction Hw as [|r rows Hr _ IH]; [reflexivity|].
    cbn [filter]. destruct (Z.leb_spec 4 (len r)); [|lia].
    rewrite IH. reflexivity.
Qed.

(** ** Trimming keeps a last byte that is no space *)

Lemma index_last (u : gostring) (d : byte) :
  index (u ++ [d]) (len (u ++ [d]) - 1) = Some d.
Proof.
  replace (len (u ++ [d]) - 1) with (Z.of_nat (length u))
    by (unfold len; rewrite length_app; cbn [length]; lia).
  apply index_nth_error.
  rewrite nth_error_app2, Nat.sub_diag by lia. reflexivity.
Qed.

Lemma TrimRightFunc_last (u : gostring) (d : byte) :
  b2z d < 128 -> Strings.asciiSpace d = false ->
  Strings.TrimRightFunc (u ++ [d]) Unicode.IsSpace = u ++ [d].
Proof.
  intros Hd Sd. set (y := u ++ [d]).
  assert (Hlen : 1 <= len y).
  { subst y. rewrite len_app. pose proof (len_nonneg u).
    unfold len at 2. cbn [length]. lia. }
  assert (Hi : index y (len y - 1) = Some d) by apply index_last.
  assert (L : Strings.lastIndexNotFunc Unicode.IsSpace y = len y - 1).
  { unfold Strings.lastIndexNotFunc. cbn [Strings.lastIndexNotFrom].
    destruct (Z.gtb_spec (len y) 0); [|lia].
    unfold len at 1. rewrite Nat2Z.id, firstn_all.
    unfold Utf8.DecodeLastRune.
    destruct (Z.eqb_spec (len y) 0); [lia|].
    rewrite Hi. unfold Utf8.RuneSelf.
    destruct (Z.ltb_spec (b2z d) 128); [|lia].
    rewrite asciiSpace_IsSpace, Sd by exact Hd. reflexivity. }
  unfold Strings.TrimRightFunc. rewrite L, Hi.
  unfold Utf8.RuneSelf.
  destruct (Z.leb_spec 128 (b2z d)); [lia|]. rewrite andb_false_r.
  replace (len y - 1 + 1) with (len y) by lia.
  unfold len. rewrite Nat2Z.id. apply firstn_all.
Qed.

(** The first rune that is no space is found before a last byte that
    is an ASCII byte and no space, or is that byte. *)
Lemma indexNotFunc_last (d : byte) (fuel : nat) :
  b2z d < 128 -> Strings.asciiSpace d = false ->
  forall (t : gostring) (off : Z),
    (length (t ++ [d]) <= fuel)%nat ->
    exists k, (k <= length t)%nat /\
      Strings.indexNotFunc Unicode.IsSpace
        (Utf8.rangeFrom fuel off (t ++ [d])) = off + Z.of_nat k.
Proof.
  intros Hd Sd. induction fuel as [|fuel IH]; intros t off Hf.
  - rewrite length_app in Hf. cbn [length] in Hf. lia.
  - destruct (t ++ [d]) as [|b s'] eqn:E; [destruct t; discriminate E|].
    destruct (Utf8.DecodeRune (b :: s')) as [r w] eqn:D.
    rewrite (rangeFrom_step _ _ _ _ _ _ D).
    cbn [Strings.indexNotFunc].
    destruct (Unicode.IsSpace r) eqn:Sr; cbn [negb].
    2:{ exists 0%nat. split; [lia|]. cbn. lia. }
    pose proof (DecodeRune_decodes _ _ _ _ D) as Dec.
    destruct (decodes_width _ _ _ Dec) as [Hw1 Hw2].
    destruct t as [|c t'].
    { cbn in E. injection E as <- <-.
      rewrite DecodeRune_ascii in D by exact Hd. injection D as <- <-.
      rewrite asciiSpace_IsSpace in Sr by exact Hd. congruence. }
    assert (Hwt : (Z.to_nat w <= length (c :: t'))%nat).
    { destruct (Nat.le_gt_cases (Z.to_nat w) (length (c :: t')))
        as [L|G]; [exact L|].
      pose proof (decodes_tail_not_ascii _ _ _ Dec (length (c :: t')) d)
        as T.
      rewrite <- E in T.
      rewrite nth_error_app2, Nat.sub_diag in T by lia.
      specialize (T ltac:(cbn [length] in *; lia) eq_refl). lia. }
    rewrite <- E, skipn_app.
    replace (Z.to_nat w - length (c :: t'))%nat with 0%nat by lia.
    cbn [skipn].
    destruct (IH (skipn (Z.to_nat w) (c :: t')) (off + w)) as [k [Hk Ek]].
    { rewrite length_app, length_skipn. cbn [length] in *.
      apply (f_equal (@length byte)) in E.
      rewrite length_app in E. cbn [length] in E. lia. }
    exists (Z.to_nat w + k)%nat. rewrite length_skipn in Hk.
    split; [lia|]. rewrite Ek. lia.
Qed.

Lemma TrimSpace_last (t : gostring) (d : byte) :
  b2z d < 128 -> Strings.asciiSpace d = false ->
  exists u, Strings.TrimSpace (t ++ [d]) = u ++ [d].
Proof.
  intros Hd Sd. induction t as [|c t IH].
  - exists []. cbn [app Strings.TrimSpace]. unfold Utf8.RuneSelf.
    destruct (Z.leb_spec 128 (b2z d)); [lia|]. rewrite Sd.
    apply (trimSpaceStop_trailing [] d [] Hd Sd (Forall_nil _) 0%nat).
    cbn; lia.
  - cbn [app Strings.TrimSpace].
    destruct (Z.leb_spec Utf8.RuneSelf (b2z c)) as [A|A].
    + unfold Strings.TrimFunc, Strings.TrimLeftFunc, Utf8.range.
      destruct (indexNotFunc_last d (length (c :: t ++ [d])) Hd Sd
                  (c :: t) 0 (le_n _)) as [k [Hk Ek]].
      cbn [app] in Ek. rewrite Ek.
      destruct (Z.eqb_spec (0 + Z.of_nat k) (-1)); [lia|].
      replace (Z.to_nat (0 + Z.of_nat k)) with k by lia.
      change (c :: t ++ [d]) with ((c :: t) ++ [d]).
      rewrite skipn_app.
      replace (k - length (c :: t))%nat with 0%nat by lia.
      cbn [skipn]. exists (skipn k (c :: t)).
      apply TrimRightFunc_last; assumption.
    + destruct (Strings.asciiSpace c) eqn:Sc; [exact IH|].
      exists (c :: t).
      change (c :: t ++ [d]) with ((c :: t) ++ [d]).
      replace (length ((c :: t) ++ [d])) with (S (length (c :: t)) + 0)%nat
        by (rewrite length_app; cbn [length]; lia).
      apply (trimSpaceStop_trailing (c :: t) d [] Hd Sd (Forall_nil _) 0%nat).
      cbn; lia.
Qed.

(** ** The sentences end where the splitter cut *)

Lemma isTerminator_byte (r : Z) :
  isTerminator r = true ->
  exists c, r = b2z c /\ b2z c < 128 /\ Strings.asciiSpace c = false.
Proof.
  unfold isTerminator, rune. rewrite !orb_true_iff, !Z.eqb_eq.
  intros [[-> | ->] | ->];
    [exists "."%byte|exists "!"%byte|exists "?"%byte];
    repeat split; cbn; lia.
Qed.

Lemma splitStep_ends (text : gostring) (st : splitState) (ir : Z * Z) :
  Forall endsSentence (sentences st) ->
  Forall endsSentence (sentences (splitStep text st ir)).
Proof.
  intros H. destruct ir as [i r]. unfold splitStep.
  destruct (isTerminator r) eqn:T; cbn [andb]; [|exact H].
  destruct (_ =? 0); [|exact H].
  destruct (_ && _ && _); [exact H|]. cbn [sentences].
  destruct (isTerminator_byte r T) as [c [-> [Hc Sc]]].
  rewrite EncodeRune_1 by exact Hc.
  destruct (TrimSpace_last (sb st) c Hc Sc) as [u ->].
  rewrite emit_filter.
  apply Forall_app. split; [exact H|].
  cbn [filter]. destruct (u ++ [c]) as [|b v] eqn:E;
    [destruct u; discriminate E|].
  cbn [nonEmpty]. rewrite <- E.
  constructor; [|constructor]. exists u, c. auto.
Qed.

Lemma scan_ends (text : gostring) (rs : list (Z * Z)) :
  forall st,
    Forall endsSentence (sentences st) ->
    Forall endsSentence (sentences (fold_left (splitStep text) rs st)).
Proof.
  induction rs as [|ir rs IH]; intros st H; [exact H|].
  cbn [fold_left]. apply IH, splitStep_ends, H.
Qed.

(** X12: every sentence that [splitSentences] returns, but for the
    last one, ends with the period, exclamation mark or question mark
    at which the text was cut; only the rest of the text after the
    last cut, when there is one, can end otherwise. *)
Theorem split_sentences_end_with_terminator (text : gostring) :
  exists front last,
    splitSentences text = front ++ last /\
    (length last <= 1)%nat /\
    Forall endsSentence front.
Proof.
  exists (sentences (splitScan text)),
    (filter nonEmpty [Strings.TrimSpace (sb (splitScan text))]).
  split; [|split].
  - unfold splitSentences. rewrite splitFlush_emit. apply emit_filter.
  - cbn. destruct (nonEmpty _); cbn; lia.
  - apply scan_ends. constructor.
Qed.

(** ** A text without a terminator *)

Lemma range_small_rune (fuel : nat) :
  forall (s : gostring) (i0 i r : Z),
    In (i, r) (Utf8.rangeFrom fuel i0 s) -> r < 128 ->
    exists b, In b s /\ b2z b = r.
Proof.
  induction fuel as [|fuel IH]; intros s i0 i r H Hr; [destruct H|].
  destruct s as [|b s']; [destruct H|].
  destruct (Utf8.DecodeRune (b :: s')) as [r0 w] eqn:D.
  rewrite (rangeFrom_step _ _ _ _ _ _ D) in H.
  destruct H as [H|H].
  - injection H as <- <-.
    pose proof (DecodeRune_decodes _ _ _ _ D) as Dec.
    inversion Dec; subst; try lia.
    + exists b. split; [left; reflexivity|reflexivity].
    + unfold Utf8.RuneError in Hr. lia.
  - destruct (IH _ _ _ _ H Hr) as [c [Hc E]].
    exists c. split; [|exact E].
    rewrite <- (firstn_skipn (Z.to_nat w) (b :: s')).
    apply in_or_app. right. exact Hc.
Qed.

Lemma scan_no_terminator (text : gostring) (rs : list (Z * Z)) :
  (forall ir, In ir rs -> isTerminator (snd ir) = false) ->
  forall st,
    sentences (fold_left (splitStep text) rs st) = sentences st /\
    sb (fold_left (splitStep text) rs st) =
    sb st ++ concat (map (fun ir => Utf8.EncodeRune (snd ir)) rs).
Proof.
  induction rs as [|[i r] rs IH]; intros H st.
  - cbn. rewrite app_nil_r. auto.
  - cbn [fold_left map concat snd].
    destruct (IH (fun ir Hir => H ir (or_intror Hir))
                (splitStep text st (i, r))) as [Hs Hb].
    rewrite Hs, Hb. unfold splitStep.
    pose proof (H (i, r) (or_introl eq_refl)) as T. cbn [snd] in T.
    rewrite T. cbn [andb sentences sb].
    rewrite <- app_assoc. auto.
Qed.

(** X13: a text that holds none of the bytes [.], [!] and [?] is not
    cut, whatever brackets it holds: it comes back as one sentence, the
    whole text as the [range] loop read it, trimmed, or as no sentence
    when that is empty. *)
Theorem split_without_terminator (text : gostring) :
  forallb (fun b => negb (isTerminator (b2z b))) text = true ->
  splitSentences text =
  filter nonEmpty [Strings.TrimSpace (recode text)].
Proof.
  intros H. rewrite forallb_forall in H.
  destruct (scan_no_terminator text (Utf8.range text)) with (st := splitInit)
    as [Hs Hb].
  { intros [i r] Hir. cbn [snd].
    destruct (isTerminator r) eqn:T; [|reflexivity].
    destruct (isTerminator_byte r T) as [c [-> [Hc _]]].
    destruct (range_small_rune _ _ _ _ _ Hir Hc) as [b [Hb Eb]].
    specialize (H b Hb). rewrite Eb, T in H. discriminate H. }
  unfold splitSentences. rewrite splitFlush_emit, emit_filter.
  unfold splitScan. rewrite Hs, Hb. reflexivity.
Qed.

(** ** An empty candidate *)

(** X14: the empty string is contained in every sentence, so an empty
    candidate of the model is verified as soon as there is a sentence:
    it is returned as a quote with an empty text, found at the first
    sentence, with no context before and with the second and the
    third sentence as the context after. *)
Theorem verify_empty_candidate (sentences : list gostring)
  (author : gostring) :
  sentences <> [] ->
  verifyAndExtractContext sentences [] author =
  Some (mkQuote [] author []
          (Strings.Join (firstn 2 (tl sentences)) (str " ")), true).
Proof.
  intros Hne. destruct sentences as [|s rest]; [contradiction|].
  unfold verifyAndExtractContext.
  assert (C : Strings.Contains s [] = true).
  { apply Contains_spec. exists [], s. reflexivity. }
  change 0 with (Z.of_nat 0).
  rewrite (verifyLoop_hit (s :: rest) [] author 0 s eq_refl C rest).
  cbn [tl]. do 3 f_equal.
  unfold window, ctxEnd, len. cbn [length skipn Nat.add].
  destruct (Nat.le_gt_cases 2 (length rest)) as [L|G].
  - replace (Z.to_nat (Z.min (Z.of_nat (S (length rest))) (Z.of_nat 0 + 3))
             - 1)%nat with 2%nat by lia.
    reflexivity.
  - rewrite !firstn_all2 by lia. reflexivity.
Qed.

(** ** The output file is not the input file *)

(** X15: the name of the output file ends in [.csv] and is never the
    name of the input file, so that creating the output does not
    truncate the text that is being read. *)
Theorem outputFile_is_not_input (filePath : gostring) :
  Strings.HasSuffix (outputFile filePath) (str ".csv") = true /\
  outputFile filePath <> filePath.
Proof.
  unfold outputFile. split.
  - apply HasSuffix_spec. eexists. reflexivity.
  - unfold Strings.TrimSuffix.
    destruct (Strings.HasSuffix filePath (str ".txt")) eqn:E.
    + apply HasSuffix_spec in E as [pre ->].
      rewrite length_app, Nat.add_sub, firstn_app, Nat.sub_diag, firstn_all.
      cbn [firstn]. rewrite app_nil_r. intros H.
      apply app_inv_head in H. discriminate H.
    + intros H. apply (f_equal (@length byte)) in H.
      rewrite length_app in H. cbn in H. lia.
Qed.

(** ** Appending in several calls *)

(** X16: the file after two calls of [appendToCSV] is the file after
    one call with the two batches of quotes one after the other; a
    call with no quotes leaves the file as it is. *)
Theorem appendToCSV_in_batches (file : gostring) (a b : list Quote) :
  appendToCSV (appendToCSV file a) b = appendToCSV file (a ++ b) /\
  appendToCSV file [] = file.
Proof.
  split; [|reflexivity].
  rewrite !appendToCSV_concat, map_app, concat_app, app_assoc.
  reflexivity.
Qed.

Lemma sanitize_twice (f : gostring) : sanitize (sanitize f) = sanitize f.
Proof. apply sanitize_id, sanitize_clean. Qed.

(** X17: writing, reading and writing again gives the same file: the
    quotes read back from a file of the extractor, appended to a new
    file with the header row, give that file byte for byte. *)
Theorem csv_write_read_write (quotes : list Quote) :
  exists quotes',
    readQuotesFromCSV (appendToCSV initCSV quotes) = Ok quotes' /\
    appendToCSV initCSV quotes' = appendToCSV initCSV quotes.
Proof.
  exists (map sanitizeQuote quotes).
  split; [apply csv_round_trip_sanitized|].
  rewrite !appendToCSV_concat. f_equal. rewrite map_map. f_equal.
  apply map_ext. intros q. unfold quoteRecord, sanitizeQuote.
  cbn [Text Author ContextBefore ContextAfter].
  rewrite !sanitize_twice. reflexivity.
Qed.

(** ** A file of one block, and a model that fails *)

Section SmallFile.

Variable generateContent : nat -> gostring -> option gostring.
Variable jsonUnmarshal : gostring -> option (list gostring).

Lemma processLines_small (author : gostring) (lines : list gostring) :
  forall st,
    len (block st ++ textOf lines) <= maxBlockSize ->
    processLines generateContent jsonUnmarshal author st lines =
    Some (mkLoop (block st ++ textOf lines)
            (allSentences st ++ concat (map splitSentences lines))
            (loopRun st)).
Proof.
  induction lines as [|line lines IH]; intros st H.
  - cbn. rewrite !app_nil_r. destruct st; reflexivity.
  - cbn [processLines]. unfold processLine.
    change (textOf (line :: lines)) with ((line ++ [x0a]) ++ textOf lines)
      in H |- *.
    rewrite <- app_assoc in H. rewrite !len_app in H.
    pose proof (len_nonneg (textOf lines)).
    destruct (Z.gtb_spec (len (block st ++ line ++ [x0a])) maxBlockSize)
      as [G|G]; [rewrite !len_app in G; lia|].
    rewrite IH; cbn [block allSentences loopRun].
    + cbn [map concat]. rewrite <- !app_assoc. reflexivity.
    + rewrite <- !app_assoc, !len_app. lia.
Qed.

(** X18: a file whose lines, each with its newline, come to no more
    than 3000 bytes is handled by one call of [processBlock], made
    after the last line, with the whole text and with the sentences of
    all the lines. *)
Theorem processFile_one_block (lines : list gostring) (author : gostring) :
  lines <> [] -> len (textOf lines) <= maxBlockSize ->
  processFile generateContent jsonUnmarshal lines author =
  match processBlock generateContent jsonUnmarshal (textOf lines)
          (concat (map splitSentences lines)) author (mkRun initCSV [] [])
  with
  | BlockDone r | BlockAIError r => Some r
  | BlockPanic => None
  end.
Proof.
  intros Hne H. unfold processFile.
  rewrite processLines_small by exact H.
  cbn [block allSentences loopRun app].
  destruct (Z.gtb_spec (len (textOf lines)) 0) as [G|G]; [reflexivity|].
  apply textOf_empty in G. contradiction.
Qed.

Lemma processBlock_failed (text : gostring) (sentences : list gostring)
  (author : gostring) (st : run) :
  generateContent (length (requests st))
    (prompt ++ [x0a; x0a] ++ str "Текст:" ++ [x0a] ++ text) = None ->
  processBlock generateContent jsonUnmarshal text sentences author st =
  BlockAIError (mkRun (csv st) (allQuotes st) (requests st ++ [text])).
Proof.
  intros H. unfold processBlock, extractQuotesFromAI. rewrite H.
  reflexivity.
Qed.

Lemma processLines_failed (author : gostring) (lines : list gostring) :
  (forall call request, generateContent call request = None) ->
  forall st,
    csv (loopRun st) = initCSV -> allQuotes (loopRun st) = [] ->
    exists st',
      processLines generateContent jsonUnmarshal author st lines = Some st' /\
      csv (loopRun st') = initCSV /\ allQuotes (loopRun st') = [].
Proof.
  intros F. induction lines as [|line lines IH]; intros st Hc Hq.
  - exists st. auto.
  - cbn [processLines]. unfold processLine.
    destruct (_ >? maxBlockSize).
    + rewrite processBlock_failed by apply F. apply IH; assumption.
    + apply IH; assumption.
Qed.

(** X19: an error of the model does not end the run.  When every call
    of the model fails, [processFile] still returns [nil], having
    saved no quote, and the output file holds the header row alone. *)
Theorem processFile_model_fails (lines : list gostring) (author : gostring) :
  (forall call request, generateContent call request = None) ->
  exists st,
    processFile generateContent jsonUnmarshal lines author = Some st /\
    csv st = initCSV /\ allQuotes st = [].
Proof.
  intros F. unfold processFile.
  destruct (processLines_failed author lines F
              (mkLoop [] [] (mkRun initCSV [] [])) eq_refl eq_refl)
    as [st [-> [Hc Hq]]].
  destruct (_ >? 0).
  - rewrite processBlock_failed by apply F. eexists. split; [reflexivity|].
    auto.
  - exists (loopRun st). auto.
Qed.

End SmallFile.

(** ** The requests do not depend on the answers *)

Lemma processBlock_requests
  (generateContent : nat -> gostring -> option gostring)
  (jsonUnmarshal : gostring -> option (list gostring))
  (text : gostring) (sentences : list gostring) (author : gostring)
  (st : run) :
  exists r,
    (processBlock generateContent jsonUnmarshal text sentences author st
       = BlockDone r \/
     processBlock generateContent jsonUnmarshal text sentences author st
       = BlockAIError r) /\
    requests r = requests st ++ [text].
Proof.
  destruct (processBlock_run generateContent jsonUnmarshal text sentences
              author st) as [valid [aiQuotes [H _]]].
  cbv zeta in H. eexists. split; [exact H|]. reflexivity.
Qed.

Section TwoModels.

Variable generateContent1 generateContent2 : nat -> gostring -> option gostring.
Variable jsonUnmarshal1 jsonUnmarshal2 : gostring -> option (list gostring).

Lemma processLines_requests (author1 author2 : gostring)
  (lines : list gostring) :
  forall st1 st2,
    block st1 = block st2 ->
    requests (loopRun st1) = requests (loopRun st2) ->
    exists st1' st2',
      processLines generateContent1 jsonUnmarshal1 author1 st1 lines
        = Some st1' /\
      processLines generateContent2 jsonUnmarshal2 author2 st2 lines
        = Some st2' /\
      block st1' = block st2' /\
      requests (loopRun st1') = requests (loopRun st2').
Proof.
  induction lines as [|line lines IH]; intros st1 st2 Hb Hr.
  - exists st1, st2. auto.
  - cbn [processLines]. unfold processLine. rewrite Hb.
    destruct (_ >? maxBlockSize).
    + destruct (processBlock_requests generateContent1 jsonUnmarshal1
                  (block st2 ++ line ++ [x0a])
                  (allSentences st1 ++ splitSentences line) author1
                  (loopRun st1)) as [r1 [H1 R1]].
      destruct (processBlock_requests generateContent2 jsonUnmarshal2
                  (block st2 ++ line ++ [x0a])
                  (allSentences st2 ++ splitSentences line) author2
                  (loopRun st2)) as [r2 [H2 R2]].
      assert (E1 : match processBlock generateContent1 jsonUnmarshal1
                           (block st2 ++ line ++ [x0a])
                           (allSentences st1 ++ splitSentences line) author1
                           (loopRun st1) with
                   | BlockDone r | BlockAIError r =>
                       Some (mkLoop [] (allSentences st1
                                        ++ splitSentences line) r)
                   | BlockPanic => None
                   end =
                   Some (mkLoop [] (allSentences st1 ++ splitSentences line)
                           r1))
        by (destruct H1 as [-> | ->]; reflexivity).
      assert (E2 : match processBlock generateContent2 jsonUnmarshal2
                           (block st2 ++ line ++ [x0a])
                           (allSentences st2 ++ splitSentences line) author2
                           (loopRun st2) with
                   | BlockDone r | BlockAIError r =>
                       Some (mkLoop [] (allSentences st2
                                        ++ splitSentences line) r)
                   | BlockPanic => None
                   end =
                   Some (mkLoop [] (allSentences st2 ++ splitSentences line)
                           r2))
        by (destruct H2 as [-> | ->]; reflexivity).
      rewrite E1, E2. apply IH; cbn [block loopRun]; [reflexivity|].
      rewrite R1, R2, Hr. reflexivity.
    + apply IH; cbn [block loopRun]; auto.
Qed.

(** X20: the texts that [processFile] sends to the model, and their
    order, are the same whatever the model answers, whether its calls
    fail or not, and whoever the author is: they depend on the lines
    of the file alone. *)
Theorem processFile_requests_independent (lines : list gostring)
  (author1 author2 : gostring) :
  exists st1 st2,
    processFile generateContent1 jsonUnmarshal1 lines author1 = Some st1 /\
    processFile generateContent2 jsonUnmarshal2 lines author2 = Some st2 /\
    requests st1 = requests st2.
Proof.
  unfold processFile.
  destruct (processLines_requests author1 author2 lines
              (mkLoop [] [] (mkRun initCSV [] []))
              (mkLoop [] [] (mkRun initCSV [] [])) eq_refl eq_refl)
    as [st1 [st2 [-> [-> [Hb Hr]]]]].
  rewrite Hb. destruct (_ >? 0).
  - destruct (processBlock_requests generateContent1 jsonUnmarshal1
                (block st2) (allSentences st1) author1 (loopRun st1))
      as [r1 [H1 R1]].
    destruct (processBlock_requests generateContent2 jsonUnmarshal2
                (block st2) (allSentences st2) author2 (loopRun st2))
      as [r2 [H2 R2]].
    exists r1, r2.
    split; [destruct H1 as [-> | ->]; reflexivity|].
    split; [destruct H2 as [-> | ->]; reflexivity|].
    rewrite R1, R2, Hr. reflexivity.
  - exists (loopRun st1), (loopRun st2). auto.
Qed.

End TwoModels.

(** ** The further properties at work on concrete inputs *)

Lemma cleanResponse_fenced_witness :
  let w1 := [x0a; x20] in
  let w2 := [x0d; x0a] in
  let body := [x0a] ++ str "[" ++ [x22] ++ str "Быть или не быть" ++ [x22]
              ++ str "]" ++ [x0a] in
  Forall (fun c => Strings.asciiSpace c = true) w1 /\
  Forall (fun c => Strings.asciiSpace c = true) w2 /\
  cleanResponse (w1 ++ (str "```json" ++ body ++ str "```") ++ w2) =
  Strings.TrimSpace body.
Proof.
  intros w1 w2 body.
  assert (H1 : Forall (fun c => Strings.asciiSpace c = true) w1)
    by (repeat constructor).
  assert (H2 : Forall (fun c => Strings.asciiSpace c = true) w2)
    by (repeat constructor).
  split; [exact H1|]. split; [exact H2|].
  apply (cleanResponse_fenced w1 w2 body H1 H2).
Defined.

Lemma cleanResponse_plain_witness :
  let w1 := [x20] in
  let w2 := [x0a] in
  let mid := [x22] ++ str "Раз" ++ [x22] in
  let c := "["%byte in
  let d := "]"%byte in
  (b2z c < 128 /\ Strings.asciiSpace c = false /\ c <> "`"%byte) /\
  (b2z d < 128 /\ Strings.asciiSpace d = false /\ d <> "`"%byte) /\
  Forall (fun c => Strings.asciiSpace c = true) w1 /\
  Forall (fun c => Strings.asciiSpace c = true) w2 /\
  cleanResponse (w1 ++ (c :: mid ++ [d]) ++ w2) = c :: mid ++ [d].
Proof.
  intros w1 w2 mid c d.
  assert (Hc : b2z c < 128) by (vm_compute; reflexivity).
  assert (Sc : Strings.asciiSpace c = false) by reflexivity.
  assert (Nc : c <> "`"%byte) by discriminate.
  assert (Hd : b2z d < 128) by (vm_compute; reflexivity).
  assert (Sd : Strings.asciiSpace d = false) by reflexivity.
  assert (Nd : d <> "`"%byte) by discriminate.
  assert (H1 : Forall (fun c => Strings.asciiSpace c = true) w1)
    by (repeat constructor).
  assert (H2 : Forall (fun c => Strings.asciiSpace c = true) w2)
    by (repeat constructor).
  split; [auto|]. split; [auto|]. split; [exact H1|]. split; [exact H2|].
  apply (cleanResponse_plain w1 w2 mid c d Hc Sc Nc Hd Sd Nd H1 H2).
Defined.

Lemma getRandomQuote_cases_witness :
  let unicodeLower := fun s : gostring => s in
  let quote := mkQuote (str "Раз.") (str "Автор") [] (str "Два.") in
  let openFile := fun _ : gostring => Some (appendToCSV initCSV [quote]) in
  let intn := fun n : Z => n - 1 in
  let entries := [mkEntry (str "q") (str "q") true false;
                  mkEntry (str "q/a.CSV") (str "a.CSV") false false] in
  (forall n, 0 < n -> 0 <= intn n < n) /\
  getRandomQuote unicodeLower openFile intn entries = Sampled quote /\
  exists csvFiles path,
    findCSVFiles unicodeLower entries = Some csvFiles /\
    In path csvFiles /\ In quote (quotesIn openFile path).
Proof.
  intros unicodeLower quote openFile intn entries.
  assert (H : forall n, 0 < n -> 0 <= intn n < n)
    by (intros n Hn; unfold intn; lia).
  assert (E : getRandomQuote unicodeLower openFile intn entries =
              Sampled quote) by (vm_compute; reflexivity).
  split; [exact H|]. split; [exact E|].
  pose proof (getRandomQuote_cases unicodeLower openFile intn entries H) as C.
  rewrite E in C. exact C.
Defined.

Lemma getRandomQuote_empty_file_panics_witness :
  let unicodeLower := fun s : gostring => s in
  let openFile := fun path : gostring =>
    if bytes_eqb path (str "b.csv") then Some []
    else Some (appendToCSV initCSV [mkQuote (str "Раз.") [] [] []]) in
  let intn := fun n : Z => 0 in
  let entries := [mkEntry (str "a.csv") (str "a.csv") false false;
                  mkEntry (str "b.csv") (str "b.csv") false false] in
  let csvFiles := [str "a.csv"; str "b.csv"] in
  findCSVFiles unicodeLower entries = Some csvFiles /\
  In (str "b.csv") csvFiles /\ openFile (str "b.csv") = Some [] /\
  Csv.ReadAll [] = Ok [] /\
  getRandomQuote unicodeLower openFile intn entries = SamplePanic.
Proof.
  intros unicodeLower openFile intn entries csvFiles.
  assert (F : findCSVFiles unicodeLower entries = Some csvFiles)
    by (vm_compute; reflexivity).
  assert (I : In (str "b.csv") csvFiles) by (right; left; reflexivity).
  assert (O : openFile (str "b.csv") = Some []) by (vm_compute; reflexivity).
  assert (R : Csv.ReadAll [] = Ok []) by (vm_compute; reflexivity).
  split; [exact F|]. split; [exact I|]. split; [exact O|].
  split; [exact R|].
  apply (getRandomQuote_empty_file_panics unicodeLower openFile intn
           entries csvFiles (str "b.csv") [] F I O R).
Defined.

Lemma getRandomQuote_of_written_witness :
  let unicodeLower := fun s : gostring => s in
  let written := fun path : gostring =>
    if bytes_eqb path (str "a.csv")
    then [mkQuote (str "Раз; два.") (str "Автор") [] []]
    else [] in
  let openFile := fun path : gostring =>
    Some (appendToCSV initCSV (written path)) in
  let intn := fun n : Z => 0 in
  let entries := [mkEntry (str "a.csv") (str "a.csv") false false;
                  mkEntry (str "b.csv") (str "b.csv") false false] in
  let csvFiles := [str "a.csv"; str "b.csv"] in
  (forall n, 0 < n -> 0 <= intn n < n) /\
  findCSVFiles unicodeLower entries = Some csvFiles /\
  (forall path, In path csvFiles ->
     openFile path = Some (appendToCSV initCSV (written path))) /\
  getRandomQuote unicodeLower openFile intn entries =
    Sampled (mkQuote (str "Раз, два.") (str "Автор") [] []) /\
  exists path q,
    In path csvFiles /\ In q (written path) /\
    mkQuote (str "Раз, два.") (str "Автор") [] [] = sanitizeQuote q.
Proof.
  intros unicodeLower written openFile intn entries csvFiles.
  assert (H : forall n, 0 < n -> 0 <= intn n < n)
    by (intros n Hn; unfold intn; lia).
  assert (F : findCSVFiles unicodeLower entries = Some csvFiles)
    by (vm_compute; reflexivity).
  assert (W : forall path, In path csvFiles ->
                openFile path = Some (appendToCSV initCSV (written path)))
    by (intros path _; reflexivity).
  assert (E : getRandomQuote unicodeLower openFile intn entries =
              Sampled (mkQuote (str "Раз, два.") (str "Автор") [] []))
    by (vm_compute; reflexivity).
  split; [exact H|]. split; [exact F|]. split; [exact W|].
  split; [exact E|].
  pose proof (getRandomQuote_of_written unicodeLower openFile intn entries
                csvFiles written H F W) as C.
  rewrite E in C. exact C.
Defined.

Lemma readQuotes_all_rows_or_none_witness :
  let file := str "h1;h2;h3
a;b;c
d;e;f
" in
  let hdr := [str "h1"; str "h2"; str "h3"] in
  let rows := [[str "a"; str "b"; str "c"]; [str "d"; str "e"; str "f"]] in
  Csv.ReadAll file = Ok (hdr :: rows) /\
  0 < len hdr /\ Forall (fun r => len r = len hdr) rows /\
  readQuotesFromCSV file =
    Ok (if len hdr <? 4 then [] else map quoteOfRecord rows).
Proof.
  intros file hdr rows.
  assert (H : Csv.ReadAll file = Ok (hdr :: rows))
    by (vm_compute; reflexivity).
  split; [exact H|].
  apply (readQuotes_all_rows_or_none file hdr rows H).
Defined.

Lemma split_without_terminator_witness :
  let text := str " Раз (два [три " in
  forallb (fun b => negb (isTerminator (b2z b))) text = true /\
  splitSentences text = filter nonEmpty [Strings.TrimSpace (recode text)].
Proof.
  intros text.
  assert (H : forallb (fun b => negb (isTerminator (b2z b))) text = true)
    by (vm_compute; reflexivity).
  split; [exact H|].
  apply (split_without_terminator text H).
Defined.

Lemma verify_empty_candidate_witness :
  let sentences := [str "Раз."; str "Два."; str "Три."; str "Пять."] in
  let author := str "Автор" in
  sentences <> [] /\
  verifyAndExtractContext sentences [] author =
  Some (mkQuote [] author []
          (Strings.Join (firstn 2 (tl sentences)) (str " ")), true).
Proof.
  intros sentences author.
  assert (H : sentences <> []) by discriminate.
  split; [exact H|].
  apply (verify_empty_candidate sentences author H).
Defined.

Lemma processFile_one_block_witness :
  let generateContent := fun (_ : nat) (_ : gostring) =>
    Some (str "[" ++ [x22] ++ str "Два" ++ [x22] ++ str "]") in
  let jsonUnmarshal := fun _ : gostring => Some [str "Два"] in
  let lines := [str "Раз. Два."; str "Три."] in
  let author := str "Автор" in
  lines <> [] /\ len (textOf lines) <= maxBlockSize /\
  processFile generateContent jsonUnmarshal lines author =
  match processBlock generateContent jsonUnmarshal (textOf lines)
          (concat (map splitSentences lines)) author (mkRun initCSV [] [])
  with
  | BlockDone r | BlockAIError r => Some r
  | BlockPanic => None
  end.
Proof.
  intros generateContent jsonUnmarshal lines author.
  assert (H1 : lines <> []) by discriminate.
  assert (H2 : len (textOf lines) <= maxBlockSize)
    by (vm_compute; discriminate).
  split; [exact H1|]. split; [exact H2|].
  apply (processFile_one_block generateContent jsonUnmarshal lines author
           H1 H2).
Defined.

Lemma processFile_model_fails_witness :
  let generateContent := fun (_ : nat) (_ : gostring) => @None gostring in
  let jsonUnmarshal := fun _ : gostring => @None (list gostring) in
  let lines := [str "Раз. Два."; str "Три."] in
  let author := str "Автор" in
  (forall call request, generateContent call request = None) /\
  exists st,
    processFile generateContent jsonUnmarshal lines author = Some st /\
    csv st = initCSV /\ allQuotes st = [].
Proof.
  intros generateContent jsonUnmarshal lines author.
  assert (F : forall call request, generateContent call request = None)
    by (intros; reflexivity).
  split; [exact F|].
  apply (processFile_model_fails generateContent jsonUnmarshal lines author
           F).
Defined.
